(** * IQmol [Data::ShellList]: a shallow embedding and its verification

    The development follows [src/Data/ShellList.C].  The container owns an
    ordered list of shells and a handful of scratch buffers that the
    evaluation routines overwrite in place.  We model

    - [unsigned] as [Z] with the wrap-around modulo [2^32] written out;
    - [double] as an abstract scalar type carrying exactly the operations the
      code applies to it (no algebraic law is assumed unless a statement says
      so), so every equation below fixes the order of the floating-point
      operations as well;
    - buffers ([Vector], [unsigned*], [QList]) as lists, with every indexed
      read and write checked: an access outside the allocation has no defined
      behaviour in the source and makes the embedded routine return [None];
    - diagnostics ([qDebug], [QLOG_WARN]) as a list of emitted log entries. *)

From Stdlib Require Import ZArith Lia List String.
From stdpp Require Import base tactics option list numbers strings pretty sorting.

Local Open Scope Z_scope.

(** ** Unsigned machine arithmetic *)

Definition wrapw (w z : Z) : Z := z mod 2 ^ w.

(** [unsigned] is 32 bits wide on every platform IQmol is built for. *)
Definition UINT_BITS : Z := 32.
Definition wrap (z : Z) : Z := wrapw UINT_BITS z.

(** The expression [n*(n+1)/2] as C evaluates it on [w]-bit unsigned
    operands: the sum and the product wrap, the division does not. *)
Definition triangularSizeW (w n : Z) : Z := wrapw w (n * wrapw w (n + 1)) / 2.
Definition triangularSize (n : Z) : Z := triangularSizeW UINT_BITS n.

(** The same expression over the integers. *)
Definition triangular (n : Z) : Z := n * (n + 1) / 2.

(** ** Checked array accesses *)

Definition load {A} (buf : list A) (i : Z) : option A :=
  if decide (0 ≤ i) then buf !! Z.to_nat i else None.

Definition store {A} (buf : list A) (i : Z) (v : A) : option (list A) :=
  if decide (0 ≤ i ∧ (Z.to_nat i < length buf)%nat)
  then Some (<[Z.to_nat i := v]> buf) else None.

(** ** Loops *)

(** [for (unsigned i = 0; i < bound; ++i) body]: the counter is compared
    with [bound] before each increment, so it never wraps. *)
Fixpoint forLoop {St} (n : nat) (i : Z) (body : Z → St → option St) (st : St)
  : option St :=
  match n with
  | O => Some st
  | S n' => st' ← body i st; forLoop n' (i + 1) body st'
  end.

Definition forUnsigned {St} (bound : Z) (body : Z → St → option St) (st : St)
  : option St :=
  forLoop (Z.to_nat bound) 0 body st.

(** [for (it = begin(); it != end(); ++it) body] over a list. *)
Fixpoint forEach {A St} (l : list A) (body : A → St → option St) (st : St)
  : option St :=
  match l with
  | [] => Some st
  | a :: l' => st' ← body a st; forEach l' body st'
  end.

(** ** Scalars *)

(** The operations the code applies to [double] values. *)
Class Scalar (R : Type) := {
  s0 : R;                      (* 0.0 *)
  s1 : R;                      (* 1.0 *)
  s2 : R;                      (* 2.0 *)
  sadd : R → R → R;
  smul : R → R → R;
  sltb : R → R → bool          (* operator< *)
}.

(** [std::min(a,b)] is [(b < a) ? b : a]; [std::max(a,b)] is
    [(a < b) ? b : a]. *)
Definition smin `{Scalar R} (a b : R) : R := if sltb b a then b else a.
Definition smax `{Scalar R} (a b : R) : R := if sltb a b then b else a.

(** The laws used by the statements that need them. *)
Class ScalarSemiring (R : Type) `{Scalar R} : Prop := {
  sadd_0_l : ∀ a : R, sadd s0 a = a;
  sadd_0_r : ∀ a : R, sadd a s0 = a;
  smul_0_l : ∀ a : R, smul s0 a = s0;
  smul_1_l : ∀ a : R, smul s1 a = a
}.

(** [operator<] is a strict total order (no unordered values). *)
Class ScalarOrder (R : Type) `{Scalar R} : Prop := {
  sltb_irrefl : ∀ a : R, sltb a a = false;
  sltb_trans : ∀ a b c : R, sltb a b = true → sltb b c = true → sltb a c = true;
  sltb_total : ∀ a b : R, sltb a b = false → sltb b a = false → a = b
}.

Definition sle `{Scalar R} (a b : R) : Prop := sltb b a = false.

#[export] Instance Z_Scalar : Scalar Z :=
  {| s0 := 0; s1 := 1; s2 := 2; sadd := Z.add; smul := Z.mul; sltb := Z.ltb |}.

(** [qglviewer::Vec] *)
Record Vec (R : Type) := mkVec { vx : R; vy : R; vz : R }.
Arguments mkVec {R}.
Arguments vx {R}.
Arguments vy {R}.
Arguments vz {R}.

(** ** Shells *)

Module Shell.

(** [Data::Shell::AngularMomentum] *)
Inductive AngularMomentum := S | P | D5 | D6 | F7 | F10 | G9 | G15.

(** Modelled from the spec: [Data::Shell] is declared outside this file.
    A shell is what its constructor receives: kind, atom index, position,
    exponents and contraction coefficients. *)
Record t (R : Type) := new {
  angularMomentum : AngularMomentum;
  atomIndex : Z;
  position : Vec R;
  exponents : list R;
  coefficients : list R
}.
Arguments new {R}.
Arguments angularMomentum {R}.
Arguments atomIndex {R}.
Arguments position {R}.
Arguments exponents {R}.
Arguments coefficients {R}.

(** Modelled from the spec: [Shell::nBasis()], fixed by the kind; the table
    is the one [ShellList::dump] checks [nBasis()] against. *)
Definition basisCount (k : AngularMomentum) : Z :=
  match k with
  | S => 1 | P => 3 | D5 => 5 | D6 => 6
  | F7 => 7 | F10 => 10 | G9 => 9 | G15 => 15
  end.

Definition nBasis {R} (s : t R) : Z := basisCount (angularMomentum s).

End Shell.

(** ** Diagnostics *)

Inductive LogEntry :=
| qDebug (msg : string)
| qDebugList (l : list Z)
| QLOG_WARN (msg : string).

Definition isWarning (e : LogEntry) : bool :=
  match e with QLOG_WARN _ => true | _ => false end.

(** [QString::number] on an integer. *)
Definition QString_number (z : Z) : string := pretty z.

(** ** The container *)

(** [Matrix]: dense, row-major; [M(i,j)] is a checked read of row [i],
    column [j]. *)
Definition Matrix (R : Type) : Type := list (list R).

Definition matrixAt {R} (M : Matrix R) (i j : Z) : option R :=
  row ← load M i; load row j.

(** The raw record the constructor consumes ([ShellData]). *)
Record ShellData (R : Type) := mkShellData {
  shellTypes : list Z;                     (* QList<int> *)
  shellToAtom : list Z;                    (* QList<unsigned> *)
  shellPrimitives : list Z;                (* QList<unsigned> *)
  exponents : list R;
  contractionCoefficients : list R;
  contractionCoefficientsSP : list R;
  overlapMatrix : list R
}.
Arguments mkShellData {R}.
Arguments shellTypes {R}.
Arguments shellToAtom {R}.
Arguments shellPrimitives {R}.
Arguments exponents {R}.
Arguments contractionCoefficients {R}.
Arguments contractionCoefficientsSP {R}.
Arguments overlapMatrix {R}.

(** The members of [ShellList].  [shells] is the [List<Shell>] base;
    [m_sigBasis] and [m_orbitalCoefficients] are pointers, null ([None])
    until allocated or bound; [m_overlapMatrix] is [None] until
    [setOverlapMatrix] is called. *)
Record ShellList (R : Type) := mkShellList {
  shells : list (Shell.t R);
  m_overlapMatrix : option (list R);
  m_nBasis : Z;
  m_basisValues : list R;
  m_sigBasis : option (list Z);
  m_basisPairValues : list R;
  m_densityVectors : list (list R);
  m_densityValues : list R;
  m_orbitalIndices : list Z;
  m_orbitalCoefficients : option (Matrix R);
  m_orbitalValues : list R
}.
Arguments mkShellList {R}.
Arguments shells {R}.
Arguments m_overlapMatrix {R}.
Arguments m_nBasis {R}.
Arguments m_basisValues {R}.
Arguments m_sigBasis {R}.
Arguments m_basisPairValues {R}.
Arguments m_densityVectors {R}.
Arguments m_densityValues {R}.
Arguments m_orbitalIndices {R}.
Arguments m_orbitalCoefficients {R}.
Arguments m_orbitalValues {R}.

Section Container.
Context {R : Type} `{Scalar R}.

(** The [Shell] capability, implemented outside this file: point evaluation
    (null or an array of values) and the bounding box at a threshold. *)
Variable evaluate : Shell.t R → R → R → R → option (list R).
Variable shellBoundingBox : Shell.t R → R → Vec R * Vec R.

(** [pow(Constants::BohrToAngstrom, -2.0)] *)
Variable convExponents : R.

(** *** Member updates *)

Definition append (s : Shell.t R) (sl : ShellList R) : ShellList R :=
  mkShellList (shells sl ++ [s]) (m_overlapMatrix sl) (m_nBasis sl)
    (m_basisValues sl) (m_sigBasis sl) (m_basisPairValues sl)
    (m_densityVectors sl) (m_densityValues sl) (m_orbitalIndices sl)
    (m_orbitalCoefficients sl) (m_orbitalValues sl).

(** Modelled from the spec: [setOverlapMatrix] is defined in the header; it
    attaches the matrix. *)
Definition setOverlapMatrix (m : list R) (sl : ShellList R) : ShellList R :=
  mkShellList (shells sl) (Some m) (m_nBasis sl)
    (m_basisValues sl) (m_sigBasis sl) (m_basisPairValues sl)
    (m_densityVectors sl) (m_densityValues sl) (m_orbitalIndices sl)
    (m_orbitalCoefficients sl) (m_orbitalValues sl).

Definition withBasisValues (bv : list R) (sl : ShellList R) : ShellList R :=
  mkShellList (shells sl) (m_overlapMatrix sl) (m_nBasis sl)
    bv (m_sigBasis sl) (m_basisPairValues sl)
    (m_densityVectors sl) (m_densityValues sl) (m_orbitalIndices sl)
    (m_orbitalCoefficients sl) (m_orbitalValues sl).

Definition withDensityScratch (bv : list R) (sb : list Z) (dv : list R)
    (sl : ShellList R) : ShellList R :=
  mkShellList (shells sl) (m_overlapMatrix sl) (m_nBasis sl)
    bv (Some sb) (m_basisPairValues sl)
    (m_densityVectors sl) dv (m_orbitalIndices sl)
    (m_orbitalCoefficients sl) (m_orbitalValues sl).

Definition withOrbitalValues (ov : list R) (sl : ShellList R) : ShellList R :=
  mkShellList (shells sl) (m_overlapMatrix sl) (m_nBasis sl)
    (m_basisValues sl) (m_sigBasis sl) (m_basisPairValues sl)
    (m_densityVectors sl) (m_densityValues sl) (m_orbitalIndices sl)
    (m_orbitalCoefficients sl) ov.

(** [Vector::resize(n)]: the first [n] entries are kept; the contents of new
    entries are not fixed by the source and are modelled as [0.0]. *)
Definition resizeVector (n : Z) (v : list R) : list R :=
  take (Z.to_nat n) v ++ replicate (Z.to_nat n - length v) s0.

(** [QList::size()] converted to [unsigned]. *)
Definition usize {A} (l : list A) : Z := wrap (Z.of_nat (length l)).

(** *** [ShellList::nBasis] *)

Definition nBasis (sl : ShellList R) : Z :=
  fold_left (fun n s => wrap (n + Shell.nBasis s)) (shells sl) 0.

(** *** [ShellList::shellAtomOffsets] and [ShellList::basisAtomOffsets] *)

(** One iteration of the scan; the state is [(offsets, k, atomIndex)]. *)
Definition shellAtomOffsetsStep (st : list Z * Z * Z) (shell : Shell.t R)
  : list Z * Z * Z :=
  let '(offsets, k, atomIndex) := st in
  let '(offsets, atomIndex) :=
    if decide (Shell.atomIndex shell ≠ atomIndex)
    then (offsets ++ [k], wrap (atomIndex + 1))
    else (offsets, atomIndex) in
  (offsets, wrap (k + 1), atomIndex).

Definition shellAtomOffsets (sl : ShellList R) : list Z :=
  (fold_left shellAtomOffsetsStep (shells sl) ([0], 0, 0)).1.1.

Definition basisAtomOffsetsStep (st : list Z * Z * Z) (shell : Shell.t R)
  : list Z * Z * Z :=
  let '(offsets, k, atomIndex) := st in
  let '(offsets, atomIndex) :=
    if decide (Shell.atomIndex shell ≠ atomIndex)
    then (offsets ++ [k], wrap (atomIndex + 1))
    else (offsets, atomIndex) in
  (offsets, wrap (k + Shell.nBasis shell), atomIndex).

Definition basisAtomOffsets (sl : ShellList R) : list Z :=
  (fold_left basisAtomOffsetsStep (shells sl) ([0], 0, 0)).1.1.

(** *** [ShellList::resize] *)

Definition resize (sl : ShellList R) : ShellList R * list LogEntry :=
  let n := nBasis sl in
  let size := wrap (n * wrap (n + 1)) / 2 in
  let '(size, warning) :=
    if decide (wrap (2 * size) ≠ wrap (n * wrap (n + 1)))
    then (wrap (size + 1), [QLOG_WARN "Round error in ShellList::resize()"])
    else (size, []) in
  let sl' :=
    mkShellList (shells sl) (m_overlapMatrix sl) n
      (resizeVector n (m_basisValues sl))
      (Some (replicate (Z.to_nat n) 0))
      (resizeVector size (m_basisPairValues sl))
      (m_densityVectors sl) (m_densityValues sl) (m_orbitalIndices sl)
      (m_orbitalCoefficients sl) (m_orbitalValues sl) in
  (sl', warning ++ [qDebugList (shellAtomOffsets sl');
                    qDebugList (basisAtomOffsets sl')]).

(** *** [ShellList::boundingBox] *)

Definition origin : Vec R := mkVec s0 s0 s0.

Definition boundingBoxStep (thresh : R) (acc : Vec R * Vec R)
    (shell : Shell.t R) : Vec R * Vec R :=
  let '(min, max) := acc in
  let '(tmin, tmax) := shellBoundingBox shell thresh in
  (mkVec (smin (vx tmin) (vx min)) (smin (vy tmin) (vy min))
         (smin (vz tmin) (vz min)),
   mkVec (smax (vx tmax) (vx max)) (smax (vy tmax) (vy max))
         (smax (vz tmax) (vz max))).

(** [min] and [max] are in-out parameters; the result is their final
    value. *)
Definition boundingBox (sl : ShellList R) (min max : Vec R) (thresh : R)
  : Vec R * Vec R :=
  match shells sl with
  | [] => (origin, origin)
  | first :: _ =>
      fold_left (boundingBoxStep thresh) (shells sl)
        (shellBoundingBox first thresh)
  end.

(** *** [ShellList::ShellList] *)

(** The primitive loop of one raw entry.  The state is
    [(expts, coefs, coefsSP, cnt)]; [cnt] runs across all entries. *)
Definition primitiveStep (shellData : ShellData R) (i : Z)
    (st : list R * list R * list R * Z)
  : option (list R * list R * list R * Z) :=
  let '(expts, coefs, coefsSP, cnt) := st in
  e ← load (exponents shellData) cnt;
  c ← load (contractionCoefficients shellData) cnt;
  coefsSP' ←
    match contractionCoefficientsSP shellData with
    | [] => Some coefsSP
    | _ => c' ← load (contractionCoefficientsSP shellData) cnt;
           Some (coefsSP ++ [c'])
    end;
  Some (expts ++ [smul e convExponents], coefs ++ [c], coefsSP',
        wrap (cnt + 1)).

(** The [switch] on the type code: the shells appended, and the diagnostic
    of the default branch. *)
Definition shellsOfType (type shell atom : Z) (pos : Vec R)
    (expts coefs coefsSP : list R) : list (Shell.t R) * list LogEntry :=
  match type with
  | 0 => ([Shell.new Shell.S atom pos expts coefs], [])
  | -1 => ([Shell.new Shell.S atom pos expts coefs;
            Shell.new Shell.P atom pos expts coefsSP], [])
  | 1 => ([Shell.new Shell.P atom pos expts coefs], [])
  | -2 => ([Shell.new Shell.D5 atom pos expts coefs], [])
  | 2 => ([Shell.new Shell.D6 atom pos expts coefs], [])
  | -3 => ([Shell.new Shell.F7 atom pos expts coefs], [])
  | 3 => ([Shell.new Shell.F10 atom pos expts coefs], [])
  | -4 => ([Shell.new Shell.G9 atom pos expts coefs], [])
  | 4 => ([Shell.new Shell.G15 atom pos expts coefs], [])
  | _ => ([], [qDebug ("Unknown Shell type found at position "
                       +:+ QString_number shell
                       +:+ ", type: " +:+ QString_number type)])
  end.

(** One iteration of the loop over raw entries; the state is
    [(cnt, shells appended so far, log)]. *)
Definition entryStep (shellData : ShellData R) (geometry : Z → Vec R)
    (shell : Z) (st : Z * list (Shell.t R) * list LogEntry)
  : option (Z * list (Shell.t R) * list LogEntry) :=
  let '(cnt, built, log) := st in
  a ← load (shellToAtom shellData) shell;
  let atom := wrap (a - 1) in
  let pos := geometry atom in
  nprim ← load (shellPrimitives shellData) shell;
  '(expts, coefs, coefsSP, cnt') ←
    forUnsigned nprim (primitiveStep shellData) ([], [], [], cnt);
  type ← load (shellTypes shellData) shell;
  let '(new, msgs) := shellsOfType type shell atom pos expts coefs coefsSP in
  Some (cnt', built ++ new, log ++ msgs).

(** The object before the constructor body runs: an empty list, null
    pointers, default-constructed members. *)
Definition emptyShellList : ShellList R :=
  mkShellList [] None 0 [] None [] [] [] [] None [].

Definition ShellList_ctor (shellData : ShellData R) (geometry : Z → Vec R)
  : option (ShellList R * list LogEntry) :=
  let nShells := usize (shellTypes shellData) in
  '(_, built, log) ←
    forUnsigned nShells (entryStep shellData geometry) (0, [], []);
  let sl := fold_left (fun sl s => append s sl) built emptyShellList in
  let n := nBasis sl in
  let sl :=
    if decide (usize (overlapMatrix shellData) = wrap (wrap (n + 1) * n) / 2)
    then setOverlapMatrix (overlapMatrix shellData) sl
    else sl in
  let '(sl, log') := resize sl in
  Some (sl, log ++ log').

(** *** [ShellList::shellValues(x, y, z)] *)

(** The loops over the basis functions of one shell; the state is
    [(m_basisValues, offset)]. *)
Definition copyValue (values : list R) (s : Z) (st : list R * Z)
  : option (list R * Z) :=
  let '(bv, offset) := st in
  v ← load values s;
  bv' ← store bv offset v;
  Some (bv', wrap (offset + 1)).

Definition zeroValue (s : Z) (st : list R * Z) : option (list R * Z) :=
  let '(bv, offset) := st in
  bv' ← store bv offset s0;
  Some (bv', wrap (offset + 1)).

Definition shellValuesStep (x y z : R) (shell : Shell.t R) (st : list R * Z)
  : option (list R * Z) :=
  match evaluate shell x y z with
  | Some values => forUnsigned (Shell.nBasis shell) (copyValue values) st
  | None => forUnsigned (Shell.nBasis shell) zeroValue st
  end.

(** Returns the updated object and the vector the returned reference
    designates. *)
Definition shellValues (sl : ShellList R) (x y z : R)
  : option (ShellList R * list R) :=
  '(bv, _) ← forEach (shells sl) (shellValuesStep x y z) (m_basisValues sl, 0);
  Some (withBasisValues bv sl, bv).

(** *** [ShellList::setDensityVectors] and [ShellList::densityValues] *)

Definition setDensityVectors (densityVectors : list (list R))
    (sl : ShellList R) : ShellList R :=
  mkShellList (shells sl) (m_overlapMatrix sl) (m_nBasis sl)
    (m_basisValues sl) (m_sigBasis sl) (m_basisPairValues sl)
    densityVectors
    (resizeVector (usize densityVectors) (m_densityValues sl))
    (m_orbitalIndices sl) (m_orbitalCoefficients sl) (m_orbitalValues sl).

(** The state of the significance scan:
    [(m_basisValues, m_sigBasis, nSigBas, basoff)]. *)
Definition ScanState : Type := list R * list Z * Z * Z.

Definition recordSignificant (values : list R) (i : Z) (st : ScanState)
  : option ScanState :=
  let '(bv, sb, nSigBas, basoff) := st in
  v ← load values i;
  bv' ← store bv nSigBas v;
  sb' ← store sb nSigBas basoff;
  Some (bv', sb', wrap (nSigBas + 1), wrap (basoff + 1)).

Definition scanStep (x y z : R) (shell : Shell.t R) (st : ScanState)
  : option ScanState :=
  let values := evaluate shell x y z in
  let numbas := Shell.nBasis shell in
  match values with
  | Some values => forUnsigned numbas (recordSignificant values) st
  | None =>
      let '(bv, sb, nSigBas, basoff) := st in
      Some (bv, sb, nSigBas, wrap (basoff + numbas))
  end.

Definition significanceScan (sl : ShellList R) (sb : list Z) (x y z : R)
  : option ScanState :=
  forEach (shells sl) (scanStep x y z) (m_basisValues sl, sb, 0, 0).

(** [m_densityValues[k] = 0.0] *)
Definition zeroEntry (k : Z) (dv : list R) : option (list R) := store dv k s0.

(** [m_densityValues[k] += 2.0*xij*D[Ti+jj]], with [D] the vector
    [m_densityVectors[k]] points to. *)
Definition addOffDiagonal (dens : list (list R)) (xij : R) (Ti jj : Z)
    (k : Z) (dv : list R) : option (list R) :=
  D ← load dens k;
  d ← load D (wrap (Ti + jj));
  old ← load dv k;
  store dv k (sadd old (smul (smul s2 xij) d)).

(** [m_densityValues[k] += xi*xi*D[Ti+ii]], with [D] as above. *)
Definition addDiagonal (dens : list (list R)) (xi : R) (Ti ii : Z)
    (k : Z) (dv : list R) : option (list R) :=
  D ← load dens k;
  d ← load D (wrap (Ti + ii));
  old ← load dv k;
  store dv k (sadd old (smul (smul xi xi) d)).

Definition pairStep (dens : list (list R)) (bv : list R) (sb : list Z)
    (nden : Z) (xi : R) (Ti : Z) (j : Z) (dv : list R) : option (list R) :=
  xj ← load bv j;
  let xij := smul (smul s2 xi) xj in
  jj ← load sb j;
  forUnsigned nden (addOffDiagonal dens xij Ti jj) dv.

Definition rowStep (dens : list (list R)) (bv : list R) (sb : list Z)
    (nden : Z) (i : Z) (dv : list R) : option (list R) :=
  xi ← load bv i;
  ii ← load sb i;
  let Ti := wrap (ii * wrap (ii + 1)) / 2 in
  dv' ← forUnsigned i (pairStep dens bv sb nden xi Ti) dv;
  forUnsigned nden (addDiagonal dens xi Ti ii) dv'.

Definition densityValues (sl : ShellList R) (x y z : R)
  : option (ShellList R * list R) :=
  sb ← m_sigBasis sl;
  '(bv, sb', nSigBas, _) ← significanceScan sl sb x y z;
  let nden := usize (m_densityVectors sl) in
  dv ← forUnsigned nden zeroEntry (m_densityValues sl);
  dv' ← forUnsigned nSigBas (rowStep (m_densityVectors sl) bv sb' nden) dv;
  Some (withDensityScratch bv sb' dv' sl, dv').

(** *** [ShellList::setOrbitalVectors] and [ShellList::orbitalValues] *)

Definition setOrbitalVectors (coefficients : Matrix R) (indices : list Z)
    (sl : ShellList R) : ShellList R :=
  mkShellList (shells sl) (m_overlapMatrix sl) (m_nBasis sl)
    (m_basisValues sl) (m_sigBasis sl) (m_basisPairValues sl)
    (m_densityVectors sl) (m_densityValues sl)
    indices (Some coefficients)
    (resizeVector (usize indices) (m_orbitalValues sl)).

(** [m_orbitalValues[k] += C(m_orbitalIndices[k], basoff+i) * values[i]],
    with [C] the matrix [m_orbitalCoefficients] points to. *)
Definition projectOrbital (coefficients : option (Matrix R)) (indices : list Z)
    (values : list R) (basoff i : Z) (k : Z) (ov : list R) : option (list R) :=
  C ← coefficients;
  index ← load indices k;
  c ← matrixAt C index (wrap (basoff + i));
  v ← load values i;
  old ← load ov k;
  store ov k (sadd old (smul c v)).

Definition orbitalBasisStep (coefficients : option (Matrix R))
    (indices : list Z) (norb : Z) (values : list R) (basoff : Z)
    (i : Z) (ov : list R) : option (list R) :=
  forUnsigned norb (projectOrbital coefficients indices values basoff i) ov.

(** The state of the shell loop is [(m_orbitalValues, basoff)]. *)
Definition orbitalShellStep (coefficients : option (Matrix R))
    (indices : list Z) (norb : Z) (x y z : R) (shell : Shell.t R)
    (st : list R * Z) : option (list R * Z) :=
  let '(ov, basoff) := st in
  let values := evaluate shell x y z in
  let numbas := Shell.nBasis shell in
  ov' ←
    match values with
    | Some values =>
        forUnsigned numbas
          (orbitalBasisStep coefficients indices norb values basoff) ov
    | None => Some ov
    end;
  Some (ov', wrap (basoff + numbas)).

Definition orbitalValues (sl : ShellList R) (x y z : R)
  : option (ShellList R * list R) :=
  let norb := usize (m_orbitalIndices sl) in
  ov ← forUnsigned norb zeroEntry (m_orbitalValues sl);
  '(ov', _) ←
    forEach (shells sl)
      (orbitalShellStep (m_orbitalCoefficients sl) (m_orbitalIndices sl)
         norb x y z)
      (ov, 0);
  Some (withOrbitalValues ov' sl, ov').

End Container.

(** ** Specification-level notions *)

Section Specification.
Context {R : Type} `{Scalar R}.

(** The number of basis functions of a list of shells, over the integers. *)
Definition basisTotal (l : list (Shell.t R)) : Z :=
  foldr (fun s acc => Shell.nBasis s + acc) 0 l.

(** What [resize] establishes: the scratch buffers have [nBasis] entries. *)
Definition buffersSized (sl : ShellList R) : Prop :=
  length (m_basisValues sl) = Z.to_nat (nBasis sl) ∧
  ∃ sb, m_sigBasis sl = Some sb ∧ length sb = Z.to_nat (nBasis sl).

End Specification.

(** ** Sample data *)

Definition sampleShell (k : Shell.AngularMomentum) (atom : Z) : Shell.t Z :=
  Shell.new k atom (mkVec 0 0 0) [1] [1].

Definition sampleList (l : list (Shell.t Z)) : ShellList Z :=
  (resize (mkShellList l None 0 [] None [] [] [] [] None [])).1.

(** ** Atom boundaries *)

Section AtomBoundaries.
Context {R : Type}.

(** The positions, counted from [k], of the shells whose atom index differs
    from the expected one; the expected index advances by one at each. *)
Fixpoint boundariesFrom (l : list (Shell.t R)) (k expected : Z) : list Z :=
  match l with
  | [] => []
  | s :: l' =>
      if decide (Shell.atomIndex s ≠ expected)
      then k :: boundariesFrom l' (k + 1) (expected + 1)
      else boundariesFrom l' (k + 1) expected
  end.

(** The positions, counted from [k], of the shells whose atom index differs
    from the atom index seen just before ([prev] for the first shell). *)
Fixpoint atomChanges (l : list (Shell.t R)) (k prev : Z) : list Z :=
  match l with
  | [] => []
  | s :: l' =>
      if decide (Shell.atomIndex s ≠ prev)
      then k :: atomChanges l' (k + 1) (Shell.atomIndex s)
      else atomChanges l' (k + 1) prev
  end.

(** Shells grouped by increasing atom index: each shell sits on the atom of
    the shell before it ([prev] for the first) or on the next atom. *)
Fixpoint contiguousAtoms (prev : Z) (l : list (Shell.t R)) : Prop :=
  match l with
  | [] => True
  | s :: l' =>
      (Shell.atomIndex s = prev ∨ Shell.atomIndex s = prev + 1) ∧
      contiguousAtoms (Shell.atomIndex s) l'
  end.

Definition startsOnAtomZero (l : list (Shell.t R)) : Prop :=
  match l with [] => True | s :: _ => Shell.atomIndex s = 0 end.

End AtomBoundaries.

(** ** Bounding boxes *)

Section BoxSpecification.
Context {R : Type} `{Scalar R}.
Variable shellBoundingBox : Shell.t R → R → Vec R * Vec R.

(** [m] is the least (greatest) of the values [f s] over the shells of [l]:
    it bounds each of them and is one of them. *)
Definition leastOf (f : Shell.t R → R) (l : list (Shell.t R)) (m : R) : Prop :=
  (∀ s, s ∈ l → sle m (f s)) ∧ ∃ s, s ∈ l ∧ m = f s.

Definition greatestOf (f : Shell.t R → R) (l : list (Shell.t R)) (m : R) : Prop :=
  (∀ s, s ∈ l → sle (f s) m) ∧ ∃ s, s ∈ l ∧ m = f s.

(** The union of the shells' boxes at a threshold. *)
Definition isBoxUnion (l : list (Shell.t R)) (thresh : R) (box : Vec R * Vec R)
  : Prop :=
  leastOf (fun s => vx (shellBoundingBox s thresh).1) l (vx box.1) ∧
  leastOf (fun s => vy (shellBoundingBox s thresh).1) l (vy box.1) ∧
  leastOf (fun s => vz (shellBoundingBox s thresh).1) l (vz box.1) ∧
  greatestOf (fun s => vx (shellBoundingBox s thresh).2) l (vx box.2) ∧
  greatestOf (fun s => vy (shellBoundingBox s thresh).2) l (vy box.2) ∧
  greatestOf (fun s => vz (shellBoundingBox s thresh).2) l (vz box.2).

End BoxSpecification.

(** A sample box: a cube around the atom index, growing with the kind. *)
Definition sampleBox (s : Shell.t Z) (thresh : Z) : Vec Z * Vec Z :=
  let c := Shell.atomIndex s in
  let r := Shell.nBasis s + thresh in
  (mkVec (c - r) (c - r) (c - r), mkVec (c + r) (c + r) (c + r)).

(** ** Basis values *)

Section BasisSpecification.
Context {R : Type} `{Scalar R}.
Variable evaluate : Shell.t R → R → R → R → option (list R).

(** The contract of [Shell::evaluate] at a point: a non-null result holds
    one value per basis function of the shell. *)
Definition evaluateWellFormed (l : list (Shell.t R)) (x y z : R) : Prop :=
  Forall (fun s => ∀ v, evaluate s x y z = Some v →
                        Z.of_nat (length v) = Shell.nBasis s) l.

(** The slice of one shell in the zero-filled basis-value vector: its values
    when it evaluates non-null, zeros otherwise. *)
Definition shellSlice (x y z : R) (s : Shell.t R) : list R :=
  match evaluate s x y z with
  | Some values => values
  | None => replicate (Z.to_nat (Shell.nBasis s)) s0
  end.

(** The zero-filled basis-value vector: the slices in shell order. *)
Definition basisVector (l : list (Shell.t R)) (x y z : R) : list R :=
  flat_map (shellSlice x y z) l.

End BasisSpecification.

(** A sample evaluation: a shell is significant within distance 10 of its
    atom along the first axis; its values count up from the first
    coordinate. *)
Definition sampleEvaluate (s : Shell.t Z) (x y z : Z) : option (list Z) :=
  if Z.abs (x - Shell.atomIndex s) <? 10
  then Some (map (fun i => x + y + z + i) (seqZ 0 (Shell.nBasis s)))
  else None.

(** An [S] shell on atom 0, a [P] shell on the far atom 20 and a [D5] shell
    on atom 1: nine basis functions. *)
Definition sampleContainer : ShellList Z :=
  sampleList [sampleShell Shell.S 0; sampleShell Shell.P 20;
              sampleShell Shell.D5 1].

(** ** Significant entries and the density form *)

Section DensitySpecification.
Context {R : Type} `{Scalar R}.
Variable evaluate : Shell.t R → R → R → R → option (list R).

(** The significant entries at a point: for each shell that evaluates
    non-null, in order, the pairs (global basis index, value) of its basis
    functions.  [offset] is the global index of the first basis function of
    [l]; a shell that evaluates null yields no entry and advances the index
    by its basis-function count. *)
Fixpoint significantEntries (l : list (Shell.t R)) (x y z : R) (offset : Z)
  : list (Z * R) :=
  match l with
  | [] => []
  | s :: l' =>
      match evaluate s x y z with
      | Some values => zip (seqZ offset (Shell.nBasis s)) values
      | None => []
      end ++ significantEntries l' x y z (offset + Shell.nBasis s)
  end.

(** [v[i]] for a vector [v] ([0.0] outside it). *)
Definition valueAt (v : list R) (i : Z) : R := default s0 (load v i).

(** The contribution of the significant entry [(ii, xi)], with [prev] the
    significant entries before it: [2*(2*xi*xj)*D[Ti+jj]] for each earlier
    entry [(jj, xj)], then the diagonal term [xi*xi*D[Ti+ii]], where
    [Ti = ii*(ii+1)/2]. *)
Definition offDiagonalTerm (D : list R) (ii : Z) (xi : R) (acc : R)
    (e : Z * R) : R :=
  sadd acc (smul (smul s2 (smul (smul s2 xi) e.2))
                 (valueAt D (triangular ii + e.1))).

Definition rowValue (D : list R) (prev : list (Z * R)) (e : Z * R) (acc : R)
  : R :=
  sadd (fold_left (offDiagonalTerm D e.1 e.2) prev acc)
       (smul (smul e.2 e.2) (valueAt D (triangular e.1 + e.1))).

Fixpoint densityRows (D : list R) (prev todo : list (Z * R)) (acc : R) : R :=
  match todo with
  | [] => acc
  | e :: todo' => densityRows D (prev ++ [e]) todo' (rowValue D prev e acc)
  end.

(** The quadratic form restricted to the significant entries, accumulated
    from zero. *)
Definition quadraticForm (D : list R) (entries : list (Z * R)) : R :=
  densityRows D [] entries s0.

(** The state of the scan after the shells [pre], in terms of the
    significant entries of [pre]. *)
Definition scanned (bv0 : list R) (sb0 : list Z) (pre : list (Shell.t R))
    (x y z : R) : ScanState :=
  let entries := significantEntries pre x y z 0 in
  (entries.*2 ++ drop (length entries) bv0,
   entries.*1 ++ drop (length entries) sb0,
   Z.of_nat (length entries), basisTotal pre).

End DensitySpecification.

(** The sample container bound to two packed 9x9 matrices. *)
Definition sampleDensity : ShellList Z :=
  setDensityVectors [seqZ 1 45; replicate 45 1] sampleContainer.

(** ** Orbital projections *)

Section OrbitalSpecification.
Context {R : Type} `{Scalar R}.

(** Row [index] of a coefficient matrix. *)
Definition coefficientRow (C : Matrix R) (index : Z) : list R :=
  default [] (load C index).

(** What one significant entry [(g, value)] adds to an orbital value:
    [coefficient[index][g] * value]. *)
Definition orbitalTerm (row : list R) (acc : R) (e : Z * R) : R :=
  sadd acc (smul (valueAt row e.1) e.2).

(** The projection of the significant entries on one row, accumulated from
    zero. *)
Definition orbitalProjection (row : list R) (entries : list (Z * R)) : R :=
  fold_left (orbitalTerm row) entries s0.

(** Every requested row exists and has a column for each of the [n] basis
    functions. *)
Definition rowsAvailable (C : Matrix R) (indices : list Z) (n : Z) : Prop :=
  Forall (fun index => ∃ row, load C index = Some row ∧
                              n ≤ Z.of_nat (length row)) indices.

(** The identity restricted to the requested indices: the requested row
    [index] is [1.0] in column [index] and [0.0] in the other columns. *)
Definition identityRows (C : Matrix R) (indices : list Z) (n : Z) : Prop :=
  Forall (fun index =>
            0 ≤ index < n ∧
            ∀ g, 0 ≤ g < n →
                 valueAt (coefficientRow C index) g
                 = if decide (g = index) then s1 else s0) indices.

(** The value of the significant entry with global index [g], if any. *)
Fixpoint lookupEntry (g : Z) (entries : list (Z * R)) : option R :=
  match entries with
  | [] => None
  | e :: rest => if decide (e.1 = g) then Some e.2 else lookupEntry g rest
  end.

End OrbitalSpecification.

(** The sample container bound to the 9x9 identity, requesting the orbitals
    5, 2 and 0. *)
Definition sampleIdentity : Matrix Z :=
  map (fun i => map (fun j => if decide (i = j) then 1 else 0) (seqZ 0 9))
      (seqZ 0 9).

Definition sampleOrbitals : ShellList Z :=
  setOrbitalVectors sampleIdentity [5; 2; 0] sampleContainer.

(** ** Construction from the raw record *)

Section ConstructionSpecification.
Context {R : Type} `{Scalar R}.
Variable convExponents : R.

(** The number of primitives of the raw entries before entry [e]. *)
Definition primitiveOffset (d : ShellData R) (e : nat) : Z :=
  foldr Z.add 0 (take e (shellPrimitives d)).

Definition slice {A} (l : list A) (offset count : Z) : list A :=
  take (Z.to_nat count) (drop (Z.to_nat offset) l).

Definition entryType (d : ShellData R) (e : nat) : Z :=
  default 0 (shellTypes d !! e).

(** The atom index of entry [e], converted to 0-based. *)
Definition entryAtom (d : ShellData R) (e : nat) : Z :=
  wrap (default 0 (shellToAtom d !! e) - 1).

Definition entryPrimitives (d : ShellData R) (e : nat) : Z :=
  default 0 (shellPrimitives d !! e).

(** The exponents of entry [e], converted, and its two coefficient lists. *)
Definition entryExponents (d : ShellData R) (e : nat) : list R :=
  (fun x => smul x convExponents)
  <$> slice (exponents d) (primitiveOffset d e) (entryPrimitives d e).

Definition entryCoefficients (d : ShellData R) (e : nat) : list R :=
  slice (contractionCoefficients d) (primitiveOffset d e) (entryPrimitives d e).

Definition entryCoefficientsSP (d : ShellData R) (e : nat) : list R :=
  slice (contractionCoefficientsSP d) (primitiveOffset d e) (entryPrimitives d e).

(** The shells and the diagnostics of entry [e]. *)
Definition entryShells (d : ShellData R) (geometry : Z → Vec R) (e : nat)
  : list (Shell.t R) * list LogEntry :=
  shellsOfType (entryType d e) (Z.of_nat e) (entryAtom d e)
    (geometry (entryAtom d e))
    (entryExponents d e) (entryCoefficients d e) (entryCoefficientsSP d e).

(** The shells and the diagnostics of all entries, in entry order. *)
Definition recordShells (d : ShellData R) (geometry : Z → Vec R)
  : list (Shell.t R) :=
  flat_map (fun e => (entryShells d geometry e).1)
           (seq 0 (length (shellTypes d))).

Definition recordLog (d : ShellData R) (geometry : Z → Vec R) : list LogEntry :=
  flat_map (fun e => (entryShells d geometry e).2)
           (seq 0 (length (shellTypes d))).

(** The object after the loop over the raw entries and the overlap test,
    before [resize]. *)
Definition beforeResize (d : ShellData R) (geometry : Z → Vec R) : ShellList R :=
  let sl := mkShellList (recordShells d geometry) None 0 [] None [] [] [] []
              None [] in
  if decide (usize (overlapMatrix d) = triangularSize (nBasis sl))
  then setOverlapMatrix (overlapMatrix d) sl
  else sl.

(** A raw record the constructor can index: one atom and one primitive
    count per type code, and enough exponents and coefficients for all the
    primitives (the SP coefficients may be absent altogether). *)
Definition wellFormedShellData (d : ShellData R) : Prop :=
  let n := length (shellTypes d) in
  Z.of_nat n < 2 ^ 32 ∧
  (n ≤ length (shellToAtom d))%nat ∧
  (n ≤ length (shellPrimitives d))%nat ∧
  Forall (fun p => 0 ≤ p) (shellPrimitives d) ∧
  primitiveOffset d n < 2 ^ 32 ∧
  primitiveOffset d n ≤ Z.of_nat (length (exponents d)) ∧
  primitiveOffset d n ≤ Z.of_nat (length (contractionCoefficients d)) ∧
  (contractionCoefficientsSP d = [] ∨
   primitiveOffset d n ≤ Z.of_nat (length (contractionCoefficientsSP d))).

(** The same raw record with another overlap matrix. *)
Definition withOverlapData (om : list R) (d : ShellData R) : ShellData R :=
  mkShellData (shellTypes d) (shellToAtom d) (shellPrimitives d) (exponents d)
    (contractionCoefficients d) (contractionCoefficientsSP d) om.

(** The same object with another overlap-matrix member. *)
Definition withOverlapMatrix (om : option (list R)) (sl : ShellList R)
  : ShellList R :=
  mkShellList (shells sl) om (m_nBasis sl)
    (m_basisValues sl) (m_sigBasis sl) (m_basisPairValues sl)
    (m_densityVectors sl) (m_densityValues sl) (m_orbitalIndices sl)
    (m_orbitalCoefficients sl) (m_orbitalValues sl).

End ConstructionSpecification.

(** A raw record with an S, an SP, an unknown (code 5) and a P entry on two
    atoms, with 1, 2, 1 and 1 primitives. *)
Definition sampleData : ShellData Z :=
  mkShellData [0; -1; 5; 1] [1; 1; 2; 2] [1; 2; 1; 1]
    [10; 20; 30; 40; 50] [1; 2; 3; 4; 5] [6; 7; 8; 9; 10] [1; 1; 1].

Definition sampleGeometry (atom : Z) : Vec Z := mkVec atom 0 0.

(** ** Further members of [ShellList] *)

Section PointForm.
Context {R : Type} `{Scalar R}.

(** [Shell::evaluate(gridPoint)], the overload that takes a point. *)
Variable evaluateAt : Shell.t R → Vec R → option (list R).

Definition withBasisPairValues (pairs : list R) (sl : ShellList R)
  : ShellList R :=
  mkShellList (shells sl) (m_overlapMatrix sl) (m_nBasis sl)
    (m_basisValues sl) (m_sigBasis sl) pairs
    (m_densityVectors sl) (m_densityValues sl) (m_orbitalIndices sl)
    (m_orbitalCoefficients sl) (m_orbitalValues sl).

(** *** [ShellList::shellValues(gridPoint)] *)

(** [m_basisValues[offset] = values[s]] through a null [values]. *)
Definition copyNull (s : Z) (st : list R * Z) : option (list R * Z) := None.

(** The result of [evaluate] is read without a null test. *)
Definition shellValuesAtStep (gridPoint : Vec R) (shell : Shell.t R)
    (st : list R * Z) : option (list R * Z) :=
  match evaluateAt shell gridPoint with
  | Some values => forUnsigned (Shell.nBasis shell) (copyValue values) st
  | None => forUnsigned (Shell.nBasis shell) copyNull st
  end.

Definition shellValuesAt (sl : ShellList R) (gridPoint : Vec R)
  : option (ShellList R * list R) :=
  '(bv, _) ←
    forEach (shells sl) (shellValuesAtStep gridPoint) (m_basisValues sl, 0);
  Some (withBasisValues bv sl, bv).

(** *** [ShellList::shellPairValues] *)

(** The loop over [j < i]; the state is [(m_basisPairValues, k)]. *)
Definition pairValueStep (bv : list R) (xi : R) (j : Z) (st : list R * Z)
  : option (list R * Z) :=
  let '(pairs, k) := st in
  xj ← load bv j;
  pairs' ← store pairs k (smul (smul s2 xi) xj);
  Some (pairs', wrap (k + 1)).

Definition pairRowStep (bv : list R) (i : Z) (st : list R * Z)
  : option (list R * Z) :=
  xi ← load bv i;
  '(pairs, k) ← forUnsigned i (pairValueStep bv xi) st;
  pairs' ← store pairs k (smul xi xi);
  Some (pairs', wrap (k + 1)).

Definition shellPairValues (sl : ShellList R) (gridPoint : Vec R)
  : option (ShellList R * list R) :=
  '(sl, bv) ← shellValuesAt sl gridPoint;
  '(pairs, _) ←
    forUnsigned (m_nBasis sl) (pairRowStep bv) (m_basisPairValues sl, 0);
  Some (withBasisPairValues pairs sl, pairs).

End PointForm.

(** ** Further specification-level notions *)

Section FurtherSpecification.
Context {R : Type} `{Scalar R}.
Variable evaluateAt : Shell.t R → Vec R → option (list R).

(** The contract of [Shell::evaluate(gridPoint)] where it returns values. *)
Definition evaluateAtWellFormed (l : list (Shell.t R)) (gridPoint : Vec R)
  : Prop :=
  Forall (fun s => ∀ v, evaluateAt s gridPoint = Some v →
                        Z.of_nat (length v) = Shell.nBasis s) l.

(** The values of all shells at a point, in shell order. *)
Definition pointVector (l : list (Shell.t R)) (gridPoint : Vec R) : list R :=
  flat_map (fun s => default [] (evaluateAt s gridPoint)) l.

(** Row [i] of the packed lower triangle of the outer product of [x]:
    [2*x_i*x_j] for [j < i], then [x_i*x_i]. *)
Definition packedRow (x : list R) (i : nat) : list R :=
  let xi := default s0 (x !! i) in
  ((fun xj => smul (smul s2 xi) xj) <$> take i x) ++ [smul xi xi].

Definition packedOuterProduct (x : list R) : list R :=
  flat_map (packedRow x) (seq 0 (length x)).

(** The number of basis functions a type code stands for. *)
Definition basisOfCode (type : Z) : Z :=
  match type with
  | 0 => 1 | -1 => 4 | 1 => 3 | -2 => 5 | 2 => 6
  | -3 => 7 | 3 => 10 | -4 => 9 | 4 => 15
  | _ => 0
  end.

End FurtherSpecification.

(** Three shells on atom 0 followed by two on atom 1. *)
Definition sampleTwoAtoms : ShellList Z :=
  sampleList [sampleShell Shell.S 0; sampleShell Shell.S 0;
              sampleShell Shell.P 0; sampleShell Shell.S 1;
              sampleShell Shell.P 1].

(** A sample point evaluation: every shell evaluates non-null within
    distance 10 of its atom along the first axis. *)
Definition sampleEvaluateAt (s : Shell.t Z) (p : Vec Z) : option (list Z) :=
  sampleEvaluate s (vx p) (vy p) (vz p).

(** A raw record with two type codes and a single atom index. *)
Definition sampleShortData : ShellData Z :=
  mkShellData [0; 1] [1] [1; 1] [10; 20] [1; 2] [] [].

(** * Verification *)

(** ** Unsigned arithmetic *)

Lemma wrapw_range w z : 0 ≤ w → 0 ≤ wrapw w z < 2 ^ w.
Proof. intros. unfold wrapw. apply Z.mod_pos_bound. by apply Z.pow_pos_nonneg. Qed.

Lemma wrap_range z : 0 ≤ wrap z < 2 ^ 32.
Proof. by apply (wrapw_range 32). Qed.

Lemma wrap_small z : 0 ≤ z < 2 ^ 32 → wrap z = z.
Proof. intros. unfold wrap, wrapw, UINT_BITS. by apply Z.mod_small. Qed.

Lemma wrapw_parity w z : 0 < w → wrapw w z mod 2 = z mod 2.
Proof.
  intros Hw. unfold wrapw. apply Z.mod_mod_divide.
  exists (2 ^ (w - 1)). rewrite Z.mul_comm, <- Z.pow_succ_r by lia. f_equal. lia.
Qed.

Lemma consecutive_product_even m : (m * (m + 1)) mod 2 = 0.
Proof.
  rewrite Z.mul_mod by lia. rewrite (Z.add_mod m 1) by lia.
  destruct (Z.mod_pos_bound m 2 ltac:(lia)) as [? ?].
  assert (m mod 2 = 0 ∨ m mod 2 = 1) as [-> | ->] by lia; reflexivity.
Qed.

Lemma unsigned_product_even w m : 0 < w → wrapw w (m * wrapw w (m + 1)) mod 2 = 0.
Proof.
  intros Hw. rewrite wrapw_parity by done.
  rewrite Z.mul_mod by lia. rewrite wrapw_parity by done.
  rewrite <- Z.mul_mod by lia. apply consecutive_product_even.
Qed.

(** Twice the halved product is the product again, in [w]-bit arithmetic. *)
Lemma triangularSizeW_double w m :
  0 < w → 2 * triangularSizeW w m = wrapw w (m * wrapw w (m + 1)).
Proof.
  intros Hw. unfold triangularSizeW.
  pose proof (unsigned_product_even w m Hw) as Hev.
  rewrite (Z.div_mod (wrapw w (m * wrapw w (m + 1))) 2) at 2 by lia. lia.
Qed.

Lemma triangularSizeW_parity_check w m :
  0 < w → wrapw w (2 * triangularSizeW w m) = wrapw w (m * wrapw w (m + 1)).
Proof.
  intros Hw. rewrite triangularSizeW_double by done.
  unfold wrapw. apply Z.mod_mod. apply Z.pow_nonzero; lia.
Qed.

Lemma triangularSize_exact n :
  0 ≤ n → n * (n + 1) < 2 ^ 32 → triangularSize n = triangular n.
Proof.
  intros Hn Hlt. unfold triangularSize, triangularSizeW, triangular.
  change (wrapw UINT_BITS) with wrap.
  rewrite (wrap_small (n + 1)) by nia. by rewrite wrap_small by nia.
Qed.

Lemma triangularSize_range n : 0 ≤ triangularSize n < 2 ^ 31.
Proof.
  unfold triangularSize, triangularSizeW. change (wrapw UINT_BITS) with wrap.
  pose proof (wrap_range (n * wrap (n + 1))) as Hr.
  split; [apply Z.div_pos; lia | apply Z.div_lt_upper_bound; lia].
Qed.

(** ** Loops *)

Lemma forLoop_inv {St} (Inv : Z → St → Prop) n i
    (body : Z → St → option St) st :
  Inv i st →
  (∀ k s, i ≤ k < i + Z.of_nat n → Inv k s →
          ∃ s', body k s = Some s' ∧ Inv (k + 1) s') →
  ∃ st', forLoop n i body st = Some st' ∧ Inv (i + Z.of_nat n) st'.
Proof.
  revert i st. induction n as [|n IH]; intros i st Hi Hstep.
  - exists st. split; [done|]. by replace (i + Z.of_nat 0) with i by lia.
  - destruct (Hstep i st ltac:(lia) Hi) as (s' & Hb & Hi').
    destruct (IH (i + 1) s' Hi') as (st' & Hl & Hfin).
    { intros k s Hk. apply Hstep. lia. }
    exists st'. split.
    + simpl. by rewrite Hb.
    + by replace (i + Z.of_nat (S n)) with (i + 1 + Z.of_nat n) by lia.
Qed.

Lemma forUnsigned_inv {St} (Inv : Z → St → Prop) bound
    (body : Z → St → option St) st :
  0 ≤ bound →
  Inv 0 st →
  (∀ k s, 0 ≤ k < bound → Inv k s →
          ∃ s', body k s = Some s' ∧ Inv (k + 1) s') →
  ∃ st', forUnsigned bound body st = Some st' ∧ Inv bound st'.
Proof.
  intros Hb H0 Hstep.
  destruct (forLoop_inv Inv (Z.to_nat bound) 0 body st H0) as (st' & Hl & Hfin).
  { intros k s Hk. apply Hstep. lia. }
  exists st'. split; [done|]. by replace bound with (0 + Z.of_nat (Z.to_nat bound)) by lia.
Qed.

Lemma forEach_inv {A St} (Inv : list A → St → Prop) (l : list A)
    (body : A → St → option St) st :
  Inv [] st →
  (∀ pre a post s, l = pre ++ a :: post → Inv pre s →
                   ∃ s', body a s = Some s' ∧ Inv (pre ++ [a]) s') →
  ∃ st', forEach l body st = Some st' ∧ Inv l st'.
Proof.
  intros H0 Hstep.
  enough (∀ post pre s, l = pre ++ post → Inv pre s →
            ∃ st', forEach post body s = Some st' ∧ Inv l st') as Hgen
    by exact (Hgen l [] st eq_refl H0).
  induction post as [|a post IH]; intros pre s Hl Hi.
  - exists s. split; [done|]. by rewrite Hl, app_nil_r.
  - destruct (Hstep pre a post s Hl Hi) as (s' & Hb & Hi').
    destruct (IH (pre ++ [a]) s') as (st' & Hf & Hfin); [by rewrite <- app_assoc | done |].
    exists st'. split; [|done]. simpl. by rewrite Hb.
Qed.

(** ** Basis counts and buffer sizes *)

Section Sizes.
Context {R : Type} `{Scalar R}.
Implicit Types (sl : ShellList R) (l : list (Shell.t R)).

Lemma basisCount_range k : 1 ≤ Shell.basisCount k ≤ 15.
Proof. destruct k; simpl; lia. Qed.

Lemma shell_nBasis_range (s : Shell.t R) : 1 ≤ Shell.nBasis s ≤ 15.
Proof. apply basisCount_range. Qed.

Lemma basisTotal_nonneg l : 0 ≤ basisTotal l.
Proof.
  induction l as [|s l IH]; simpl; [lia|]. pose proof (shell_nBasis_range s). lia.
Qed.

Lemma basisTotal_app l1 l2 : basisTotal (l1 ++ l2) = basisTotal l1 + basisTotal l2.
Proof. induction l1 as [|s l1 IH]; simpl; lia. Qed.

Lemma nBasis_fold_range l n :
  0 ≤ n < 2 ^ 32 →
  0 ≤ fold_left (fun n (s : Shell.t R) => wrap (n + Shell.nBasis s)) l n < 2 ^ 32.
Proof.
  revert n. induction l as [|s l IH]; intros n Hn; simpl; [done|].
  apply IH, wrap_range.
Qed.

Lemma nBasis_range sl : 0 ≤ nBasis sl < 2 ^ 32.
Proof. apply nBasis_fold_range. lia. Qed.

Lemma nBasis_fold_exact l n :
  0 ≤ n → n + basisTotal l < 2 ^ 32 →
  fold_left (fun n (s : Shell.t R) => wrap (n + Shell.nBasis s)) l n
  = n + basisTotal l.
Proof.
  revert n. induction l as [|s l IH]; intros n Hn Hlt; simpl in *; [lia|].
  pose proof (shell_nBasis_range s). pose proof (basisTotal_nonneg l).
  rewrite wrap_small by lia. rewrite IH by lia. lia.
Qed.

Lemma nBasis_exact sl :
  basisTotal (shells sl) < 2 ^ 32 → nBasis sl = basisTotal (shells sl).
Proof. intros. unfold nBasis. rewrite nBasis_fold_exact; lia. Qed.

Lemma length_resizeVector n (v : list R) :
  length (resizeVector n v) = Z.to_nat n.
Proof.
  unfold resizeVector. rewrite length_app, length_take, length_replicate. lia.
Qed.

(** The parity test of [resize] never fails. *)
Lemma resize_parity n :
  wrap (2 * (wrap (n * wrap (n + 1)) / 2)) = wrap (n * wrap (n + 1)).
Proof. apply (triangularSizeW_parity_check 32 n). lia. Qed.

Lemma resize_eq sl :
  resize sl =
  let n := nBasis sl in
  let sl' :=
    mkShellList (shells sl) (m_overlapMatrix sl) n
      (resizeVector n (m_basisValues sl))
      (Some (replicate (Z.to_nat n) 0))
      (resizeVector (triangularSize n) (m_basisPairValues sl))
      (m_densityVectors sl) (m_densityValues sl) (m_orbitalIndices sl)
      (m_orbitalCoefficients sl) (m_orbitalValues sl) in
  (sl', [qDebugList (shellAtomOffsets sl'); qDebugList (basisAtomOffsets sl')]).
Proof.
  unfold resize. cbv zeta.
  destruct (decide _) as [Hne|_]; [|done].
  exfalso. apply Hne, resize_parity.
Qed.

Lemma resize_shells sl : shells (resize sl).1 = shells sl.
Proof. by rewrite resize_eq. Qed.

Lemma resize_nBasis sl : nBasis (resize sl).1 = nBasis sl.
Proof. by rewrite resize_eq. Qed.

Lemma resize_buffersSized sl : buffersSized (resize sl).1.
Proof.
  rewrite resize_eq. cbv zeta. unfold buffersSized, nBasis. simpl. split.
  - apply length_resizeVector.
  - eexists. split; [done|]. apply length_replicate.
Qed.

(** C4.  In [resize] the triangular size [T = nBasis*(nBasis+1)/2], computed
    in unsigned arithmetic, always satisfies [2*T == nBasis*(nBasis+1)] (for
    every width [w > 0], wrapped or not), so the branch that increments [T]
    and warns is never taken: no warning is logged and the basis-pair buffer
    has exactly [T] entries.  [T] is the integer [nBasis*(nBasis+1)/2]
    whenever the product does not overflow; the buffer has 0 entries for
    [nBasis = 0] and 6 for [nBasis = 3]. *)
Theorem resize_triangular_size sl :
  (∀ w m, 0 < w →
     wrapw w (2 * triangularSizeW w m) = wrapw w (m * wrapw w (m + 1))) ∧
  existsb isWarning (resize sl).2 = false ∧
  m_nBasis (resize sl).1 = nBasis sl ∧
  Z.of_nat (length (m_basisPairValues (resize sl).1)) = triangularSize (nBasis sl) ∧
  wrap (2 * triangularSize (nBasis sl)) = wrap (nBasis sl * wrap (nBasis sl + 1)) ∧
  (nBasis sl * (nBasis sl + 1) < 2 ^ 32 →
     triangularSize (nBasis sl) = triangular (nBasis sl)) ∧
  (nBasis sl = 0 → length (m_basisPairValues (resize sl).1) = 0%nat) ∧
  (nBasis sl = 3 → length (m_basisPairValues (resize sl).1) = 6%nat).
Proof.
  pose proof (nBasis_range sl) as Hn.
  pose proof (triangularSize_range (nBasis sl)) as Ht.
  assert (Z.of_nat (length (m_basisPairValues (resize sl).1))
          = triangularSize (nBasis sl)) as Hlen.
  { rewrite resize_eq. cbv zeta. simpl. rewrite length_resizeVector. lia. }
  split; [exact triangularSizeW_parity_check|].
  split; [by rewrite resize_eq|].
  split; [by rewrite resize_eq|].
  split; [exact Hlen|].
  split; [apply (triangularSizeW_parity_check 32); lia|].
  split; [intros; apply triangularSize_exact; lia|].
  split; intros Hv; rewrite Hv in Hlen.
  - change (triangularSize 0) with 0 in Hlen. lia.
  - change (triangularSize 3) with 6 in Hlen. lia.
Qed.

End Sizes.

(** A container with one [P] shell has three basis functions and a
    six-entry basis-pair buffer. *)
Lemma resize_triangular_size_witness :
  nBasis (sampleList [sampleShell Shell.P 0]) = 3 ∧
  length (m_basisPairValues (sampleList [sampleShell Shell.P 0])) = 6%nat.
Proof.
  split; [reflexivity|].
  apply (resize_triangular_size
           (mkShellList [sampleShell Shell.P 0] None 0 [] None [] [] [] [] None [])).
  reflexivity.
Defined.

(** ** [shellAtomOffsets] *)

Section AtomOffsets.
Context {R : Type} `{Scalar R}.
Implicit Types (sl : ShellList R) (l : list (Shell.t R)).

Lemma shellAtomOffsets_fold l offsets k expected :
  0 ≤ expected ≤ k → k + Z.of_nat (length l) < 2 ^ 32 →
  (fold_left shellAtomOffsetsStep l (offsets, k, expected)).1.1
  = offsets ++ boundariesFrom l k expected.
Proof.
  revert offsets k expected.
  induction l as [|s l IH]; intros offsets k expected Hk Hlen; simpl in *.
  - by rewrite app_nil_r.
  - rewrite (wrap_small (k + 1)) by lia.
    destruct (decide (Shell.atomIndex s ≠ expected)).
    + rewrite (wrap_small (expected + 1)) by lia.
      rewrite IH by lia. by rewrite <- app_assoc.
    + rewrite IH by lia. done.
Qed.

Lemma boundariesFrom_lower l k expected :
  Forall (fun p => k ≤ p) (boundariesFrom l k expected).
Proof.
  revert k expected. induction l as [|s l IH]; intros k expected; simpl.
  - constructor.
  - destruct (decide _).
    + constructor; [lia|]. eapply Forall_impl; [apply IH|]. simpl. lia.
    + eapply Forall_impl; [apply IH|]. simpl. lia.
Qed.

Lemma boundariesFrom_sorted l k expected :
  StronglySorted Z.lt (boundariesFrom l k expected).
Proof.
  revert k expected. induction l as [|s l IH]; intros k expected; simpl.
  - constructor.
  - destruct (decide _); [|apply IH].
    constructor; [apply IH|].
    eapply Forall_impl; [apply boundariesFrom_lower|]. simpl. lia.
Qed.

(** On contiguous atom groups the expected index is the index seen last. *)
Lemma boundariesFrom_atomChanges l k prev :
  contiguousAtoms prev l → boundariesFrom l k prev = atomChanges l k prev.
Proof.
  revert k prev. induction l as [|s l IH]; intros k prev Hc; simpl in *; [done|].
  destruct Hc as [Hs Hc]. destruct (decide _) as [Hne|Heq].
  - assert (Shell.atomIndex s = prev + 1) as Hnext by (destruct Hs; [done|lia]).
    f_equal. rewrite <- Hnext. by apply IH.
  - apply dec_stable in Heq. apply IH. by rewrite <- Heq.
Qed.

Lemma boundariesFrom_same_atom l k a :
  Forall (fun s => Shell.atomIndex s = a) l → boundariesFrom l k a = [].
Proof.
  revert k. induction l as [|s l IH]; intros k Hall; simpl; [done|].
  inversion Hall; subst. destruct (decide _) as [Hne|_]; [done|]. by apply IH.
Qed.

(** C8.  [shellAtomOffsets] returns [0] followed by the positions of the
    shells whose atom index differs from the expected atom index, which
    advances by one at each such boundary.  The appended positions are
    strictly increasing.  For shells grouped by increasing atom index the
    expected index is the atom index seen last, so the positions are those
    where the atom index changes, and when the first shell sits on atom 0
    the whole sequence is strictly increasing.  Three shells on one atom
    give [[0]]. *)
Theorem shellAtomOffsets_spec sl
    (Hsize : Z.of_nat (length (shells sl)) < 2 ^ 32) :
  shellAtomOffsets sl = 0 :: boundariesFrom (shells sl) 0 0 ∧
  StronglySorted Z.lt (boundariesFrom (shells sl) 0 0) ∧
  (contiguousAtoms 0 (shells sl) →
     shellAtomOffsets sl = 0 :: atomChanges (shells sl) 0 0) ∧
  (startsOnAtomZero (shells sl) →
     StronglySorted Z.lt (shellAtomOffsets sl)) ∧
  (length (shells sl) = 3%nat →
   Forall (fun s => Shell.atomIndex s = 0) (shells sl) →
     shellAtomOffsets sl = [0]).
Proof.
  assert (shellAtomOffsets sl = 0 :: boundariesFrom (shells sl) 0 0) as Heq.
  { unfold shellAtomOffsets. by rewrite shellAtomOffsets_fold by lia. }
  split; [done|]. split; [apply boundariesFrom_sorted|].
  split; [|split].
  - intros Hc. rewrite Heq. f_equal. by apply boundariesFrom_atomChanges.
  - intros Hz. rewrite Heq. constructor; [apply boundariesFrom_sorted|].
    destruct (shells sl) as [|s l]; simpl in *; [constructor|].
    destruct (decide _) as [Hne|_]; [done|].
    eapply Forall_impl; [apply boundariesFrom_lower|]. simpl. lia.
  - intros _ Hall. rewrite Heq. f_equal. by apply boundariesFrom_same_atom.
Qed.

End AtomOffsets.

(** Three shells on atom 0 followed by two on atom 1. *)
Lemma shellAtomOffsets_spec_witness :
  shellAtomOffsets
    (sampleList [sampleShell Shell.S 0; sampleShell Shell.S 0;
                 sampleShell Shell.P 0; sampleShell Shell.S 1;
                 sampleShell Shell.P 1]) = [0; 3].
Proof.
  pose proof (shellAtomOffsets_spec
                (sampleList [sampleShell Shell.S 0; sampleShell Shell.S 0;
                             sampleShell Shell.P 0; sampleShell Shell.S 1;
                             sampleShell Shell.P 1])
                ltac:(vm_compute; reflexivity)) as [Heq _].
  exact Heq.
Defined.

(** ** [boundingBox] *)

#[export] Instance Z_ScalarOrder : ScalarOrder Z.
Proof.
  split; simpl.
  - apply Z.ltb_irrefl.
  - intros a b c Hab Hbc. apply Z.ltb_lt. apply Z.ltb_lt in Hab, Hbc. lia.
  - intros a b Hab Hba. apply Z.ltb_ge in Hab, Hba. lia.
Qed.

Section Order.
Context {R : Type} `{ScalarOrder R}.

Lemma sltb_asym (a b : R) : sltb a b = true → sltb b a = false.
Proof.
  intros Hab. destruct (sltb b a) eqn:Hba; [|done].
  pose proof (sltb_trans a b a Hab Hba) as Haa.
  by rewrite sltb_irrefl in Haa.
Qed.

Lemma sle_refl (a : R) : sle a a.
Proof. apply sltb_irrefl. Qed.

Lemma sle_trans (a b c : R) : sle a b → sle b c → sle a c.
Proof.
  unfold sle. intros Hab Hbc. destruct (sltb c a) eqn:Hca; [|done].
  destruct (sltb a b) eqn:Hlt.
  - by rewrite (sltb_trans c a b Hca Hlt) in Hbc.
  - rewrite (sltb_total a b Hlt Hab) in Hca. by rewrite Hca in Hbc.
Qed.

Lemma smin_le_l (t acc : R) : sle (smin t acc) t.
Proof.
  unfold smin, sle. destruct (sltb acc t) eqn:E; [by apply sltb_asym | apply sltb_irrefl].
Qed.

Lemma smin_le_r (t acc : R) : sle (smin t acc) acc.
Proof. unfold smin, sle. destruct (sltb acc t) eqn:E; [apply sltb_irrefl | done]. Qed.

Lemma smin_cases (t acc : R) : smin t acc = t ∨ smin t acc = acc.
Proof. unfold smin. destruct (sltb acc t); auto. Qed.

Lemma smax_ge_l (t acc : R) : sle t (smax t acc).
Proof.
  unfold smax, sle. destruct (sltb t acc) eqn:E; [by apply sltb_asym | apply sltb_irrefl].
Qed.

Lemma smax_ge_r (t acc : R) : sle acc (smax t acc).
Proof. unfold smax, sle. destruct (sltb t acc) eqn:E; [apply sltb_irrefl | done]. Qed.

Lemma smax_cases (t acc : R) : smax t acc = t ∨ smax t acc = acc.
Proof. unfold smax. destruct (sltb t acc); auto. Qed.

(** Folding [std::min] over a list, from a value already below an element
    of the list. *)
Lemma fold_smin_least (f : Shell.t R → R) (l : list (Shell.t R)) (init : R) :
  let m := fold_left (fun acc s => smin (f s) acc) l init in
  sle m init ∧ (∀ s, s ∈ l → sle m (f s)) ∧ (m = init ∨ ∃ s, s ∈ l ∧ m = f s).
Proof.
  revert init. induction l as [|a l IH]; intros init; simpl.
  - split; [apply sle_refl|]. split; [|by left]. intros s Hs. by apply elem_of_nil in Hs.
  - destruct (IH (smin (f a) init)) as (Hle & Hall & Hatt).
    split; [eapply sle_trans; [exact Hle | apply smin_le_r]|].
    split.
    + intros s Hs. apply elem_of_cons in Hs as [-> | Hs]; [|by apply Hall].
      eapply sle_trans; [exact Hle | apply smin_le_l].
    + destruct Hatt as [Heq | (s & Hs & Heq)].
      * rewrite Heq. destruct (smin_cases (f a) init) as [E | E].
        -- right. exists a. split; [apply list_elem_of_here | done].
        -- by left.
      * right. exists s. split; [by apply list_elem_of_further | done].
Qed.

Lemma fold_smax_greatest (f : Shell.t R → R) (l : list (Shell.t R)) (init : R) :
  let m := fold_left (fun acc s => smax (f s) acc) l init in
  sle init m ∧ (∀ s, s ∈ l → sle (f s) m) ∧ (m = init ∨ ∃ s, s ∈ l ∧ m = f s).
Proof.
  revert init. induction l as [|a l IH]; intros init; simpl.
  - split; [apply sle_refl|]. split; [|by left]. intros s Hs. by apply elem_of_nil in Hs.
  - destruct (IH (smax (f a) init)) as (Hle & Hall & Hatt).
    split; [eapply sle_trans; [apply smax_ge_r | exact Hle]|].
    split.
    + intros s Hs. apply elem_of_cons in Hs as [-> | Hs]; [|by apply Hall].
      eapply sle_trans; [apply smax_ge_l | exact Hle].
    + destruct Hatt as [Heq | (s & Hs & Heq)].
      * rewrite Heq. destruct (smax_cases (f a) init) as [E | E].
        -- right. exists a. split; [apply list_elem_of_here | done].
        -- by left.
      * right. exists s. split; [by apply list_elem_of_further | done].
Qed.

End Order.

Section BoundingBox.
Context {R : Type} `{ScalarOrder R}.
Variable shellBoundingBox : Shell.t R → R → Vec R * Vec R.
Implicit Types (sl : ShellList R) (l : list (Shell.t R)).

Let box thresh s := shellBoundingBox s thresh.

(** The fold acts on each of the six coordinates separately. *)
Lemma boundingBox_fold_components thresh l (acc : Vec R * Vec R) :
  let r := fold_left (boundingBoxStep shellBoundingBox thresh) l acc in
  vx r.1 = fold_left (fun a s => smin (vx (box thresh s).1) a) l (vx acc.1) ∧
  vy r.1 = fold_left (fun a s => smin (vy (box thresh s).1) a) l (vy acc.1) ∧
  vz r.1 = fold_left (fun a s => smin (vz (box thresh s).1) a) l (vz acc.1) ∧
  vx r.2 = fold_left (fun a s => smax (vx (box thresh s).2) a) l (vx acc.2) ∧
  vy r.2 = fold_left (fun a s => smax (vy (box thresh s).2) a) l (vy acc.2) ∧
  vz r.2 = fold_left (fun a s => smax (vz (box thresh s).2) a) l (vz acc.2).
Proof.
  revert acc. induction l as [|a l IH]; intros acc; simpl; [done|].
  destruct (IH (boundingBoxStep shellBoundingBox thresh acc a))
    as (Ex & Ey & Ez & Fx & Fy & Fz).
  rewrite Ex, Ey, Ez, Fx, Fy, Fz. unfold boundingBoxStep, box.
  destruct acc as [mn mx]. destruct (shellBoundingBox a thresh) as [tmin tmax].
  done.
Qed.

Lemma leastOf_fold f first rest :
  leastOf f (first :: rest)
    (fold_left (fun a s => smin (f s) a) (first :: rest) (f first)).
Proof.
  destruct (fold_smin_least f (first :: rest) (f first)) as (_ & Hall & Hatt).
  split; [done|]. destruct Hatt as [Heq | Hex]; [|done].
  exists first. split; [apply list_elem_of_here | done].
Qed.

Lemma greatestOf_fold f first rest :
  greatestOf f (first :: rest)
    (fold_left (fun a s => smax (f s) a) (first :: rest) (f first)).
Proof.
  destruct (fold_smax_greatest f (first :: rest) (f first)) as (_ & Hall & Hatt).
  split; [done|]. destruct Hatt as [Heq | Hex]; [|done].
  exists first. split; [apply list_elem_of_here | done].
Qed.

(** C9.  On an empty container [boundingBox] sets [min] and [max] to the
    origin.  On a non-empty container it starts from the box of the first
    shell and folds [std::min] / [std::max] over the boxes of all shells;
    when [operator<] is a strict total order the result is, in each
    coordinate, the least of the shells' box minima and the greatest of
    their box maxima at the given threshold. *)
Theorem boundingBox_union sl (min max : Vec R) (thresh : R) :
  (shells sl = [] → boundingBox shellBoundingBox sl min max thresh = (origin, origin)) ∧
  (∀ first rest, shells sl = first :: rest →
     boundingBox shellBoundingBox sl min max thresh
     = fold_left (boundingBoxStep shellBoundingBox thresh) (first :: rest)
         (shellBoundingBox first thresh)) ∧
  (shells sl ≠ [] →
     isBoxUnion shellBoundingBox (shells sl) thresh
       (boundingBox shellBoundingBox sl min max thresh)).
Proof.
  unfold boundingBox. split; [by intros ->|]. split; [by intros first rest ->|].
  intros Hne. destruct (shells sl) as [|first rest]; [done|].
  destruct (boundingBox_fold_components thresh (first :: rest)
              (shellBoundingBox first thresh))
    as (Ex & Ey & Ez & Fx & Fy & Fz).
  unfold isBoxUnion. rewrite Ex, Ey, Ez, Fx, Fy, Fz. unfold box.
  repeat split;
    first [ apply (leastOf_fold (fun s => vx (shellBoundingBox s thresh).1))
          | apply (leastOf_fold (fun s => vy (shellBoundingBox s thresh).1))
          | apply (leastOf_fold (fun s => vz (shellBoundingBox s thresh).1))
          | apply (greatestOf_fold (fun s => vx (shellBoundingBox s thresh).2))
          | apply (greatestOf_fold (fun s => vy (shellBoundingBox s thresh).2))
          | apply (greatestOf_fold (fun s => vz (shellBoundingBox s thresh).2)) ].
Qed.

End BoundingBox.

(** An [S] shell on atom 0 and a [P] shell on atom 4, at threshold 1: the
    boxes are [-2,2]^3 and [0,8]^3. *)
Lemma boundingBox_union_witness :
  isBoxUnion sampleBox
    (shells (sampleList [sampleShell Shell.S 0; sampleShell Shell.P 4])) 1
    (mkVec (-2) (-2) (-2), mkVec 8 8 8).
Proof.
  exact (proj2 (proj2
           (boundingBox_union sampleBox
              (sampleList [sampleShell Shell.S 0; sampleShell Shell.P 4])
              (mkVec 9 9 9) (mkVec 9 9 9) 1))
           ltac:(discriminate)).
Defined.

(** ** Checked accesses *)

Lemma load_Some {A} (buf : list A) (i : nat) (v : A) :
  buf !! i = Some v → load buf (Z.of_nat i) = Some v.
Proof.
  intros Hl. unfold load. destruct (decide _); [|lia]. by rewrite Nat2Z.id.
Qed.

Lemma load_lookup {A} (buf : list A) (i : Z) :
  0 ≤ i → load buf i = buf !! Z.to_nat i.
Proof. intros. unfold load. by destruct (decide _). Qed.

Lemma store_Some {A} (buf : list A) (i : nat) (v : A) :
  (i < length buf)%nat → store buf (Z.of_nat i) v = Some (<[i := v]> buf).
Proof.
  intros Hl. unfold store. rewrite Nat2Z.id. destruct (decide _) as [|Hn]; [done|].
  exfalso. apply Hn. split; lia.
Qed.

(** Overwriting the first cell after the part already written. *)
Lemma insert_next {A} (done vs old : list A) (k : nat) (v o : A) :
  length vs = k → old !! k = Some o →
  <[(length done + k)%nat := v]> (done ++ vs ++ drop k old)
  = done ++ (vs ++ [v]) ++ drop (S k) old.
Proof.
  intros Hvs Ho. rewrite (drop_S _ _ _ Ho).
  rewrite insert_app_r_alt by lia. f_equal.
  rewrite insert_app_r_alt by lia.
  replace (length done + k - length done - length vs)%nat with 0%nat by lia.
  simpl. by rewrite <- app_assoc.
Qed.

(** ** [shellValues] *)

(** A loop that writes [g 0], [g 1], ... into consecutive cells. *)
Lemma fill_loop {R} (g : Z → option R) (body : Z → list R * Z → option (list R * Z))
    (vs done old : list R) :
  (∀ s bv off, body s (bv, off)
               = v ← g s; bv' ← store bv off v; Some (bv', wrap (off + 1))) →
  (∀ k v, vs !! k = Some v → g (Z.of_nat k) = Some v) →
  (length vs ≤ length old)%nat →
  Z.of_nat (length done) + Z.of_nat (length vs) < 2 ^ 32 →
  forUnsigned (Z.of_nat (length vs)) body (done ++ old, Z.of_nat (length done))
  = Some (done ++ vs ++ drop (length vs) old,
          Z.of_nat (length done) + Z.of_nat (length vs)).
Proof.
  intros Hbody Hg Hlen Hfit.
  destruct (forUnsigned_inv
              (fun k st => st = (done ++ take (Z.to_nat k) vs ++ drop (Z.to_nat k) old,
                                 Z.of_nat (length done) + k))
              (Z.of_nat (length vs)) body (done ++ old, Z.of_nat (length done)))
    as (st' & Hrun & Hfin).
  - lia.
  - simpl. by rewrite Z.add_0_r.
  - intros k st Hk ->.
    destruct (lookup_lt_is_Some_2 vs (Z.to_nat k)) as [v Hv]; [lia|].
    destruct (lookup_lt_is_Some_2 old (Z.to_nat k)) as [o Ho]; [lia|].
    eexists. split; [|reflexivity].
    rewrite Hbody. rewrite <- (Z2Nat.id k) at 1 by lia. rewrite (Hg _ _ Hv). simpl.
    replace (Z.of_nat (length done) + k)
      with (Z.of_nat (length done + Z.to_nat k)) by lia.
    rewrite store_Some.
    2:{ rewrite !length_app, length_take, length_drop. lia. }
    simpl. rewrite insert_next with (o := o); [|rewrite length_take; lia|done].
    rewrite <- (take_S_r _ _ _ Hv).
    replace (Z.to_nat (k + 1)) with (S (Z.to_nat k)) by lia.
    rewrite wrap_small by lia. do 2 f_equal. lia.
  - rewrite Hrun, Hfin. rewrite Nat2Z.id. by rewrite firstn_all.
Qed.

Section ShellValues.
Context {R : Type} `{Scalar R}.
Variable evaluate : Shell.t R → R → R → R → option (list R).
Implicit Types (sl : ShellList R) (l : list (Shell.t R)).

Lemma length_shellSlice x y z (s : Shell.t R) :
  (∀ v, evaluate s x y z = Some v → Z.of_nat (length v) = Shell.nBasis s) →
  Z.of_nat (length (shellSlice evaluate x y z s)) = Shell.nBasis s.
Proof.
  intros Hev. unfold shellSlice. destruct (evaluate s x y z) as [v|]; [by apply Hev|].
  rewrite length_replicate. pose proof (shell_nBasis_range s). lia.
Qed.

Lemma length_basisVector l x y z :
  evaluateWellFormed evaluate l x y z →
  Z.of_nat (length (basisVector evaluate l x y z)) = basisTotal l.
Proof.
  induction 1 as [|s l Hs _ IH]; simpl; [done|].
  rewrite length_app, Nat2Z.inj_add, IH. by rewrite length_shellSlice.
Qed.

Lemma basisVector_app l1 l2 x y z :
  basisVector evaluate (l1 ++ l2) x y z
  = basisVector evaluate l1 x y z ++ basisVector evaluate l2 x y z.
Proof. unfold basisVector. apply flat_map_app. Qed.

(** One shell: its slice replaces the next [nBasis] cells. *)
Lemma shellValuesStep_slice x y z (s : Shell.t R) (done old : list R) :
  (∀ v, evaluate s x y z = Some v → Z.of_nat (length v) = Shell.nBasis s) →
  Shell.nBasis s ≤ Z.of_nat (length old) →
  Z.of_nat (length done) + Shell.nBasis s < 2 ^ 32 →
  shellValuesStep evaluate x y z s (done ++ old, Z.of_nat (length done))
  = Some (done ++ shellSlice evaluate x y z s
               ++ drop (Z.to_nat (Shell.nBasis s)) old,
          Z.of_nat (length done) + Shell.nBasis s).
Proof.
  intros Hev Hold Hfit. pose proof (shell_nBasis_range s) as Hnb.
  unfold shellValuesStep, shellSlice.
  destruct (evaluate s x y z) as [values|].
  - specialize (Hev values eq_refl).
    pose proof (fill_loop (load values) (copyValue values) values done old) as Hf.
    rewrite Hev in Hf. replace (length values) with (Z.to_nat (Shell.nBasis s)) in Hf by lia.
    apply Hf; [done | | lia | lia].
    intros k v Hv. by apply load_Some.
  - pose proof (fill_loop (fun _ => Some s0) zeroValue
                  (replicate (Z.to_nat (Shell.nBasis s)) s0) done old) as Hf.
    rewrite length_replicate, Z2Nat.id in Hf by lia.
    apply Hf; [done | | lia | lia].
    intros k v Hv. apply lookup_replicate in Hv as [-> _]. done.
Qed.

Lemma shellValues_run sl x y z :
  basisTotal (shells sl) < 2 ^ 32 →
  length (m_basisValues sl) = Z.to_nat (nBasis sl) →
  evaluateWellFormed evaluate (shells sl) x y z →
  forEach (shells sl) (shellValuesStep evaluate x y z) (m_basisValues sl, 0)
  = Some (basisVector evaluate (shells sl) x y z, basisTotal (shells sl)).
Proof.
  intros Hfit Hsized Hev. rewrite nBasis_exact in Hsized by done.
  destruct (forEach_inv
              (fun pre st =>
                 st = (basisVector evaluate pre x y z
                         ++ drop (Z.to_nat (basisTotal pre)) (m_basisValues sl),
                       basisTotal pre))
              (shells sl) (shellValuesStep evaluate x y z) (m_basisValues sl, 0))
    as (st' & Hrun & Hfin).
  - done.
  - intros pre a post st Hl ->.
    assert (evaluateWellFormed evaluate pre x y z ∧
            (∀ v, evaluate a x y z = Some v → Z.of_nat (length v) = Shell.nBasis a))
      as [Hpre Ha].
    { unfold evaluateWellFormed in Hev. rewrite Hl in Hev.
      apply Forall_app in Hev as [? Hev]. by inversion Hev. }
    pose proof (length_basisVector pre x y z Hpre) as Hlen.
    pose proof (basisTotal_nonneg pre). pose proof (basisTotal_nonneg post).
    pose proof (shell_nBasis_range a).
    assert (basisTotal (shells sl) = basisTotal pre + (Shell.nBasis a + basisTotal post))
      as Htot by (rewrite Hl, basisTotal_app; done).
    eexists. split; [|reflexivity].
    rewrite <- Hlen at 2. rewrite shellValuesStep_slice; [| done | rewrite length_drop; lia | lia].
    rewrite basisVector_app, basisTotal_app. simpl. rewrite app_nil_r, Z.add_0_r.
    rewrite drop_drop, <- app_assoc. rewrite Hlen.
    by replace (Z.to_nat (basisTotal pre) + Z.to_nat (Shell.nBasis a))%nat
      with (Z.to_nat (basisTotal pre + Shell.nBasis a)) by lia.
  - rewrite Hrun, Hfin. rewrite drop_ge by lia. by rewrite app_nil_r.
Qed.

Lemma basisVector_all_null l x y z :
  Forall (fun s => evaluate s x y z = None) l →
  basisVector evaluate l x y z = replicate (Z.to_nat (basisTotal l)) s0.
Proof.
  induction 1 as [|s l Hs _ IH]; simpl; [done|].
  pose proof (shell_nBasis_range s). pose proof (basisTotal_nonneg l).
  rewrite Z2Nat.inj_add, replicate_add by lia.
  rewrite IH. unfold shellSlice. by rewrite Hs.
Qed.

(** The slice of a shell sits at its global offset. *)
Lemma basisVector_slice pre s post x y z :
  evaluateWellFormed evaluate (pre ++ s :: post) x y z →
  take (Z.to_nat (Shell.nBasis s))
    (drop (Z.to_nat (basisTotal pre)) (basisVector evaluate (pre ++ s :: post) x y z))
  = shellSlice evaluate x y z s.
Proof.
  intros Hev. apply Forall_app in Hev as [Hpre Hrest].
  pose proof (length_basisVector pre x y z Hpre) as Hlen.
  inversion Hrest as [|? ? Hs _]; subst.
  pose proof (length_shellSlice x y z s Hs) as Hls.
  rewrite basisVector_app. simpl.
  rewrite drop_app_length' by lia. rewrite take_app_length' by lia. done.
Qed.

(** C3.  [shellValues(x,y,z)] returns a vector of length [nBasis] made of
    the shells' slices in order: the slice of a shell starts at its global
    offset (the number of basis functions of the shells before it) and holds
    the shell's values when it evaluates non-null and zeros when it
    evaluates null.  When every shell evaluates null the result is the
    all-zero vector of length [nBasis]. *)
Theorem shellValues_zero_filled sl x y z
    (Hfit : basisTotal (shells sl) < 2 ^ 32)
    (Hsized : length (m_basisValues sl) = Z.to_nat (nBasis sl))
    (Hev : evaluateWellFormed evaluate (shells sl) x y z) :
  ∃ values,
    shellValues evaluate sl x y z = Some (withBasisValues values sl, values) ∧
    length values = Z.to_nat (nBasis sl) ∧
    (∀ pre s post, shells sl = pre ++ s :: post →
       take (Z.to_nat (Shell.nBasis s)) (drop (Z.to_nat (basisTotal pre)) values)
       = match evaluate s x y z with
         | Some v => v
         | None => replicate (Z.to_nat (Shell.nBasis s)) s0
         end) ∧
    (Forall (fun s => evaluate s x y z = None) (shells sl) →
       values = replicate (Z.to_nat (nBasis sl)) s0).
Proof.
  exists (basisVector evaluate (shells sl) x y z).
  split; [|split; [|split]].
  - unfold shellValues. by rewrite shellValues_run.
  - rewrite nBasis_exact by done. rewrite <- (length_basisVector _ x y z Hev). lia.
  - intros pre s post Hl. rewrite Hl in Hev |- *. by rewrite basisVector_slice.
  - intros Hnull. rewrite nBasis_exact by done. by apply basisVector_all_null.
Qed.

End ShellValues.

Lemma sampleContainer_evaluate x y z :
  evaluateWellFormed sampleEvaluate (shells sampleContainer) x y z.
Proof.
  repeat constructor; intros v; unfold sampleEvaluate;
    (destruct (_ <? _); [|done]); intros [= <-]; reflexivity.
Qed.

(** At [(1,0,0)] the [P] shell is insignificant: its three cells are
    zero-filled. *)
Lemma shellValues_zero_filled_witness :
  ∃ values,
    shellValues sampleEvaluate sampleContainer 1 0 0
    = Some (withBasisValues values sampleContainer, values) ∧
    length values = 9%nat ∧
    take 3 (drop 1 values) = [0; 0; 0].
Proof.
  destruct (shellValues_zero_filled sampleEvaluate sampleContainer 1 0 0
              ltac:(vm_compute; reflexivity) ltac:(reflexivity)
              (sampleContainer_evaluate 1 0 0))
    as (values & Hrun & Hlen & Hslice & _).
  exists values. split; [exact Hrun|]. split; [exact Hlen|].
  exact (Hslice [sampleShell Shell.S 0] (sampleShell Shell.P 20)
           [sampleShell Shell.D5 1] eq_refl).
Defined.

(** ** The significance scan of [densityValues] *)

Section SignificantEntries.
Context {R : Type} `{Scalar R}.
Variable evaluate : Shell.t R → R → R → R → option (list R).
Implicit Types (sl : ShellList R) (l : list (Shell.t R)).

Lemma significantEntries_app l1 l2 x y z offset :
  significantEntries evaluate (l1 ++ l2) x y z offset
  = significantEntries evaluate l1 x y z offset
    ++ significantEntries evaluate l2 x y z (offset + basisTotal l1).
Proof.
  revert offset. induction l1 as [|s l1 IH]; intros offset; simpl.
  - by rewrite Z.add_0_r.
  - rewrite IH, <- app_assoc. do 3 f_equal. lia.
Qed.

(** The entries of one shell. *)
Lemma significantEntries_shell (s : Shell.t R) x y z offset :
  (∀ v, evaluate s x y z = Some v → Z.of_nat (length v) = Shell.nBasis s) →
  (significantEntries evaluate [s] x y z offset).*1
  = match evaluate s x y z with
    | Some _ => seqZ offset (Shell.nBasis s)
    | None => []
    end ∧
  (significantEntries evaluate [s] x y z offset).*2
  = match evaluate s x y z with Some v => v | None => [] end.
Proof.
  intros Hev. simpl. rewrite app_nil_r.
  destruct (evaluate s x y z) as [v|]; [|done].
  specialize (Hev v eq_refl).
  split; [apply fst_zip | apply snd_zip]; rewrite length_seqZ; lia.
Qed.

Lemma significantEntries_indices l x y z offset :
  StronglySorted Z.lt (significantEntries evaluate l x y z offset).*1 ∧
  Forall (fun g => offset ≤ g < offset + basisTotal l)
         (significantEntries evaluate l x y z offset).*1.
Proof.
  revert offset. induction l as [|s l IH]; intros offset; simpl.
  - split; constructor.
  - destruct (IH (offset + Shell.nBasis s)) as [Hsorted Hrange].
    pose proof (shell_nBasis_range s) as Hnb. pose proof (basisTotal_nonneg l) as Hl.
    assert (Forall (fun g => offset + Shell.nBasis s ≤ g)
                   (significantEntries evaluate l x y z (offset + Shell.nBasis s)).*1)
      as Hlow by (eapply Forall_impl; [exact Hrange|]; simpl; lia).
    assert (Forall (fun g => offset ≤ g < offset + (Shell.nBasis s + basisTotal l))
                   (significantEntries evaluate l x y z (offset + Shell.nBasis s)).*1)
      as Hrange' by (eapply Forall_impl; [exact Hrange|]; simpl; lia).
    destruct (evaluate s x y z) as [v|]; [|done].
    rewrite fmap_app. revert Hsorted Hlow Hrange'.
    generalize (significantEntries evaluate l x y z (offset + Shell.nBasis s)).*1.
    intros rest Hsorted Hlow Hrange'.
    assert (Forall (fun g => offset ≤ g < offset + Shell.nBasis s)
                   (zip (seqZ offset (Shell.nBasis s)) v).*1) as Hhead.
    { apply Forall_forall. intros g Hg.
      apply list_elem_of_fmap in Hg as ([g' r] & -> & Hin).
      apply elem_of_zip_l in Hin. apply elem_of_seqZ in Hin. simpl. lia. }
    assert (StronglySorted Z.lt (zip (seqZ offset (Shell.nBasis s)) v).*1) as Hs.
    { clear Hhead. generalize (Shell.nBasis s). clear. intros n.
      unfold seqZ. generalize (Z.to_nat n). clear n. intros n.
      revert offset v. generalize 0%nat.
      induction n as [|n IH]; intros start offset v; simpl; [constructor|].
      destruct v as [|r v]; simpl; [constructor|].
      constructor; [apply IH|].
      apply Forall_forall. intros g Hg.
      apply list_elem_of_fmap in Hg as ([g' r'] & -> & Hin).
      apply elem_of_zip_l in Hin. apply list_elem_of_fmap in Hin as (j & -> & Hj).
      apply elem_of_seq in Hj. simpl. lia. }
    split.
    + clear Hrange'. induction Hs as [|g gs Hgs IHs Hall]; simpl; [done|].
      inversion Hhead as [|? ? Hg Hrest]; subst.
      constructor; [by apply IHs|].
      apply Forall_app. split; [done|].
      eapply Forall_impl; [exact Hlow|]. simpl. lia.
    + apply Forall_app. split; [|done].
      eapply Forall_impl; [exact Hhead|]. simpl. lia.
Qed.

Lemma length_significantEntries l x y z offset :
  evaluateWellFormed evaluate l x y z →
  0 ≤ Z.of_nat (length (significantEntries evaluate l x y z offset)) ≤ basisTotal l.
Proof.
  intros Hev. revert offset. induction Hev as [|s l Hs _ IH]; intros offset; simpl; [lia|].
  rewrite length_app. specialize (IH (offset + Shell.nBasis s)).
  destruct (evaluate s x y z) as [v|]; simpl.
  - rewrite length_zip, length_seqZ. specialize (Hs v eq_refl). lia.
  - pose proof (shell_nBasis_range s). lia.
Qed.

End SignificantEntries.

Section Scan.
Context {R : Type} `{Scalar R}.
Variable evaluate : Shell.t R → R → R → R → option (list R).
Implicit Types (sl : ShellList R) (l : list (Shell.t R)).

(** The inner loop over one significant shell: its values and global
    indices go into the next cells of the two buffers. *)
Lemma recordSignificant_loop (values doneB oldB : list R) (doneS oldS : list Z)
    (basoff : Z) :
  length doneS = length doneB →
  (length values ≤ length oldB)%nat →
  (length values ≤ length oldS)%nat →
  Z.of_nat (length doneB) + Z.of_nat (length values) < 2 ^ 32 →
  0 ≤ basoff → basoff + Z.of_nat (length values) < 2 ^ 32 →
  forUnsigned (Z.of_nat (length values)) (recordSignificant values)
    (doneB ++ oldB, doneS ++ oldS, Z.of_nat (length doneB), basoff)
  = Some (doneB ++ values ++ drop (length values) oldB,
          doneS ++ seqZ basoff (Z.of_nat (length values))
                ++ drop (length values) oldS,
          Z.of_nat (length doneB) + Z.of_nat (length values),
          basoff + Z.of_nat (length values)).
Proof.
  intros Hdone HoldB HoldS Hfit Hoff Hfit'.
  destruct (forUnsigned_inv
              (fun k (st : ScanState) =>
                 st = (doneB ++ take (Z.to_nat k) values ++ drop (Z.to_nat k) oldB,
                       doneS ++ seqZ basoff k ++ drop (Z.to_nat k) oldS,
                       Z.of_nat (length doneB) + k, basoff + k))
              (Z.of_nat (length values)) (recordSignificant values)
              (doneB ++ oldB, doneS ++ oldS, Z.of_nat (length doneB), basoff))
    as (st' & Hrun & Hfin).
  - lia.
  - simpl. by rewrite !Z.add_0_r.
  - intros k st Hk ->.
    destruct (lookup_lt_is_Some_2 values (Z.to_nat k)) as [v Hv]; [lia|].
    destruct (lookup_lt_is_Some_2 oldB (Z.to_nat k)) as [ob Hob]; [lia|].
    destruct (lookup_lt_is_Some_2 oldS (Z.to_nat k)) as [os Hos]; [lia|].
    eexists. split; [|reflexivity].
    unfold recordSignificant.
    rewrite load_lookup, Hv by lia. simpl.
    replace (Z.of_nat (length doneB) + k)
      with (Z.of_nat (length doneB + Z.to_nat k)) by lia.
    rewrite store_Some.
    2:{ rewrite !length_app, ?length_take, ?length_seqZ, length_drop. lia. }
    simpl. rewrite store_Some.
    2:{ rewrite !length_app, ?length_take, ?length_seqZ, length_drop. lia. }
    simpl. rewrite insert_next with (o := ob); [|rewrite length_take; lia|done].
    rewrite <- Hdone.
    rewrite insert_next with (o := os); [|rewrite length_seqZ; lia|done].
    rewrite <- (take_S_r _ _ _ Hv).
    replace (Z.to_nat (k + 1)) with (S (Z.to_nat k)) by lia.
    assert (seqZ basoff (k + 1) = seqZ basoff k ++ [basoff + k]) as ->.
    { replace (k + 1) with (Z.of_nat (S (Z.to_nat k))) by lia.
      rewrite seqZ_S. by rewrite Z2Nat.id by lia. }
    rewrite !wrap_small by lia. do 2 f_equal; [f_equal|]; lia.
  - rewrite Hrun, Hfin. rewrite Nat2Z.id. by rewrite firstn_all.
Qed.

Lemma scanStep_scanned (bv0 : list R) (sb0 : list Z) pre (a : Shell.t R) post x y z :
  basisTotal (pre ++ a :: post) < 2 ^ 32 →
  Z.of_nat (length bv0) = basisTotal (pre ++ a :: post) →
  Z.of_nat (length sb0) = basisTotal (pre ++ a :: post) →
  evaluateWellFormed evaluate (pre ++ a :: post) x y z →
  scanStep evaluate x y z a (scanned evaluate bv0 sb0 pre x y z)
  = Some (scanned evaluate bv0 sb0 (pre ++ [a]) x y z).
Proof.
  intros Hfit Hbv Hsb Hev. apply Forall_app in Hev as [Hpre Hrest].
  inversion Hrest as [|? ? Ha Hpost]; subst.
  rewrite basisTotal_app in Hfit, Hbv, Hsb. simpl in Hfit, Hbv, Hsb.
  pose proof (basisTotal_nonneg pre). pose proof (basisTotal_nonneg post).
  pose proof (shell_nBasis_range a) as Hnb.
  pose proof (length_significantEntries evaluate pre x y z 0 Hpre) as Hle.
  destruct (significantEntries_shell evaluate a x y z (0 + basisTotal pre) Ha)
    as [Hfst Hsnd].
  unfold scanned, scanStep.
  rewrite significantEntries_app, !fmap_app, length_app, basisTotal_app.
  simpl basisTotal. rewrite Z.add_0_r.
  rewrite Hfst, Hsnd. simpl significantEntries. rewrite app_nil_r.
  set (E := significantEntries evaluate pre x y z 0) in *.
  destruct (evaluate a x y z) as [v|].
  - specialize (Ha v eq_refl).
    rewrite length_zip, length_seqZ.
    replace (Z.to_nat (Shell.nBasis a) `min` length v)%nat with (length v) by lia.
    pose proof (recordSignificant_loop v E.*2 (drop (length E) bv0)
                  E.*1 (drop (length E) sb0) (basisTotal pre)) as Hloop.
    rewrite !length_fmap, !length_drop, Ha in Hloop.
    rewrite Hloop by lia.
    rewrite !drop_drop, <- !app_assoc, Nat2Z.inj_add, Ha. by rewrite Z.add_0_l.
  - simpl. rewrite !app_nil_r, Nat.add_0_r. by rewrite wrap_small by lia.
Qed.

Lemma significanceScan_run sl (sb : list Z) x y z :
  basisTotal (shells sl) < 2 ^ 32 →
  length (m_basisValues sl) = Z.to_nat (nBasis sl) →
  length sb = Z.to_nat (nBasis sl) →
  evaluateWellFormed evaluate (shells sl) x y z →
  significanceScan evaluate sl sb x y z
  = Some (scanned evaluate (m_basisValues sl) sb (shells sl) x y z).
Proof.
  intros Hfit Hbv Hsb Hev. rewrite nBasis_exact in Hbv, Hsb by done.
  pose proof (basisTotal_nonneg (shells sl)).
  destruct (forEach_inv
              (fun pre st => st = scanned evaluate (m_basisValues sl) sb pre x y z)
              (shells sl) (scanStep evaluate x y z) (m_basisValues sl, sb, 0, 0))
    as (st' & Hrun & Hfin).
  - done.
  - intros pre a post st Hl ->. eexists. split; [|reflexivity].
    apply scanStep_scanned with (post := post); rewrite <- Hl; [done | lia | lia | done].
  - unfold significanceScan. by rewrite Hrun, Hfin.
Qed.

End Scan.

(** ** Packed-triangle offsets *)

Lemma wrap_le z : 0 ≤ z → wrap z ≤ z.
Proof. intros. unfold wrap, wrapw, UINT_BITS. apply Z.mod_le; lia. Qed.

Lemma triangular_succ n : triangular (n + 1) = triangular n + n + 1.
Proof.
  unfold triangular.
  replace ((n + 1) * (n + 1 + 1)) with (n * (n + 1) + (n + 1) * 2) by lia.
  rewrite Z.div_add by lia. lia.
Qed.

Lemma triangular_mono m n : 0 ≤ m ≤ n → triangular m ≤ triangular n.
Proof. intros. unfold triangular. apply Z.div_le_mono; [lia|nia]. Qed.

Lemma triangular_nonneg n : 0 ≤ n → 0 ≤ triangular n.
Proof. intros. unfold triangular. apply Z.div_pos; nia. Qed.

(** The offset the code computes for row [ii] and column [jj <= ii], wrapped
    or not, lies inside a packed triangle of dimension [n > ii]. *)
Lemma packed_offset_bound n ii jj :
  0 ≤ jj ≤ ii → ii < n →
  0 ≤ wrap (wrap (ii * wrap (ii + 1)) / 2 + jj) < triangular n.
Proof.
  intros Hj Hi.
  pose proof (wrap_range (ii + 1)) as Ha. pose proof (wrap_le (ii + 1) ltac:(lia)) as Ha'.
  pose proof (wrap_range (ii * wrap (ii + 1))) as Hp.
  pose proof (wrap_le (ii * wrap (ii + 1)) ltac:(nia)) as Hp'.
  assert (0 ≤ wrap (ii * wrap (ii + 1)) / 2 ≤ triangular ii) as Hhalf.
  { split; [apply Z.div_pos; lia|]. unfold triangular. apply Z.div_le_mono; [lia|nia]. }
  pose proof (wrap_range (wrap (ii * wrap (ii + 1)) / 2 + jj)) as Hw.
  pose proof (wrap_le (wrap (ii * wrap (ii + 1)) / 2 + jj) ltac:(lia)) as Hw'.
  pose proof (triangular_succ ii) as Hs.
  pose proof (triangular_mono (ii + 1) n ltac:(lia)) as Hm.
  lia.
Qed.

(** Without overflow the offset is the integer [ii*(ii+1)/2 + jj]. *)
Lemma packed_offset_exact n ii jj :
  n * (n + 1) < 2 ^ 32 → 0 ≤ jj ≤ ii → ii < n →
  wrap (wrap (ii * wrap (ii + 1)) / 2 + jj) = triangular ii + jj.
Proof.
  intros Hn Hj Hi.
  rewrite (wrap_small (ii + 1)) by nia.
  rewrite (wrap_small (ii * (ii + 1))) by nia.
  fold (triangular ii).
  pose proof (triangular_succ ii) as Hs.
  pose proof (triangular_mono (ii + 1) n ltac:(lia)) as Hm.
  pose proof (triangular_nonneg ii ltac:(lia)).
  assert (triangular n ≤ n * (n + 1)).
  { unfold triangular. apply Z.div_le_upper_bound; nia. }
  apply wrap_small. lia.
Qed.

Lemma StronglySorted_lookup_le (l : list Z) i j a b :
  StronglySorted Z.lt l → l !! i = Some a → l !! j = Some b → (j ≤ i)%nat → b ≤ a.
Proof.
  intros Hs. revert i j. induction Hs as [|c l Hs IH Hall]; intros i j Hi Hj Hle.
  - done.
  - destruct j as [|j], i as [|i]; simpl in *; simplify_eq; [lia | | lia | ].
    + rewrite Forall_forall in Hall. apply list_elem_of_lookup_2 in Hi.
      specialize (Hall _ Hi). lia.
    + eapply IH; [done.. | lia].
Qed.

Section ScanBounds.
Context {R : Type} `{Scalar R}.
Variable evaluate : Shell.t R → R → R → R → option (list R).
Implicit Types (sl : ShellList R) (l : list (Shell.t R)).

(** C10.  With the buffers sized by [resize], the significance scan of
    [densityValues] completes with every write inside the allocations: the
    two buffers keep their [nBasis] cells, the first [nSigBas <= nBasis]
    cells of the significant-index buffer hold a strictly increasing
    sequence of global basis indices below [nBasis], and every
    packed-triangle offset [Ti+jj] read afterwards (with [jj <= ii]) is below
    the integer [nBasis*(nBasis+1)/2], which is also the unsigned value when
    the product does not overflow. *)
Theorem significanceScan_in_bounds sl (sb : list Z) x y z
    (Hfit : basisTotal (shells sl) < 2 ^ 32)
    (Hbv : length (m_basisValues sl) = Z.to_nat (nBasis sl))
    (Hsb : length sb = Z.to_nat (nBasis sl))
    (Hev : evaluateWellFormed evaluate (shells sl) x y z) :
  ∃ bv' sb' nSigBas basoff,
    significanceScan evaluate sl sb x y z = Some (bv', sb', nSigBas, basoff) ∧
    length bv' = Z.to_nat (nBasis sl) ∧
    length sb' = Z.to_nat (nBasis sl) ∧
    0 ≤ nSigBas ≤ nBasis sl ∧
    basoff = nBasis sl ∧
    StronglySorted Z.lt (take (Z.to_nat nSigBas) sb') ∧
    Forall (fun g => 0 ≤ g < nBasis sl) (take (Z.to_nat nSigBas) sb') ∧
    (∀ i j ii jj,
       0 ≤ j ≤ i → i < nSigBas →
       load sb' i = Some ii → load sb' j = Some jj →
       0 ≤ jj ≤ ii ∧ ii < nBasis sl ∧
       0 ≤ wrap (wrap (ii * wrap (ii + 1)) / 2 + jj) < triangular (nBasis sl) ∧
       (nBasis sl * (nBasis sl + 1) < 2 ^ 32 →
        wrap (wrap (ii * wrap (ii + 1)) / 2 + jj) < triangularSize (nBasis sl))).
Proof.
  pose proof (significanceScan_run evaluate sl sb x y z Hfit Hbv Hsb Hev) as Hrun.
  pose proof (length_significantEntries evaluate (shells sl) x y z 0 Hev) as Hlen.
  destruct (significantEntries_indices evaluate (shells sl) x y z 0) as [Hsorted Hrange].
  rewrite nBasis_exact in * by done.
  unfold scanned in Hrun.
  set (E := significantEntries evaluate (shells sl) x y z 0) in *.
  assert (take (Z.to_nat (Z.of_nat (length E))) (E.*1 ++ drop (length E) sb) = E.*1)
    as Htake by (rewrite Nat2Z.id, take_app_length'; [done | by rewrite length_fmap]).
  eexists _, _, _, _. split; [exact Hrun|].
  split; [rewrite length_app, length_fmap, length_drop; lia|].
  split; [rewrite length_app, length_fmap, length_drop; lia|].
  split; [lia|]. split; [done|].
  rewrite Htake. split; [done|]. split; [done|].
  intros i j ii jj Hj Hi Hii Hjj.
  rewrite load_lookup in Hii, Hjj by lia.
  rewrite lookup_app_l in Hii, Hjj by (rewrite length_fmap; lia).
  pose proof (StronglySorted_lookup_le _ _ _ _ _ Hsorted Hii Hjj ltac:(lia)) as Hle.
  rewrite Forall_forall in Hrange.
  pose proof (Hrange _ (list_elem_of_lookup_2 _ _ _ Hii)) as Hri.
  pose proof (Hrange _ (list_elem_of_lookup_2 _ _ _ Hjj)) as Hrj.
  simpl in Hri, Hrj.
  pose proof (packed_offset_bound (basisTotal (shells sl)) ii jj
                ltac:(lia) ltac:(lia)) as Hbound.
  split; [lia|]. split; [lia|]. split; [exact Hbound|].
  intros Hno. rewrite triangularSize_exact by lia. apply Hbound.
Qed.

End ScanBounds.

(** At [(1,0,0)] the significant basis functions of the sample container are
    those of the [S] shell (index 0) and of the [D5] shell (indices 4..8). *)
Lemma significanceScan_in_bounds_witness :
  ∃ bv' sb' nSigBas basoff,
    significanceScan sampleEvaluate sampleContainer (replicate 9 0) 1 0 0
    = Some (bv', sb', nSigBas, basoff) ∧
    length sb' = 9%nat ∧ 0 ≤ nSigBas ≤ 9 ∧
    StronglySorted Z.lt (take (Z.to_nat nSigBas) sb').
Proof.
  destruct (significanceScan_in_bounds sampleEvaluate sampleContainer
              (replicate 9 0) 1 0 0
              ltac:(vm_compute; reflexivity) ltac:(reflexivity) ltac:(reflexivity)
              (sampleContainer_evaluate 1 0 0))
    as (bv' & sb' & nSigBas & basoff & Hrun & _ & Hlen & Hn & _ & Hsorted & _).
  exists bv', sb', nSigBas, basoff. repeat split; first [done | apply Hn].
Defined.

(** ** [densityValues] *)

Lemma store_Some_Z {A} (buf : list A) (i : Z) (v : A) :
  0 ≤ i → (Z.to_nat i < length buf)%nat →
  store buf i v = Some (<[Z.to_nat i := v]> buf).
Proof. intros. unfold store. by destruct (decide _) as [|[]]. Qed.

Section DensityLoops.
Context {R : Type} `{Scalar R}.

Lemma zeroEntry_loop (dv : list R) :
  Z.of_nat (length dv) < 2 ^ 32 →
  forUnsigned (Z.of_nat (length dv)) zeroEntry dv
  = Some (replicate (length dv) s0).
Proof.
  intros Hfit.
  destruct (forUnsigned_inv
              (fun k st => st = replicate (Z.to_nat k) s0 ++ drop (Z.to_nat k) dv)
              (Z.of_nat (length dv)) zeroEntry dv)
    as (st' & Hrun & Hfin).
  - lia.
  - done.
  - intros k st Hk ->.
    destruct (lookup_lt_is_Some_2 dv (Z.to_nat k)) as [o Ho]; [lia|].
    eexists. split; [|reflexivity]. unfold zeroEntry.
    rewrite store_Some_Z;
      [|lia|rewrite length_app, length_replicate, length_drop; lia].
    f_equal. rewrite (drop_S _ _ _ Ho).
    replace (Z.to_nat k) with (length (replicate (Z.to_nat k) (s0 : R)) + 0)%nat
      at 1 by (rewrite length_replicate; lia).
    rewrite insert_app_r. simpl.
    replace (Z.to_nat (k + 1)) with (Z.to_nat k + 1)%nat by lia.
    rewrite replicate_add, <- app_assoc. simpl. by rewrite Nat.add_1_r.
  - rewrite Hrun, Hfin, Nat2Z.id, drop_all, app_nil_r. done.
Qed.

(** A loop that updates every output cell [k] from the [k]-th element of a
    list [l], where [get] reads what the update needs from that element. *)
Lemma pointwise_loop {A} (l : list A) (get : A → option R) (f : A → R)
    (c : R → R → R) (body : Z → list R → option (list R)) :
  (∀ k dv, body k dv
           = a ← load l k; d ← get a; old ← load dv k; store dv k (c old d)) →
  Forall (fun a => is_Some (get a)) l →
  forUnsigned (Z.of_nat (length l)) body (f <$> l)
  = Some ((fun a => c (f a) (default s0 (get a))) <$> l).
Proof.
  intros Hbody Hget.
  destruct (forUnsigned_inv
              (fun k st =>
                 st = ((fun a => c (f a) (default s0 (get a))) <$> take (Z.to_nat k) l)
                        ++ (f <$> drop (Z.to_nat k) l))
              (Z.of_nat (length l)) body (f <$> l))
    as (st' & Hrun & Hfin).
  - lia.
  - done.
  - intros k st Hk ->.
    destruct (lookup_lt_is_Some_2 l (Z.to_nat k)) as [a Ha]; [lia|].
    rewrite Forall_forall in Hget.
    destruct (Hget a (list_elem_of_lookup_2 _ _ _ Ha)) as [d Hd].
    eexists. split; [|reflexivity]. rewrite Hbody.
    rewrite (load_lookup l k), Ha by lia. simpl. rewrite Hd. simpl.
    rewrite (drop_S _ _ _ Ha). rewrite fmap_cons.
    assert (length ((fun a => c (f a) (default s0 (get a))) <$> take (Z.to_nat k) l)
            = Z.to_nat k) as Hlen by (rewrite length_fmap, length_take; lia).
    rewrite load_lookup by lia.
    rewrite list_lookup_middle by done. simpl.
    rewrite store_Some_Z; [|lia|rewrite length_app, Hlen; simpl; lia].
    f_equal.
    replace (Z.to_nat k) with
      (length ((fun a => c (f a) (default s0 (get a))) <$> take (Z.to_nat k) l) + 0)%nat
      at 1 by lia.
    rewrite insert_app_r. simpl.
    replace (Z.to_nat (k + 1)) with (S (Z.to_nat k)) by lia.
    rewrite (take_S_r _ _ _ Ha), fmap_app, <- app_assoc. simpl.
    by rewrite Hd.
  - rewrite Hrun, Hfin, Nat2Z.id, firstn_all, drop_all. simpl. by rewrite app_nil_r.
Qed.

Lemma load_is_Some {A} (buf : list A) (i : Z) :
  0 ≤ i < Z.of_nat (length buf) → is_Some (load buf i).
Proof. intros. rewrite load_lookup by lia. apply lookup_lt_is_Some_2. lia. Qed.

(** The innermost loops of [densityValues]: every output cell [k] is updated
    from the matrix [k] at one offset. *)
Lemma accumulate_loop (dens : list (list R)) (f : list R → R) (idx : Z)
    (c : R → R → R) (body : Z → list R → option (list R)) :
  (∀ k dv, body k dv
           = D ← load dens k; d ← load D idx; old ← load dv k;
             store dv k (c old d)) →
  Forall (fun D => 0 ≤ idx < Z.of_nat (length D)) dens →
  forUnsigned (Z.of_nat (length dens)) body (f <$> dens)
  = Some ((fun D => c (f D) (valueAt D idx)) <$> dens).
Proof.
  intros Hbody Hidx.
  apply (pointwise_loop dens (fun D => load D idx) f c body Hbody).
  eapply Forall_impl; [exact Hidx|]. intros D. apply load_is_Some.
Qed.

End DensityLoops.

Section DensityRows.
Context {R : Type} `{Scalar R}.

Lemma densityRows_snoc (D : list R) (prev todo : list (Z * R)) (e : Z * R) acc :
  densityRows D prev (todo ++ [e]) acc
  = rowValue D (prev ++ todo) e (densityRows D prev todo acc).
Proof.
  revert prev acc. induction todo as [|e' todo IH]; intros prev acc; simpl.
  - by rewrite app_nil_r.
  - rewrite IH. by rewrite <- app_assoc.
Qed.

Lemma fmap_replicate_const {A} (l : list A) (c : R) :
  (fun _ => c) <$> l = replicate (length l) c.
Proof. induction l as [|a l IH]; simpl; [done|]. by rewrite <- IH. Qed.

(** The buffers after the scan: the significant entries [E], whose indices
    are increasing and below [n], sit at the front of [bv] and [sb]. *)
Variables (dens : list (list R)) (E : list (Z * R)) (restB : list R)
          (restS : list Z) (n : Z).
Hypothesis Hsorted : StronglySorted Z.lt E.*1.
Hypothesis Hrange : Forall (fun g => 0 ≤ g < n) E.*1.
Hypothesis Hfit : n * (n + 1) < 2 ^ 32.
Hypothesis Hdens : Forall (fun D => triangular n ≤ Z.of_nat (length D)) dens.
Hypothesis Hnden : Z.of_nat (length dens) < 2 ^ 32.

Let bv := E.*2 ++ restB.
Let sb := E.*1 ++ restS.
Let nden := usize dens.

Lemma nden_eq : nden = Z.of_nat (length dens).
Proof. unfold nden, usize. apply wrap_small. lia. Qed.

Lemma load_significant i ii xi :
  E !! i = Some (ii, xi) →
  load bv (Z.of_nat i) = Some xi ∧ load sb (Z.of_nat i) = Some ii.
Proof.
  intros Hi. unfold bv, sb. split; apply load_Some.
  - rewrite lookup_app_l by (rewrite length_fmap; by eapply lookup_lt_Some).
    by rewrite list_lookup_fmap, Hi.
  - rewrite lookup_app_l by (rewrite length_fmap; by eapply lookup_lt_Some).
    by rewrite list_lookup_fmap, Hi.
Qed.

Lemma significant_offset i j ii xi jj xj :
  E !! i = Some (ii, xi) → E !! j = Some (jj, xj) → (j ≤ i)%nat →
  wrap (wrap (ii * wrap (ii + 1)) / 2 + jj) = triangular ii + jj ∧
  Forall (fun D => 0 ≤ triangular ii + jj < Z.of_nat (length D)) dens.
Proof.
  intros Hi Hj Hle.
  assert (E.*1 !! i = Some ii) as Hi' by (by rewrite list_lookup_fmap, Hi).
  assert (E.*1 !! j = Some jj) as Hj' by (by rewrite list_lookup_fmap, Hj).
  pose proof (StronglySorted_lookup_le _ _ _ _ _ Hsorted Hi' Hj' Hle) as Hji.
  rewrite Forall_forall in Hrange.
  pose proof (Hrange _ (list_elem_of_lookup_2 _ _ _ Hi')) as Hri.
  pose proof (Hrange _ (list_elem_of_lookup_2 _ _ _ Hj')) as Hrj.
  simpl in Hri, Hrj.
  pose proof (packed_offset_exact n ii jj Hfit ltac:(lia) ltac:(lia)) as Hex.
  pose proof (packed_offset_bound n ii jj ltac:(lia) ltac:(lia)) as Hb.
  split; [done|]. rewrite Hex in Hb.
  eapply Forall_impl; [exact Hdens|]. simpl. lia.
Qed.

(** The loop over [j < i] of row [i]. *)
Lemma pairStep_loop (f : list R → R) i ii xi :
  E !! i = Some (ii, xi) →
  forUnsigned (Z.of_nat i)
    (pairStep dens bv sb nden xi (wrap (ii * wrap (ii + 1)) / 2)) (f <$> dens)
  = Some ((fun D => fold_left (offDiagonalTerm D ii xi) (take i E) (f D)) <$> dens).
Proof.
  intros Hi.
  destruct (forUnsigned_inv
              (fun j st =>
                 st = (fun D => fold_left (offDiagonalTerm D ii xi)
                                  (take (Z.to_nat j) E) (f D)) <$> dens)
              (Z.of_nat i)
              (pairStep dens bv sb nden xi (wrap (ii * wrap (ii + 1)) / 2))
              (f <$> dens))
    as (st' & Hrun & Hfin).
  - lia.
  - done.
  - intros j st Hj ->.
    pose proof (lookup_lt_Some _ _ _ Hi) as Hilen.
    destruct (lookup_lt_is_Some_2 E (Z.to_nat j)) as [[jj xj] Hej]; [lia|].
    destruct (load_significant _ _ _ Hej) as [Hxj Hjj].
    rewrite Z2Nat.id in Hxj, Hjj by lia.
    destruct (significant_offset _ _ _ _ _ _ Hi Hej ltac:(lia)) as [Hoff Hin].
    eexists. split; [|reflexivity].
    unfold pairStep. rewrite Hxj. simpl. rewrite Hjj. simpl.
    rewrite nden_eq.
    rewrite (accumulate_loop dens _ (wrap (wrap (ii * wrap (ii + 1)) / 2 + jj))
               (fun old d => sadd old (smul (smul s2 (smul (smul s2 xi) xj)) d)));
      [|done|by rewrite Hoff].
    f_equal. apply list_fmap_ext. intros _ D _.
    replace (Z.to_nat (j + 1)) with (S (Z.to_nat j)) by lia.
    rewrite (take_S_r _ _ _ Hej), fold_left_app. simpl.
    unfold offDiagonalTerm at 2. simpl. by rewrite Hoff.
  - rewrite Hrun, Hfin. by rewrite Nat2Z.id.
Qed.

(** One row: the off-diagonal terms, then the diagonal term. *)
Lemma rowStep_row (f : list R → R) i ii xi :
  E !! i = Some (ii, xi) →
  rowStep dens bv sb nden (Z.of_nat i) (f <$> dens)
  = Some ((fun D => rowValue D (take i E) (ii, xi) (f D)) <$> dens).
Proof.
  intros Hi. destruct (load_significant _ _ _ Hi) as [Hxi Hii].
  destruct (significant_offset _ _ _ _ _ _ Hi Hi ltac:(lia)) as [Hoff Hin].
  unfold rowStep. rewrite Hxi. simpl. rewrite Hii. simpl.
  rewrite pairStep_loop by done. simpl. rewrite nden_eq.
  rewrite (accumulate_loop dens _ (wrap (wrap (ii * wrap (ii + 1)) / 2 + ii))
             (fun old d => sadd old (smul (smul xi xi) d)));
    [|done|by rewrite Hoff].
  f_equal. apply list_fmap_ext. intros _ D _.
  unfold rowValue. simpl. by rewrite Hoff.
Qed.

(** The loop over the significant entries. *)
Lemma rowStep_loop :
  forUnsigned (Z.of_nat (length E)) (rowStep dens bv sb nden)
    (replicate (length dens) s0)
  = Some ((fun D => quadraticForm D E) <$> dens).
Proof.
  destruct (forUnsigned_inv
              (fun i st =>
                 st = (fun D => densityRows D [] (take (Z.to_nat i) E) s0) <$> dens)
              (Z.of_nat (length E)) (rowStep dens bv sb nden)
              (replicate (length dens) s0))
    as (st' & Hrun & Hfin).
  - lia.
  - simpl. by rewrite fmap_replicate_const.
  - intros i st Hi ->.
    destruct (lookup_lt_is_Some_2 E (Z.to_nat i)) as [[ii xi] Hei]; [lia|].
    eexists. split; [|reflexivity].
    rewrite <- (Z2Nat.id i) at 1 by lia.
    rewrite (rowStep_row _ _ _ _ Hei).
    f_equal. apply list_fmap_ext. intros _ D _.
    replace (Z.to_nat (i + 1)) with (S (Z.to_nat i)) by lia.
    by rewrite (take_S_r _ _ _ Hei), densityRows_snoc.
  - rewrite Hrun, Hfin. by rewrite Nat2Z.id, firstn_all.
Qed.

End DensityRows.

Section DensityValues.
Context {R : Type} `{Scalar R}.
Variable evaluate : Shell.t R → R → R → R → option (list R).
Implicit Types (sl : ShellList R) (l : list (Shell.t R)).

(** C1.  With the buffers sized by [resize] and each bound matrix holding a
    packed triangle of dimension [nBasis], [densityValues(x,y,z)] returns,
    for each matrix [D], the quadratic form restricted to the significant
    entries: starting from zero, for each significant entry [i] (global
    index [ii], [Ti = ii*(ii+1)/2]) it adds [2*(2*x_i*x_j)*D[Ti+jj]] for
    every significant [j < i] and then [x_i*x_i*D[Ti+ii]].  A shell that
    evaluates null contributes no entry and advances the global index of
    the shells after it by its basis-function count. *)
Theorem densityValues_quadratic_form sl x y z
    (Hfit : basisTotal (shells sl) * (basisTotal (shells sl) + 1) < 2 ^ 32)
    (Hsized : buffersSized sl)
    (Hev : evaluateWellFormed evaluate (shells sl) x y z)
    (Hdens : Forall (fun D => triangular (nBasis sl) ≤ Z.of_nat (length D))
                    (m_densityVectors sl))
    (Hdv : length (m_densityValues sl) = length (m_densityVectors sl))
    (Hnden : Z.of_nat (length (m_densityVectors sl)) < 2 ^ 32) :
  let entries := significantEntries evaluate (shells sl) x y z 0 in
  (∃ sl',
     densityValues evaluate sl x y z
     = Some (sl', (fun D => quadraticForm D entries) <$> m_densityVectors sl) ∧
     shells sl' = shells sl ∧
     m_densityVectors sl' = m_densityVectors sl ∧
     m_densityValues sl'
     = (fun D => quadraticForm D entries) <$> m_densityVectors sl) ∧
  (∀ pre s post,
     shells sl = pre ++ s :: post → evaluate s x y z = None →
     entries
     = significantEntries evaluate pre x y z 0
       ++ significantEntries evaluate post x y z (basisTotal pre + Shell.nBasis s)).
Proof.
  intros entries. destruct Hsized as (Hbv & sb & Hsb & Hsblen).
  pose proof (basisTotal_nonneg (shells sl)) as Hn0.
  assert (basisTotal (shells sl) < 2 ^ 32) as Hfit' by nia.
  split.
  - pose proof (significanceScan_run evaluate sl sb x y z Hfit' Hbv Hsblen Hev)
      as Hscan.
    destruct (significantEntries_indices evaluate (shells sl) x y z 0)
      as [Hsorted Hrange].
    rewrite nBasis_exact in Hdens by done.
    eexists. unfold densityValues. rewrite Hsb. simpl.
    rewrite Hscan. unfold scanned. simpl.
    assert (usize (m_densityVectors sl) = Z.of_nat (length (m_densityValues sl)))
      as -> by (unfold usize; rewrite Hdv; apply wrap_small; lia).
    rewrite zeroEntry_loop by lia. simpl. rewrite Hdv.
    fold entries.
    rewrite <- Hdv at 1. rewrite Hdv.
    replace (Z.of_nat (length (m_densityVectors sl)))
      with (usize (m_densityVectors sl))
      by (unfold usize; apply wrap_small; lia).
    rewrite (rowStep_loop (m_densityVectors sl) entries _ _ (basisTotal (shells sl)));
      [| done | | done | done | done].
    + simpl. done.
    + eapply Forall_impl; [exact Hrange|]. simpl. lia.
  - intros pre s post Hl Hnull. unfold entries. rewrite Hl.
    rewrite significantEntries_app. simpl. rewrite Hnull. simpl.
    by rewrite Z.add_0_l.
Qed.

End DensityValues.

(** At [(1,0,0)] the sample container has the significant entries
    (0,1), (4,1), (5,2), (6,3), (7,4), (8,5); for the all-ones matrix the
    form is [2*16^2 - 56 = 456]. *)
Lemma densityValues_quadratic_form_witness :
  ∃ sl', densityValues sampleEvaluate sampleDensity 1 0 0
         = Some (sl', [16709; 456]).
Proof.
  destruct (densityValues_quadratic_form sampleEvaluate sampleDensity 1 0 0
              ltac:(vm_compute; reflexivity)
              ltac:(split; [reflexivity | eexists; split; reflexivity])
              (sampleContainer_evaluate 1 0 0)
              ltac:(repeat constructor; vm_compute; discriminate)
              ltac:(reflexivity)
              ltac:(vm_compute; reflexivity))
    as [(sl' & Hrun & _) _].
  exists sl'. exact Hrun.
Defined.

(** ** [orbitalValues] *)

Section OrbitalLoops.
Context {R : Type} `{Scalar R}.
Variable evaluate : Shell.t R → R → R → R → option (list R).
Variables (C : Matrix R) (indices : list Z) (n : Z).
Hypothesis Hrows : rowsAvailable C indices n.
Hypothesis Hn : n < 2 ^ 32.
Hypothesis Hnorb : Z.of_nat (length indices) < 2 ^ 32.

Let norb := usize indices.

Lemma norb_eq : norb = Z.of_nat (length indices).
Proof. unfold norb, usize. apply wrap_small. lia. Qed.

Lemma matrixAt_available index col :
  index ∈ indices → 0 ≤ col < n →
  ∃ c, matrixAt C index col = Some c ∧ valueAt (coefficientRow C index) col = c.
Proof.
  intros Hin Hcol. unfold rowsAvailable in Hrows. rewrite Forall_forall in Hrows.
  destruct (Hrows index Hin) as (row & Hrow & Hlen).
  destruct (load_is_Some row col ltac:(lia)) as [c Hc].
  exists c. unfold matrixAt, coefficientRow, valueAt. rewrite Hrow. simpl.
  by rewrite Hc.
Qed.

(** The loop over the requested orbitals for one basis function. *)
Lemma projectOrbital_loop (values : list R) (basoff i : Z) (v : R) (f : Z → R) :
  load values i = Some v → 0 ≤ basoff + i < n →
  forUnsigned norb (projectOrbital (Some C) indices values basoff i) (f <$> indices)
  = Some ((fun index => orbitalTerm (coefficientRow C index) (f index)
                          (basoff + i, v)) <$> indices).
Proof.
  intros Hv Hcol. rewrite norb_eq.
  rewrite (pointwise_loop indices
             (fun index => matrixAt C index (wrap (basoff + i))) f
             (fun old c => sadd old (smul c v))).
  - f_equal. apply list_fmap_ext. intros k index Hk.
    destruct (matrixAt_available index (basoff + i)) as (c & Hc & Hval);
      [by eapply list_elem_of_lookup_2 | done |].
    rewrite wrap_small by lia. rewrite Hc. unfold orbitalTerm. simpl.
    by rewrite Hval.
  - intros k ov. unfold projectOrbital. simpl.
    destruct (load indices k) as [index|]; [|done]. simpl.
    destruct (matrixAt C index (wrap (basoff + i))) as [c|]; [|done]. simpl.
    by rewrite Hv.
  - apply Forall_forall. intros index Hin. rewrite wrap_small by lia.
    destruct (matrixAt_available index (basoff + i)) as (c & Hc & _); [done..|].
    by rewrite Hc.
Qed.

(** The loop over the basis functions of one significant shell. *)
Lemma orbitalBasisStep_loop (values : list R) (basoff : Z) (f : Z → R) :
  0 ≤ basoff → basoff + Z.of_nat (length values) ≤ n →
  forUnsigned (Z.of_nat (length values))
    (orbitalBasisStep (Some C) indices norb values basoff) (f <$> indices)
  = Some ((fun index =>
             fold_left (orbitalTerm (coefficientRow C index))
               (zip (seqZ basoff (Z.of_nat (length values))) values) (f index))
          <$> indices).
Proof.
  intros Hoff Hlen.
  set (entries := zip (seqZ basoff (Z.of_nat (length values))) values).
  destruct (forUnsigned_inv
              (fun i st =>
                 st = (fun index =>
                         fold_left (orbitalTerm (coefficientRow C index))
                           (take (Z.to_nat i) entries) (f index)) <$> indices)
              (Z.of_nat (length values))
              (orbitalBasisStep (Some C) indices norb values basoff)
              (f <$> indices))
    as (st' & Hrun & Hfin).
  - lia.
  - done.
  - intros i st Hi ->.
    destruct (lookup_lt_is_Some_2 values (Z.to_nat i)) as [v Hv]; [lia|].
    assert (entries !! Z.to_nat i = Some (basoff + i, v)) as He.
    { apply lookup_zip_Some. split; [|done].
      rewrite lookup_seqZ_lt by lia. f_equal. lia. }
    eexists. split; [|reflexivity]. unfold orbitalBasisStep.
    rewrite (projectOrbital_loop values basoff i v);
      [|by rewrite load_lookup by lia|lia].
    f_equal. apply list_fmap_ext. intros _ index _.
    replace (Z.to_nat (i + 1)) with (S (Z.to_nat i)) by lia.
    by rewrite (take_S_r _ _ _ He), fold_left_app.
  - rewrite Hrun, Hfin. f_equal. apply list_fmap_ext. intros _ index _.
    rewrite take_ge; [done|].
    unfold entries. rewrite length_zip, length_seqZ. lia.
Qed.

(** The loop over the shells. *)
Lemma orbitalShellStep_loop (l : list (Shell.t R)) x y z :
  basisTotal l = n →
  evaluateWellFormed evaluate l x y z →
  forEach l (orbitalShellStep evaluate (Some C) indices norb x y z)
    (replicate (length indices) s0, 0)
  = Some ((fun index =>
             orbitalProjection (coefficientRow C index)
               (significantEntries evaluate l x y z 0)) <$> indices,
          n).
Proof.
  intros Hl Hev.
  destruct (forEach_inv
              (fun pre (st : list R * Z) =>
                 st = ((fun index =>
                          orbitalProjection (coefficientRow C index)
                            (significantEntries evaluate pre x y z 0)) <$> indices,
                       basisTotal pre))
              l (orbitalShellStep evaluate (Some C) indices norb x y z)
              (replicate (length indices) s0, 0))
    as (st' & Hrun & Hfin).
  - simpl. by rewrite <- fmap_replicate_const.
  - intros pre a post st Hsplit ->.
    rewrite Hsplit in Hev. apply Forall_app in Hev as [Hpre Hrest].
    apply Forall_cons in Hrest as [Ha Hpost].
    assert (basisTotal pre + (Shell.nBasis a + basisTotal post) = n) as Htot
      by (rewrite <- Hl, Hsplit, basisTotal_app; done).
    pose proof (basisTotal_nonneg pre). pose proof (basisTotal_nonneg post).
    pose proof (shell_nBasis_range a) as Hnb.
    eexists. split; [|reflexivity].
    unfold orbitalShellStep.
    rewrite significantEntries_app, basisTotal_app. simpl.
    rewrite Z.add_0_r, app_nil_r, wrap_small by lia.
    destruct (evaluate a x y z) as [v|].
    + specialize (Ha v eq_refl). rewrite <- Ha.
      rewrite orbitalBasisStep_loop by lia.
      simpl. do 2 f_equal. apply list_fmap_ext. intros _ index _.
      unfold orbitalProjection. by rewrite fold_left_app.
    + simpl. by rewrite app_nil_r.
  - by rewrite Hrun, Hfin, Hl.
Qed.

End OrbitalLoops.

Section OrbitalIdentity.
Context {R : Type} `{ScalarSemiring R}.
Variable evaluate : Shell.t R → R → R → R → option (list R).

Lemma lookupEntry_None g (E : list (Z * R)) :
  g ∉ E.*1 → lookupEntry g E = None.
Proof.
  induction E as [|e E IH]; simpl; [done|]. intros Hnot.
  apply not_elem_of_cons in Hnot as [Hne Hnot].
  destruct (decide (e.1 = g)); [done|]. by apply IH.
Qed.

Lemma lookupEntry_app g (E1 E2 : list (Z * R)) :
  lookupEntry g (E1 ++ E2)
  = match lookupEntry g E1 with Some v => Some v | None => lookupEntry g E2 end.
Proof.
  induction E1 as [|e E1 IH]; simpl; [done|]. by destruct (decide (e.1 = g)).
Qed.

Lemma lookupEntry_zip_seqZ g (v : list R) offset :
  offset ≤ g < offset + Z.of_nat (length v) →
  lookupEntry g (zip (seqZ offset (Z.of_nat (length v))) v)
  = v !! Z.to_nat (g - offset).
Proof.
  revert offset. induction v as [|a v IH]; intros offset Hg; [simpl in Hg; lia|].
  change (length (a :: v)) with (S (length v)) in *.
  rewrite Nat2Z.inj_succ in *. rewrite seqZ_cons by lia. rewrite Z.pred_succ.
  simpl. destruct (decide (offset = g)) as [->|Hne].
  - by rewrite Z.sub_diag.
  - rewrite IH by lia.
    replace (Z.to_nat (g - offset)) with (S (Z.to_nat (g - Z.succ offset))) by lia.
    done.
Qed.

(** A row that is [1.0] at column [index] and [0.0] elsewhere picks the
    value of the entry with global index [index]. *)
Lemma fold_orbitalTerm_unit (row : list R) index n (E : list (Z * R)) acc :
  (∀ g, 0 ≤ g < n → valueAt row g = if decide (g = index) then s1 else s0) →
  Forall (fun g => 0 ≤ g < n) E.*1 →
  StronglySorted Z.lt E.*1 →
  fold_left (orbitalTerm row) E acc
  = match lookupEntry index E with Some v => sadd acc v | None => acc end.
Proof.
  intros Hrow. revert acc. induction E as [|[g v] E IH]; intros acc Hrange Hsorted.
  - done.
  - simpl in *. apply Forall_cons in Hrange as [Hg Hrange].
    apply StronglySorted_inv in Hsorted as [Hsorted Hall].
    rewrite IH by done. unfold orbitalTerm. simpl. rewrite Hrow by done.
    destruct (decide (g = index)) as [->|Hne].
    + rewrite smul_1_l. rewrite lookupEntry_None; [done|].
      intros Hin. rewrite Forall_forall in Hall. specialize (Hall _ Hin). lia.
    + rewrite smul_0_l, sadd_0_r. done.
Qed.

Lemma orbitalProjection_unit (row : list R) index n (E : list (Z * R)) :
  (∀ g, 0 ≤ g < n → valueAt row g = if decide (g = index) then s1 else s0) →
  Forall (fun g => 0 ≤ g < n) E.*1 →
  StronglySorted Z.lt E.*1 →
  orbitalProjection row E = default s0 (lookupEntry index E).
Proof.
  intros Hrow Hrange Hsorted. unfold orbitalProjection.
  rewrite (fold_orbitalTerm_unit row index n) by done.
  destruct (lookupEntry index E); simpl; [apply sadd_0_l | done].
Qed.

(** The zero-filled basis vector holds, at each global index, the value of
    the significant entry with that index, and zero when there is none. *)
Lemma basisVector_lookupEntry (l : list (Shell.t R)) x y z offset g :
  evaluateWellFormed evaluate l x y z →
  offset ≤ g < offset + basisTotal l →
  basisVector evaluate l x y z !! Z.to_nat (g - offset)
  = Some (default s0 (lookupEntry g (significantEntries evaluate l x y z offset))).
Proof.
  intros Hev. revert offset.
  induction Hev as [|s l Hs Hl IH]; intros offset Hg; simpl in *; [lia|].
  pose proof (shell_nBasis_range s) as Hnb.
  pose proof (length_shellSlice evaluate x y z s Hs) as Hlen.
  destruct (significantEntries_indices evaluate l x y z (offset + Shell.nBasis s))
    as [_ Hrange].
  rewrite lookupEntry_app.
  destruct (decide (g < offset + Shell.nBasis s)) as [Hin|Hout].
  - rewrite lookup_app_l by lia.
    assert (lookupEntry g (significantEntries evaluate l x y z (offset + Shell.nBasis s))
            = None) as Hnone.
    { apply lookupEntry_None. intros Hin'. rewrite Forall_forall in Hrange.
      specialize (Hrange _ Hin'). simpl in Hrange. lia. }
    unfold shellSlice in *. destruct (evaluate s x y z) as [v|].
    + rewrite <- Hlen. rewrite lookupEntry_zip_seqZ by lia.
      destruct (lookup_lt_is_Some_2 v (Z.to_nat (g - offset))) as [c Hc]; [lia|].
      by rewrite Hc.
    + simpl. rewrite Hnone. simpl. apply lookup_replicate_2. lia.
  - rewrite lookup_app_r by lia.
    replace (Z.to_nat (g - offset) - length (shellSlice evaluate x y z s))%nat
      with (Z.to_nat (g - (offset + Shell.nBasis s))) by lia.
    rewrite IH by lia.
    assert (lookupEntry g
              match evaluate s x y z with
              | Some values => zip (seqZ offset (Shell.nBasis s)) values
              | None => []
              end = None) as ->; [|done].
    destruct (evaluate s x y z) as [v|]; [|done].
    apply lookupEntry_None. intros Hin'.
    apply list_elem_of_fmap in Hin' as ([g' r] & -> & Hin').
    apply elem_of_zip_l in Hin'. apply elem_of_seqZ in Hin'. simpl in *. lia.
Qed.

End OrbitalIdentity.

Section OrbitalValues.
Context {R : Type} `{Scalar R}.
Variable evaluate : Shell.t R → R → R → R → option (list R).
Implicit Types (sl : ShellList R).

(** C2.  [orbitalValues(x,y,z)] zeroes its output buffer and then, for every
    shell that evaluates non-null, adds
    [coefficient[index_k][globalOffset+i] * value_i] to output entry [k] for
    each requested orbital [k] and each basis function [i] of the shell: the
    result is, per requested row, the projection of the significant entries
    accumulated from zero.  With a coefficient matrix equal to the identity
    on the requested rows, entry [k] equals entry [indices[k]] of the
    zero-filled vector returned by [shellValues(x,y,z)]. *)
Theorem orbitalValues_projection sl x y z (C : Matrix R)
    (Hfit : basisTotal (shells sl) < 2 ^ 32)
    (Hev : evaluateWellFormed evaluate (shells sl) x y z)
    (HC : m_orbitalCoefficients sl = Some C)
    (Hrows : rowsAvailable C (m_orbitalIndices sl) (nBasis sl))
    (Hov : length (m_orbitalValues sl) = length (m_orbitalIndices sl))
    (Hnorb : Z.of_nat (length (m_orbitalIndices sl)) < 2 ^ 32) :
  let entries := significantEntries evaluate (shells sl) x y z 0 in
  let result :=
    (fun index => orbitalProjection (coefficientRow C index) entries)
    <$> m_orbitalIndices sl in
  orbitalValues evaluate sl x y z = Some (withOrbitalValues result sl, result) ∧
  (ScalarSemiring R →
   identityRows C (m_orbitalIndices sl) (nBasis sl) →
   length (m_basisValues sl) = Z.to_nat (nBasis sl) →
   ∃ values,
     shellValues evaluate sl x y z = Some (withBasisValues values sl, values) ∧
     ∀ k index, m_orbitalIndices sl !! k = Some index →
                result !! k = values !! Z.to_nat index ∧
                is_Some (values !! Z.to_nat index)).
Proof.
  intros entries result. rewrite nBasis_exact in Hrows by done.
  split.
  - unfold orbitalValues. rewrite HC.
    assert (usize (m_orbitalIndices sl) = Z.of_nat (length (m_orbitalValues sl)))
      as Hsize by (unfold usize; rewrite Hov; apply wrap_small; lia).
    rewrite Hsize at 1. rewrite zeroEntry_loop by lia. simpl. rewrite Hov.
    rewrite (orbitalShellStep_loop evaluate C (m_orbitalIndices sl)
               (basisTotal (shells sl))) by done.
    done.
  - intros Hsemi Hid Hbv. rewrite nBasis_exact in Hid by done.
    exists (basisVector evaluate (shells sl) x y z). split.
    + unfold shellValues. by rewrite shellValues_run.
    + intros k index Hk. unfold result. rewrite list_lookup_fmap, Hk. simpl.
      unfold identityRows in Hid. rewrite Forall_forall in Hid.
      destruct (Hid index (list_elem_of_lookup_2 _ _ _ Hk)) as [Hindex Hrow].
      destruct (significantEntries_indices evaluate (shells sl) x y z 0)
        as [Hsorted Hrange].
      rewrite (orbitalProjection_unit _ index (basisTotal (shells sl))); [|done..].
      pose proof (basisVector_lookupEntry evaluate (shells sl) x y z 0 index Hev
                    ltac:(lia)) as Hlook.
      rewrite Z.sub_0_r in Hlook. rewrite Hlook. split; [done | by eexists].
Qed.

End OrbitalValues.

#[export] Instance Z_ScalarSemiring : ScalarSemiring Z.
Proof. split; simpl; intros; lia. Qed.

Lemma sampleIdentity_row index :
  index ∈ [5; 2; 0] →
  0 ≤ index < 9 ∧
  ∀ g, 0 ≤ g < 9 →
       valueAt (coefficientRow sampleIdentity index) g
       = if decide (g = index) then 1 else 0.
Proof.
  intros Hin. assert (index = 5 ∨ index = 2 ∨ index = 0) as Hindex.
  { repeat (apply elem_of_cons in Hin as [Hin | Hin]; [auto|]).
    by apply elem_of_nil in Hin. }
  split; [lia|]. intros g Hg.
  assert (g = 0 ∨ g = 1 ∨ g = 2 ∨ g = 3 ∨ g = 4 ∨ g = 5 ∨ g = 6 ∨ g = 7 ∨ g = 8)
    as Hcases by lia.
  destruct Hindex as [-> | [-> | ->]];
    repeat (destruct Hcases as [-> | Hcases]; [reflexivity|]);
    subst; reflexivity.
Qed.

Lemma sampleIdentity_rows : identityRows sampleIdentity [5; 2; 0] 9.
Proof. apply Forall_forall. exact sampleIdentity_row. Qed.

Lemma sampleIdentity_available : rowsAvailable sampleIdentity [5; 2; 0] 9.
Proof.
  apply Forall_forall. intros index Hin.
  destruct (sampleIdentity_row index Hin) as [Hindex _].
  assert (index = 0 ∨ index = 1 ∨ index = 2 ∨ index = 3 ∨ index = 4 ∨
          index = 5 ∨ index = 6 ∨ index = 7 ∨ index = 8) as Hcases by lia.
  repeat (destruct Hcases as [-> | Hcases];
          [eexists; split; [reflexivity | vm_compute; discriminate]|]).
  subst. eexists. split; [reflexivity | vm_compute; discriminate].
Qed.

(** At [(1,0,0)] the zero-filled basis vector of the sample container is
    [1;0;0;0;1;2;3;4;5]; the orbitals 5, 2 and 0 of the identity pick its
    entries 5, 2 and 0. *)
Lemma orbitalValues_projection_witness :
  orbitalValues sampleEvaluate sampleOrbitals 1 0 0
  = Some (withOrbitalValues [2; 0; 1] sampleOrbitals, [2; 0; 1]) ∧
  ∃ values,
    shellValues sampleEvaluate sampleOrbitals 1 0 0
    = Some (withBasisValues values sampleOrbitals, values) ∧
    Some 2 = values !! 5%nat.
Proof.
  destruct (orbitalValues_projection sampleEvaluate sampleOrbitals 1 0 0
              sampleIdentity
              ltac:(vm_compute; reflexivity)
              (sampleContainer_evaluate 1 0 0)
              ltac:(reflexivity)
              sampleIdentity_available
              ltac:(reflexivity)
              ltac:(vm_compute; reflexivity))
    as [Hrun Hid].
  split; [exact Hrun|].
  destruct (Hid Z_ScalarSemiring sampleIdentity_rows ltac:(reflexivity))
    as (values & Hvalues & Hk).
  exists values. split; [exact Hvalues|].
  exact (proj1 (Hk 0%nat 5 eq_refl)).
Defined.

(** ** Construction *)

Section PrimitiveLoop.
Context {R : Type} `{Scalar R}.
Variable convExponents : R.
Implicit Types (d : ShellData R).

Lemma slice_snoc {A} (l : list A) (offset i : Z) (x : A) :
  0 ≤ offset → 0 ≤ i → l !! Z.to_nat (offset + i) = Some x →
  slice l offset (i + 1) = slice l offset i ++ [x].
Proof.
  intros Ho Hi Hx. unfold slice.
  replace (Z.to_nat (i + 1)) with (S (Z.to_nat i)) by lia.
  apply take_S_r. rewrite lookup_drop. rewrite <- Hx. f_equal. lia.
Qed.

Lemma slice_nil {A} (offset count : Z) : slice (@nil A) offset count = [].
Proof. unfold slice. by rewrite drop_nil, take_nil. Qed.

(** The primitive loop slices [nprim] primitives starting at [cnt]. *)
Lemma primitiveStep_loop d (cnt nprim : Z) :
  0 ≤ cnt → 0 ≤ nprim → cnt + nprim < 2 ^ 32 →
  cnt + nprim ≤ Z.of_nat (length (exponents d)) →
  cnt + nprim ≤ Z.of_nat (length (contractionCoefficients d)) →
  (contractionCoefficientsSP d = [] ∨
   cnt + nprim ≤ Z.of_nat (length (contractionCoefficientsSP d))) →
  forUnsigned nprim (primitiveStep convExponents d) ([], [], [], cnt)
  = Some ((fun x => smul x convExponents) <$> slice (exponents d) cnt nprim,
          slice (contractionCoefficients d) cnt nprim,
          slice (contractionCoefficientsSP d) cnt nprim,
          cnt + nprim).
Proof.
  intros Hcnt Hnprim Hfit He Hc Hsp.
  destruct (forUnsigned_inv
              (fun i st =>
                 st = ((fun x => smul x convExponents) <$> slice (exponents d) cnt i,
                       slice (contractionCoefficients d) cnt i,
                       slice (contractionCoefficientsSP d) cnt i,
                       cnt + i))
              nprim (primitiveStep convExponents d) ([], [], [], cnt))
    as (st' & Hrun & Hfin).
  - done.
  - unfold slice. simpl. by rewrite Z.add_0_r.
  - intros i st Hi ->.
    destruct (lookup_lt_is_Some_2 (exponents d) (Z.to_nat (cnt + i)))
      as [e Hex]; [lia|].
    destruct (lookup_lt_is_Some_2 (contractionCoefficients d) (Z.to_nat (cnt + i)))
      as [c Hcx]; [lia|].
    eexists. split; [|reflexivity]. unfold primitiveStep.
    rewrite (load_lookup (exponents d)), Hex by lia. simpl.
    rewrite (load_lookup (contractionCoefficients d)), Hcx by lia. simpl.
    rewrite (slice_snoc _ _ _ _ Hcnt (proj1 Hi) Hex).
    rewrite (slice_snoc _ _ _ _ Hcnt (proj1 Hi) Hcx).
    rewrite fmap_app. simpl. rewrite wrap_small by lia.
    destruct Hsp as [Hnil | Hlen].
    + rewrite Hnil, !slice_nil. simpl. do 2 f_equal. lia.
    + destruct (lookup_lt_is_Some_2 (contractionCoefficientsSP d) (Z.to_nat (cnt + i)))
        as [c' Hcx']; [lia|].
      rewrite (slice_snoc _ _ _ _ Hcnt (proj1 Hi) Hcx').
      destruct (contractionCoefficientsSP d) as [|c0 sp] eqn:Hspeq; [done|].
      rewrite load_lookup, Hcx' by lia. simpl. do 2 f_equal. lia.
  - by rewrite Hrun, Hfin.
Qed.

End PrimitiveLoop.

Section EntryLoop.
Context {R : Type} `{Scalar R}.
Variable convExponents : R.
Implicit Types (d : ShellData R).

Lemma sum_snoc (l : list Z) (p : Z) : foldr Z.add 0 (l ++ [p]) = foldr Z.add 0 l + p.
Proof. induction l as [|a l IH]; simpl; lia. Qed.

Lemma sum_nonneg (l : list Z) : Forall (fun p => 0 ≤ p) l → 0 ≤ foldr Z.add 0 l.
Proof. induction 1; simpl; lia. Qed.

Lemma sum_app (l1 l2 : list Z) :
  foldr Z.add 0 (l1 ++ l2) = foldr Z.add 0 l1 + foldr Z.add 0 l2.
Proof. induction l1 as [|a l1 IH]; simpl; lia. Qed.

Lemma primitiveOffset_S d e p :
  shellPrimitives d !! e = Some p →
  primitiveOffset d (S e) = primitiveOffset d e + p.
Proof.
  intros Hp. unfold primitiveOffset. by rewrite (take_S_r _ _ _ Hp), sum_snoc.
Qed.

Lemma primitiveOffset_bounds d e n :
  Forall (fun p => 0 ≤ p) (shellPrimitives d) → (e ≤ n)%nat →
  0 ≤ primitiveOffset d e ≤ primitiveOffset d n.
Proof.
  intros Hpos Hle. unfold primitiveOffset.
  replace n with (e + (n - e))%nat by lia.
  rewrite <- take_take_drop, sum_app.
  pose proof (sum_nonneg (take e (shellPrimitives d)) (Forall_take _ _ _ Hpos)).
  pose proof (sum_nonneg (take (n - e) (drop e (shellPrimitives d)))
                (Forall_take _ _ _ (Forall_drop _ _ _ Hpos))).
  lia.
Qed.

(** One raw entry: slice its primitives, map its type code. *)
Lemma entryStep_entry d (geometry : Z → Vec R) (e : nat) built log :
  wellFormedShellData d → (e < length (shellTypes d))%nat →
  entryStep convExponents d geometry (Z.of_nat e)
    (primitiveOffset d e, built, log)
  = Some (primitiveOffset d (S e),
          built ++ (entryShells convExponents d geometry e).1,
          log ++ (entryShells convExponents d geometry e).2).
Proof.
  intros (Hn & Hatoms & Hprims & Hpos & Hfit & Hex & Hcc & Hsp) He.
  destruct (lookup_lt_is_Some_2 (shellTypes d) e) as [type Htype]; [lia|].
  destruct (lookup_lt_is_Some_2 (shellToAtom d) e) as [a Hatom]; [lia|].
  destruct (lookup_lt_is_Some_2 (shellPrimitives d) e) as [p Hp]; [lia|].
  pose proof (primitiveOffset_S d e p Hp) as HS.
  pose proof (primitiveOffset_bounds d e (S e) Hpos ltac:(lia)) as Hb1.
  pose proof (primitiveOffset_bounds d (S e) (length (shellTypes d)) Hpos ltac:(lia))
    as Hb2.
  assert (0 ≤ p) as Hp0.
  { rewrite Forall_forall in Hpos. apply Hpos. by eapply list_elem_of_lookup_2. }
  assert (entryShells convExponents d geometry e
          = shellsOfType type (Z.of_nat e) (wrap (a - 1)) (geometry (wrap (a - 1)))
              ((fun x => smul x convExponents)
               <$> slice (exponents d) (primitiveOffset d e) p)
              (slice (contractionCoefficients d) (primitiveOffset d e) p)
              (slice (contractionCoefficientsSP d) (primitiveOffset d e) p))
    as Hentry.
  { unfold entryShells, entryExponents, entryCoefficients, entryCoefficientsSP,
      entryType, entryAtom, entryPrimitives.
    by rewrite Htype, Hatom, Hp. }
  rewrite Hentry, HS. unfold entryStep.
  rewrite (load_Some _ _ _ Hatom). cbn [mbind option_bind].
  rewrite (load_Some _ _ _ Hp). cbn [mbind option_bind].
  rewrite (primitiveStep_loop convExponents d (primitiveOffset d e) p);
    [| lia | lia | lia | lia | lia | destruct Hsp; [by left | right; lia] ].
  cbn [mbind option_bind]. rewrite (load_Some _ _ _ Htype). cbn [mbind option_bind].
  by destruct (shellsOfType _ _ _ _ _ _ _) as [new msgs].
Qed.

Lemma entryStep_loop d (geometry : Z → Vec R) :
  wellFormedShellData d →
  forUnsigned (usize (shellTypes d)) (entryStep convExponents d geometry)
    (0, [], [])
  = Some (primitiveOffset d (length (shellTypes d)),
          recordShells convExponents d geometry,
          recordLog convExponents d geometry).
Proof.
  intros Hwf. pose proof Hwf as (Hn & _).
  assert (usize (shellTypes d) = Z.of_nat (length (shellTypes d))) as ->
    by (unfold usize; apply wrap_small; lia).
  destruct (forUnsigned_inv
              (fun k st =>
                 st = (primitiveOffset d (Z.to_nat k),
                       flat_map (fun e => (entryShells convExponents d geometry e).1)
                                (seq 0 (Z.to_nat k)),
                       flat_map (fun e => (entryShells convExponents d geometry e).2)
                                (seq 0 (Z.to_nat k))))
              (Z.of_nat (length (shellTypes d)))
              (entryStep convExponents d geometry) (0, [], []))
    as (st' & Hrun & Hfin).
  - lia.
  - done.
  - intros k st Hk ->. eexists. split; [|reflexivity].
    rewrite <- (Z2Nat.id k) at 1 by lia.
    rewrite entryStep_entry by (done || lia).
    replace (Z.to_nat (k + 1)) with (S (Z.to_nat k)) by lia.
    rewrite seq_S, !flat_map_app. simpl. by rewrite !app_nil_r.
  - rewrite Hrun, Hfin. by rewrite Nat2Z.id.
Qed.

Lemma fold_append (l : list (Shell.t R)) (sl : ShellList R) :
  fold_left (fun sl s => append s sl) l sl
  = mkShellList (shells sl ++ l) (m_overlapMatrix sl) (m_nBasis sl)
      (m_basisValues sl) (m_sigBasis sl) (m_basisPairValues sl)
      (m_densityVectors sl) (m_densityValues sl) (m_orbitalIndices sl)
      (m_orbitalCoefficients sl) (m_orbitalValues sl).
Proof.
  revert sl. induction l as [|s l IH]; intros sl; simpl.
  - rewrite app_nil_r. by destruct sl.
  - rewrite IH. simpl. by rewrite <- app_assoc.
Qed.

(** The constructor succeeds on a well-formed record; the object is
    [beforeResize] resized. *)
Lemma ShellList_ctor_eq d (geometry : Z → Vec R) :
  wellFormedShellData d →
  ShellList_ctor convExponents d geometry
  = Some ((resize (beforeResize convExponents d geometry)).1,
          recordLog convExponents d geometry
          ++ (resize (beforeResize convExponents d geometry)).2).
Proof.
  intros Hwf. unfold ShellList_ctor. rewrite entryStep_loop by done. simpl.
  rewrite fold_append. simpl. unfold beforeResize, triangularSize, triangularSizeW.
  change (wrapw UINT_BITS) with wrap.
  set (sl0 := mkShellList (recordShells convExponents d geometry) None 0 [] None
                [] [] [] [] None []).
  rewrite (Z.mul_comm (wrap (nBasis sl0 + 1)) (nBasis sl0)).
  by destruct (resize _) as [sl' log'].
Qed.

End EntryLoop.

Section Construction.
Context {R : Type} `{Scalar R}.
Variable convExponents : R.
Implicit Types (d : ShellData R) (geometry : Z → Vec R).

Lemma recordShells_split d geometry (e : nat) :
  (e < length (shellTypes d))%nat →
  recordShells convExponents d geometry
  = flat_map (fun e => (entryShells convExponents d geometry e).1) (seq 0 e)
    ++ (entryShells convExponents d geometry e).1
    ++ flat_map (fun e => (entryShells convExponents d geometry e).1)
         (seq (S e) (length (shellTypes d) - S e)).
Proof.
  intros He. unfold recordShells.
  replace (length (shellTypes d)) with (e + (1 + (length (shellTypes d) - S e)))%nat
    at 1 by lia.
  rewrite seq_app, flat_map_app. done.
Qed.

Lemma ShellList_ctor_shells d geometry :
  shells (resize (beforeResize convExponents d geometry)).1
  = recordShells convExponents d geometry.
Proof. rewrite resize_shells. unfold beforeResize. by destruct (decide _). Qed.

(** C5.  On a well-formed record the constructor succeeds and the shells
    are those of the raw entries in order, each entry's shells standing
    together.  An entry with type code -1 yields exactly two shells, an [S]
    built from the primary coefficients followed by a [P] built from the SP
    coefficients, with the same converted exponents, atom index and
    position; the codes 0, 1, -2, 2, -3, 3, -4, 4 yield exactly one shell of
    kind [S], [P], [D5], [D6], [F7], [F10], [G9], [G15]. *)
Theorem ShellList_ctor_type_codes d geometry (Hwf : wellFormedShellData d) :
  ∃ sl log,
    ShellList_ctor convExponents d geometry = Some (sl, log) ∧
    shells sl = recordShells convExponents d geometry ∧
    ∀ (e : nat) (type : Z),
      shellTypes d !! e = Some type →
      let atom := entryAtom d e in
      let pos := geometry atom in
      let expts := entryExponents convExponents d e in
      let coefs := entryCoefficients d e in
      let coefsSP := entryCoefficientsSP d e in
      let new := (entryShells convExponents d geometry e).1 in
      let one kind := [Shell.new kind atom pos expts coefs] in
      shells sl
      = flat_map (fun e => (entryShells convExponents d geometry e).1) (seq 0 e)
        ++ new
        ++ flat_map (fun e => (entryShells convExponents d geometry e).1)
             (seq (S e) (length (shellTypes d) - S e)) ∧
      (type = -1 → new = [Shell.new Shell.S atom pos expts coefs;
                          Shell.new Shell.P atom pos expts coefsSP]) ∧
      (type = 0 → new = one Shell.S) ∧
      (type = 1 → new = one Shell.P) ∧
      (type = -2 → new = one Shell.D5) ∧
      (type = 2 → new = one Shell.D6) ∧
      (type = -3 → new = one Shell.F7) ∧
      (type = 3 → new = one Shell.F10) ∧
      (type = -4 → new = one Shell.G9) ∧
      (type = 4 → new = one Shell.G15).
Proof.
  eexists _, _. split; [by apply ShellList_ctor_eq|].
  split; [apply ShellList_ctor_shells|].
  intros e type Htype atom pos expts coefs coefsSP new one.
  split.
  - rewrite ShellList_ctor_shells. apply recordShells_split.
    by eapply lookup_lt_Some.
  - unfold new, entryShells, entryType. rewrite Htype. simpl.
    repeat split; intros ->; reflexivity.
Qed.

(** C6.  On a well-formed record the constructor succeeds whatever the type
    codes are.  An entry whose type code is outside -4..4 yields no shell
    and one diagnostic naming its position and code, which is part of the
    log; the shells of the object are those of the entries before it
    followed by those of the entries after it. *)
Theorem ShellList_ctor_unknown_type d geometry (Hwf : wellFormedShellData d) :
  ∃ sl log,
    ShellList_ctor convExponents d geometry = Some (sl, log) ∧
    ∀ (e : nat) (type : Z),
      shellTypes d !! e = Some type → ¬ (-4 ≤ type ≤ 4) →
      let msg := qDebug ("Unknown Shell type found at position "
                         +:+ QString_number (Z.of_nat e)
                         +:+ ", type: " +:+ QString_number type) in
      entryShells convExponents d geometry e = ([], [msg]) ∧
      msg ∈ log ∧
      shells sl
      = flat_map (fun e => (entryShells convExponents d geometry e).1) (seq 0 e)
        ++ flat_map (fun e => (entryShells convExponents d geometry e).1)
             (seq (S e) (length (shellTypes d) - S e)) ∧
      m_nBasis sl = nBasis sl.
Proof.
  eexists _, _. split; [by apply ShellList_ctor_eq|].
  intros e type Htype Hout msg.
  pose proof (lookup_lt_Some _ _ _ Htype) as He.
  assert (entryShells convExponents d geometry e = ([], [msg])) as Hentry.
  { unfold entryShells, entryType. rewrite Htype. simpl. unfold msg.
    destruct type as [|p|p]; [lia| |];
      repeat (destruct p as [p|p|]; try lia; try reflexivity). }
  split; [done|]. split; [|split].
  - apply elem_of_app. left. unfold recordLog.
    apply list_elem_of_In, in_flat_map. exists e. split.
    + apply in_seq. lia.
    + rewrite Hentry. simpl. by left.
  - rewrite ShellList_ctor_shells, (recordShells_split d geometry e He).
    by rewrite Hentry.
  - by rewrite resize_eq.
Qed.

(** C7.  On a well-formed record the constructor succeeds whatever the
    overlap matrix is.  The supplied matrix is attached exactly when its
    element count equals [nBasis*(nBasis+1)/2] as the code computes it on
    the post-construction basis count (the integer value when the product
    does not overflow), and is dropped otherwise; the choice changes nothing
    but the overlap member: the other members and the log are the same for
    any supplied matrix. *)
Theorem ShellList_ctor_overlap d geometry (Hwf : wellFormedShellData d) :
  ∃ sl log,
    ShellList_ctor convExponents d geometry = Some (sl, log) ∧
    m_nBasis sl = nBasis sl ∧
    m_overlapMatrix sl
    = (if decide (usize (overlapMatrix d) = triangularSize (nBasis sl))
       then Some (overlapMatrix d) else None) ∧
    (nBasis sl * (nBasis sl + 1) < 2 ^ 32 →
     Z.of_nat (length (overlapMatrix d)) < 2 ^ 32 →
     (m_overlapMatrix sl = Some (overlapMatrix d)
      ↔ Z.of_nat (length (overlapMatrix d)) = triangular (nBasis sl)) ∧
     (m_overlapMatrix sl = None
      ↔ Z.of_nat (length (overlapMatrix d)) ≠ triangular (nBasis sl))) ∧
    ∀ om : list R,
      ShellList_ctor convExponents (withOverlapData om d) geometry
      = Some (withOverlapMatrix
                (if decide (usize om = triangularSize (nBasis sl))
                 then Some om else None) sl,
              log).
Proof.
  eexists _, _. split; [by apply ShellList_ctor_eq|].
  rewrite resize_nBasis.
  assert (∀ om, nBasis (beforeResize convExponents (withOverlapData om d) geometry)
                = nBasis (mkShellList (recordShells convExponents d geometry)
                            None 0 [] None [] [] [] [] None [])) as HnB.
  { intros om. unfold beforeResize. by destruct (decide _). }
  assert (beforeResize convExponents d geometry
          = beforeResize convExponents (withOverlapData (overlapMatrix d) d) geometry)
    as Hsame by done.
  assert (∀ om, m_overlapMatrix
                  (resize (beforeResize convExponents (withOverlapData om d) geometry)).1
                = if decide (usize om
                             = triangularSize
                                 (nBasis (beforeResize convExponents d geometry)))
                  then Some om else None) as Hom.
  { intros om. rewrite resize_eq. cbv zeta. simpl.
    rewrite Hsame, !HnB. unfold beforeResize. simpl.
    by destruct (decide _). }
  split; [by rewrite resize_eq|].
  split; [rewrite Hsame at 1; apply Hom|].
  split.
  - intros Hfit Hlen. rewrite Hsame at 1 3. rewrite Hom.
    pose proof (nBasis_range (beforeResize convExponents d geometry)) as Hr.
    rewrite triangularSize_exact by lia.
    unfold usize. rewrite wrap_small by lia.
    destruct (decide _) as [Heq|Hne]; (split; split; intros Hx; congruence).
  - intros om.
    rewrite (ShellList_ctor_eq convExponents (withOverlapData om d) geometry) by done.
    f_equal. rewrite !resize_eq. cbv zeta. simpl. rewrite Hsame, !HnB.
    unfold beforeResize, withOverlapMatrix, shellAtomOffsets, basisAtomOffsets.
    simpl. by repeat destruct (decide _).
Qed.

End Construction.

Lemma sampleData_wellFormed : wellFormedShellData sampleData.
Proof.
  unfold wellFormedShellData. cbv zeta.
  split; [vm_compute; reflexivity|].
  split; [vm_compute; lia|]. split; [vm_compute; lia|].
  split; [repeat (apply Forall_cons_2; [lia|]); apply Forall_nil_2|].
  split; [vm_compute; reflexivity|].
  split; [vm_compute; congruence|]. split; [vm_compute; congruence|].
  right. vm_compute. congruence.
Qed.

(** The second entry of the sample record has type code -1, two primitives
    and sits on atom 1 of the record, atom 0 of the container. *)
Lemma ShellList_ctor_type_codes_witness :
  ∃ sl log,
    ShellList_ctor 7 sampleData sampleGeometry = Some (sl, log) ∧
    (entryShells 7 sampleData sampleGeometry 1).1
    = [Shell.new Shell.S 0 (mkVec 0 0 0) [140; 210] [2; 3];
       Shell.new Shell.P 0 (mkVec 0 0 0) [140; 210] [7; 8]].
Proof.
  destruct (ShellList_ctor_type_codes 7 sampleData sampleGeometry
              sampleData_wellFormed)
    as (sl & log & Hrun & _ & Hentries).
  exists sl, log. split; [exact Hrun|].
  exact (proj1 (proj2 (Hentries 1%nat (-1) eq_refl)) eq_refl).
Defined.

(** The third entry of the sample record has the unknown type code 5. *)
Lemma ShellList_ctor_unknown_type_witness :
  ∃ sl log,
    ShellList_ctor 7 sampleData sampleGeometry = Some (sl, log) ∧
    qDebug "Unknown Shell type found at position 2, type: 5" ∈ log ∧
    length (shells sl) = 4%nat.
Proof.
  destruct (ShellList_ctor_unknown_type 7 sampleData sampleGeometry
              sampleData_wellFormed)
    as (sl & log & Hrun & Hentries).
  destruct (Hentries 2%nat 5 eq_refl ltac:(lia)) as (_ & Hlog & Hshells & _).
  exists sl, log. split; [exact Hrun|]. split; [exact Hlog|].
  rewrite Hshells. reflexivity.
Defined.

(** The sample record has eight basis functions and an overlap matrix of
    three elements, which is dropped; one of 36 elements is attached. *)
Lemma ShellList_ctor_overlap_witness :
  ∃ sl log,
    ShellList_ctor 7 sampleData sampleGeometry = Some (sl, log) ∧
    m_overlapMatrix sl = None ∧
    ShellList_ctor 7 (withOverlapData (replicate 36 1) sampleData) sampleGeometry
    = Some (withOverlapMatrix (Some (replicate 36 1)) sl, log).
Proof.
  destruct (ShellList_ctor_overlap 7 sampleData sampleGeometry
              sampleData_wellFormed)
    as (sl & log & Hrun & _ & Hom & _ & Hother).
  exists sl, log. split; [exact Hrun|].
  assert (nBasis sl = 8) as Hn.
  { vm_compute in Hrun. injection Hrun as <- _. reflexivity. }
  rewrite Hn in Hom. specialize (Hother (replicate 36 1)). rewrite Hn in Hother.
  split; [exact Hom | exact Hother].
Defined.

(** ** Beyond 65535 basis functions

    The integer and the unsigned value of [n*(n+1)/2] part ways as soon as
    the product overflows; the statements above that mention the integer
    value assume it does not. *)
Example triangularSize_wraps :
  triangularSize 65535 = triangular 65535 ∧
  triangularSize 65536 = 32768 ∧ triangular 65536 = 2147516416.
Proof. repeat split; reflexivity. Qed.

(** * Further properties *)

(** ** Basis counts and atom offsets *)

Section Offsets.
Context {R : Type} `{Scalar R}.
Implicit Types (sl : ShellList R) (l : list (Shell.t R)).

Lemma wrap_add_l a b : wrap (wrap a + b) = wrap (a + b).
Proof.
  unfold wrap, wrapw, UINT_BITS. apply Zplus_mod_idemp_l.
Qed.

Lemma nBasis_fold_wrap l n :
  fold_left (fun n (s : Shell.t R) => wrap (n + Shell.nBasis s)) l (wrap n)
  = wrap (n + basisTotal l).
Proof.
  revert n. induction l as [|s l IH]; intros n; simpl.
  - by rewrite Z.add_0_r.
  - rewrite wrap_add_l, IH. f_equal. lia.
Qed.

Lemma nBasis_wrap_total sl : nBasis sl = wrap (basisTotal (shells sl)).
Proof.
  unfold nBasis. change 0 with (wrap 0) at 1. by rewrite nBasis_fold_wrap.
Qed.

(** X1.  [nBasis()] is the number of basis functions of the shells reduced
    modulo [2^32], whatever the container holds. *)
Theorem nBasis_modular sl : nBasis sl = wrap (basisTotal (shells sl)).
Proof.
  unfold nBasis. change 0 with (wrap 0) at 1. by rewrite nBasis_fold_wrap.
Qed.

Lemma length_le_basisTotal l : Z.of_nat (length l) ≤ basisTotal l.
Proof.
  induction l as [|s l IH]; simpl; [lia|]. pose proof (shell_nBasis_range s). lia.
Qed.

Lemma basisAtomOffsets_fold pre l offsets expected :
  basisTotal (pre ++ l) < 2 ^ 32 →
  0 ≤ expected ≤ Z.of_nat (length pre) →
  (fold_left basisAtomOffsetsStep l (offsets, basisTotal pre, expected)).1.1
  = offsets
    ++ ((fun k => basisTotal (take (Z.to_nat k) (pre ++ l)))
        <$> boundariesFrom l (Z.of_nat (length pre)) expected).
Proof.
  revert pre offsets expected.
  induction l as [|s l IH]; intros pre offsets expected Hfit He; simpl.
  - by rewrite app_nil_r.
  - pose proof (shell_nBasis_range s) as Hnb.
    pose proof (basisTotal_nonneg pre) as Hpre.
    pose proof (length_le_basisTotal pre) as Hlen.
    assert (basisTotal (pre ++ s :: l) = basisTotal pre + (Shell.nBasis s + basisTotal l))
      as Htot by (rewrite basisTotal_app; done).
    pose proof (basisTotal_nonneg l) as Hl.
    assert (wrap (basisTotal pre + Shell.nBasis s) = basisTotal (pre ++ [s])) as Hk.
    { rewrite basisTotal_app. simpl. rewrite Z.add_0_r. apply wrap_small. lia. }
    assert (pre ++ s :: l = (pre ++ [s]) ++ l) as Happ by (by rewrite <- app_assoc).
    assert (Z.of_nat (length pre) + 1 = Z.of_nat (length (pre ++ [s]))) as Hpos
      by (rewrite length_app; simpl; lia).
    rewrite Hk, Hpos, Happ.
    destruct (decide (Shell.atomIndex s ≠ expected)).
    + rewrite (wrap_small (expected + 1)) by lia.
      rewrite IH; [|by rewrite <- Happ|lia].
      rewrite <- app_assoc. simpl. do 2 f_equal.
      rewrite Nat2Z.id. rewrite <- app_assoc. by rewrite take_app_length.
    + rewrite IH; [done|by rewrite <- Happ|lia].
Qed.

(** X2.  [basisAtomOffsets] holds, for each entry of [shellAtomOffsets], the
    number of basis functions of the shells before that position. *)
Theorem basisAtomOffsets_shellAtomOffsets sl
    (Hfit : basisTotal (shells sl) < 2 ^ 32) :
  basisAtomOffsets sl
  = (fun k => basisTotal (take (Z.to_nat k) (shells sl))) <$> shellAtomOffsets sl.
Proof.
  pose proof (length_le_basisTotal (shells sl)) as Hlen.
  unfold basisAtomOffsets, shellAtomOffsets.
  rewrite shellAtomOffsets_fold by lia.
  pose proof (basisAtomOffsets_fold [] (shells sl) [0] 0 Hfit ltac:(simpl; lia))
    as Hfold.
  simpl in Hfold. by rewrite Hfold.
Qed.





End Offsets.

Lemma basisAtomOffsets_shellAtomOffsets_witness :
  basisAtomOffsets sampleTwoAtoms = [0; 5] ∧
  shellAtomOffsets sampleTwoAtoms = [0; 3].
Proof.
  split; [|reflexivity].
  exact (basisAtomOffsets_shellAtomOffsets sampleTwoAtoms
           ltac:(vm_compute; reflexivity)).
Defined.



(** ** Offsets as positions *)

Section OffsetBounds.
Context {R : Type} `{Scalar R}.
Implicit Types (sl : ShellList R) (l : list (Shell.t R)).

Lemma boundariesFrom_upper l k expected :
  Forall (fun p => k ≤ p < k + Z.of_nat (length l)) (boundariesFrom l k expected).
Proof.
  revert k expected. induction l as [|s l IH]; intros k expected; simpl.
  - constructor.
  - destruct (decide _).
    + constructor; [lia|]. eapply Forall_impl; [apply IH|]. simpl. lia.
    + eapply Forall_impl; [apply IH|]. simpl. lia.
Qed.

Lemma length_boundariesFrom_le l k expected :
  (length (boundariesFrom l k expected) ≤ length l)%nat.
Proof.
  revert k expected. induction l as [|s l IH]; intros k expected; simpl; [lia|].
  destruct (decide _); simpl; [specialize (IH (k + 1) (expected + 1))
                              | specialize (IH (k + 1) expected)]; lia.
Qed.

(** X5.  Whatever the order of the shells, [shellAtomOffsets] has at most one
    entry per shell besides the leading 0, every entry after the leading 0
    is the position of a shell, and an empty container gives [[0]]. *)
Theorem shellAtomOffsets_bounds sl
    (Hsize : Z.of_nat (length (shells sl)) < 2 ^ 32) :
  (length (shellAtomOffsets sl) ≤ S (length (shells sl)))%nat ∧
  (∀ (i : nat) p, shellAtomOffsets sl !! S i = Some p →
                  0 ≤ p < Z.of_nat (length (shells sl))) ∧
  (shells sl = [] → shellAtomOffsets sl = [0]).
Proof.
  unfold shellAtomOffsets. rewrite shellAtomOffsets_fold by lia. simpl.
  split; [pose proof (length_boundariesFrom_le (shells sl) 0 0); lia|].
  split.
  - intros i p Hp. pose proof (boundariesFrom_upper (shells sl) 0 0) as Hall.
    rewrite Forall_forall in Hall.
    specialize (Hall p (list_elem_of_lookup_2 _ _ _ Hp)). simpl in Hall. lia.
  - by intros ->.
Qed.

(** X6.  When the first shell does not sit on atom 0 the list starts with two
    zeros: the boundary test fires at position 0. *)
Theorem shellAtomOffsets_first_atom_missing sl (s : Shell.t R) rest
    (Hsize : Z.of_nat (length (shells sl)) < 2 ^ 32)
    (Hshells : shells sl = s :: rest)
    (Hatom : Shell.atomIndex s ≠ 0) :
  shellAtomOffsets sl = 0 :: 0 :: boundariesFrom rest 1 1.
Proof.
  unfold shellAtomOffsets. rewrite shellAtomOffsets_fold by lia.
  rewrite Hshells. simpl. by destruct (decide _).
Qed.

End OffsetBounds.

Lemma shellAtomOffsets_bounds_witness :
  (length (shellAtomOffsets sampleTwoAtoms) ≤ 6)%nat.
Proof.
  exact (proj1 (shellAtomOffsets_bounds sampleTwoAtoms
                  ltac:(vm_compute; reflexivity))).
Defined.

Lemma shellAtomOffsets_first_atom_missing_witness :
  shellAtomOffsets (sampleList [sampleShell Shell.S 1; sampleShell Shell.P 1;
                                sampleShell Shell.S 2])
  = [0; 0; 2].
Proof.
  exact (shellAtomOffsets_first_atom_missing
           (sampleList [sampleShell Shell.S 1; sampleShell Shell.P 1;
                        sampleShell Shell.S 2])
           (sampleShell Shell.S 1) [sampleShell Shell.P 1; sampleShell Shell.S 2]
           ltac:(vm_compute; reflexivity) eq_refl ltac:(discriminate)).
Defined.

(** ** The point form of [shellValues] and [shellPairValues] *)

Lemma forEach_fails {A St} (l : list A) (body : A → St → option St) (st : St) a :
  a ∈ l → (∀ s, body a s = None) → forEach l body st = None.
Proof.
  intros Hin Hfail. revert st.
  induction l as [|b l IH]; intros st; [by apply elem_of_nil in Hin|].
  simpl. apply elem_of_cons in Hin as [<- | Hin].
  - by rewrite Hfail.
  - destruct (body b st) as [st'|]; simpl; [by apply IH | done].
Qed.

Lemma forEach_ext_Some {A St} (l : list A) (body body' : A → St → option St)
    (st st' : St) :
  forEach l body st = Some st' →
  (∀ a s s', a ∈ l → body a s = Some s' → body' a s = Some s') →
  forEach l body' st = Some st'.
Proof.
  revert st. induction l as [|a l IH]; intros st Hrun Himp; simpl in *; [done|].
  destruct (body a st) as [s1|] eqn:Hb; simpl in Hrun; [|done].
  rewrite (Himp a st s1 (list_elem_of_here _ _) Hb). simpl.
  apply IH; [done|]. intros b s s' Hin. apply Himp. by apply list_elem_of_further.
Qed.

Section PointFormProperties.
Context {R : Type} `{Scalar R}.
Variable evaluate : Shell.t R → R → R → R → option (list R).
Variable evaluateAt : Shell.t R → Vec R → option (list R).
Implicit Types (sl : ShellList R) (l : list (Shell.t R)).

Lemma copyNull_loop (s : Shell.t R) (st : list R * Z) :
  forUnsigned (Shell.nBasis s) copyNull st = None.
Proof.
  pose proof (shell_nBasis_range s) as Hnb. unfold forUnsigned.
  destruct (Z.to_nat (Shell.nBasis s)) as [|n] eqn:Hn; [lia|]. done.
Qed.

(** X7.  The point form of [shellValues] has no defined result as soon as one
    shell evaluates null at the point: the null result is read. *)
Theorem shellValuesAt_null sl (gridPoint : Vec R) (s : Shell.t R)
    (Hin : s ∈ shells sl)
    (Hnull : evaluateAt s gridPoint = None) :
  shellValuesAt evaluateAt sl gridPoint = None.
Proof.
  unfold shellValuesAt.
  rewrite (forEach_fails (shells sl) _ _ s Hin); [done|].
  intros st. unfold shellValuesAtStep. rewrite Hnull. apply copyNull_loop.
Qed.

(** X8.  Where the point form returns, the coordinate form returns the same
    vector and leaves the same object, provided the two overloads of
    [Shell::evaluate] agree at the point. *)
Theorem shellValuesAt_shellValues sl (gridPoint : Vec R) result
    (Hagree : ∀ s, s ∈ shells sl →
                   evaluateAt s gridPoint
                   = evaluate s (vx gridPoint) (vy gridPoint) (vz gridPoint))
    (Hrun : shellValuesAt evaluateAt sl gridPoint = Some result) :
  shellValues evaluate sl (vx gridPoint) (vy gridPoint) (vz gridPoint)
  = Some result.
Proof.
  unfold shellValuesAt, shellValues in *.
  destruct (forEach (shells sl) (shellValuesAtStep evaluateAt gridPoint)
              (m_basisValues sl, 0)) as [[bv off]|] eqn:Hloop; [|done].
  rewrite (forEach_ext_Some _ _ (shellValuesStep evaluate (vx gridPoint) (vy gridPoint) (vz gridPoint)) _ _ Hloop); [done|].
  intros a st st' Hin. unfold shellValuesAtStep, shellValuesStep.
  rewrite <- (Hagree a Hin).
  destruct (evaluateAt a gridPoint); [done|]. by rewrite copyNull_loop.
Qed.

Lemma pointVector_basisVector l (gridPoint : Vec R) :
  Forall (fun s => is_Some (evaluateAt s gridPoint)) l →
  pointVector evaluateAt l gridPoint
  = basisVector (fun s _ _ _ => evaluateAt s gridPoint) l s0 s0 s0.
Proof.
  induction 1 as [|s l [v Hv] _ IH]; simpl; [done|].
  unfold shellSlice. by rewrite Hv, IH.
Qed.

Lemma shellValuesAt_run sl (gridPoint : Vec R) :
  basisTotal (shells sl) < 2 ^ 32 →
  length (m_basisValues sl) = Z.to_nat (nBasis sl) →
  evaluateAtWellFormed evaluateAt (shells sl) gridPoint →
  Forall (fun s => is_Some (evaluateAt s gridPoint)) (shells sl) →
  shellValuesAt evaluateAt sl gridPoint
  = Some (withBasisValues (pointVector evaluateAt (shells sl) gridPoint) sl,
          pointVector evaluateAt (shells sl) gridPoint).
Proof.
  intros Hfit Hsized Hev Hsig.
  pose proof (shellValues_run (fun s _ _ _ => evaluateAt s gridPoint) sl s0 s0 s0
                Hfit Hsized Hev) as Hrun.
  rewrite <- pointVector_basisVector in Hrun by done.
  unfold shellValuesAt.
  rewrite (forEach_ext_Some _ _ (shellValuesAtStep evaluateAt gridPoint) _ _ Hrun); [done|].
  intros a st st' Hin. unfold shellValuesAtStep, shellValuesStep.
  rewrite Forall_forall in Hsig. by destruct (Hsig a Hin) as [v ->].
Qed.

Lemma length_pointVector l (gridPoint : Vec R) :
  evaluateAtWellFormed evaluateAt l gridPoint →
  Forall (fun s => is_Some (evaluateAt s gridPoint)) l →
  Z.of_nat (length (pointVector evaluateAt l gridPoint)) = basisTotal l.
Proof.
  intros Hev Hsig. rewrite pointVector_basisVector by done.
  apply (length_basisVector (fun s _ _ _ => evaluateAt s gridPoint) l s0 s0 s0 Hev).
Qed.

(** X9.  When every shell evaluates non-null at the point, the point form
    returns the shells' values in shell order, [nBasis] of them. *)
Theorem shellValuesAt_values sl (gridPoint : Vec R)
    (Hfit : basisTotal (shells sl) < 2 ^ 32)
    (Hsized : length (m_basisValues sl) = Z.to_nat (nBasis sl))
    (Hev : evaluateAtWellFormed evaluateAt (shells sl) gridPoint)
    (Hsig : Forall (fun s => is_Some (evaluateAt s gridPoint)) (shells sl)) :
  shellValuesAt evaluateAt sl gridPoint
  = Some (withBasisValues (pointVector evaluateAt (shells sl) gridPoint) sl,
          pointVector evaluateAt (shells sl) gridPoint) ∧
  length (pointVector evaluateAt (shells sl) gridPoint) = Z.to_nat (nBasis sl).
Proof.
  split; [by apply shellValuesAt_run|].
  rewrite nBasis_exact by done.
  pose proof (length_pointVector (shells sl) gridPoint Hev Hsig). lia.
Qed.

End PointFormProperties.

Section PairValues.
Context {R : Type} `{Scalar R}.
Variable evaluateAt : Shell.t R → Vec R → option (list R).
Implicit Types (sl : ShellList R) (x : list R).

Lemma length_packedRow x (i : nat) :
  (i ≤ length x)%nat → length (packedRow x i) = S i.
Proof.
  intros Hi. unfold packedRow. rewrite length_app, length_fmap, length_take.
  simpl. lia.
Qed.

Lemma length_packedRows x (i : nat) :
  (i ≤ length x)%nat →
  Z.of_nat (length (flat_map (packedRow x) (seq 0 i))) = triangular (Z.of_nat i).
Proof.
  induction i as [|i IH]; intros Hi; [done|].
  rewrite seq_S, flat_map_app, length_app. simpl. rewrite app_nil_r.
  rewrite length_packedRow by lia. rewrite Nat2Z.inj_add, IH by lia.
  rewrite Nat2Z.inj_succ, <- Z.add_1_r, triangular_succ. lia.
Qed.

Lemma packedOuterProduct_lookup x (i j : nat) xi xj :
  x !! i = Some xi → x !! j = Some xj → (j ≤ i)%nat →
  packedOuterProduct x !! Z.to_nat (triangular (Z.of_nat i) + Z.of_nat j)
  = Some (if decide (j < i)%nat then smul (smul s2 xi) xj else smul xi xi).
Proof.
  intros Hxi Hxj Hji. pose proof (lookup_lt_Some _ _ _ Hxi) as Hi.
  unfold packedOuterProduct.
  replace (length x) with (i + (1 + (length x - S i)))%nat by lia.
  rewrite seq_app, flat_map_app. simpl.
  pose proof (length_packedRows x i ltac:(lia)) as Hlen.
  pose proof (triangular_nonneg (Z.of_nat i) ltac:(lia)) as Htri.
  rewrite lookup_app_r by lia.
  replace (Z.to_nat (triangular (Z.of_nat i) + Z.of_nat j)
           - length (flat_map (packedRow x) (seq 0 i)))%nat with j by lia.
  rewrite lookup_app_l by (rewrite length_packedRow; lia).
  unfold packedRow. rewrite Hxi. simpl.
  destruct (decide (j < i)%nat) as [Hlt|Hge].
  - rewrite lookup_app_l by (rewrite length_fmap, length_take; lia).
    by rewrite list_lookup_fmap, lookup_take_lt, Hxj by lia.
  - assert (j = i) as -> by lia. rewrite Hxi in Hxj. injection Hxj as <-.
    rewrite lookup_app_r by (rewrite length_fmap, length_take; lia).
    rewrite length_fmap, length_take.
    by replace (i - i `min` length x)%nat with 0%nat by lia.
Qed.

(** The loops of [shellPairValues] over the basis values [x]. *)
Lemma pairRowStep_loop x (pairs : list R) :
  Z.of_nat (length x) * (Z.of_nat (length x) + 1) < 2 ^ 32 →
  Z.of_nat (length pairs) = triangular (Z.of_nat (length x)) →
  forUnsigned (Z.of_nat (length x)) (pairRowStep x) (pairs, 0)
  = Some (packedOuterProduct x, triangular (Z.of_nat (length x))).
Proof.
  intros Hfit Hpairs.
  assert (triangular (Z.of_nat (length x)) ≤ Z.of_nat (length x) * (Z.of_nat (length x) + 1))
    as Htn by (unfold triangular; apply Z.div_le_upper_bound; nia).
  destruct (forUnsigned_inv
              (fun i (st : list R * Z) =>
                 st = (flat_map (packedRow x) (seq 0 (Z.to_nat i))
                         ++ drop (Z.to_nat (triangular i)) pairs,
                       triangular i))
              (Z.of_nat (length x)) (pairRowStep x) (pairs, 0))
    as (st' & Hrun & Hfin).
  - lia.
  - done.
  - intros i st Hi ->.
    destruct (lookup_lt_is_Some_2 x (Z.to_nat i)) as [xi Hxi]; [lia|].
    pose proof (length_packedRows x (Z.to_nat i) ltac:(lia)) as Hdone.
    rewrite Z2Nat.id in Hdone by lia.
    pose proof (triangular_nonneg i ltac:(lia)) as Htri.
    pose proof (triangular_succ i) as Hsucc.
    pose proof (triangular_mono (i + 1) (Z.of_nat (length x)) ltac:(lia)) as Hmono.
    set (done := flat_map (packedRow x) (seq 0 (Z.to_nat i))) in *.
    set (old := drop (Z.to_nat (triangular i)) pairs).
    set (vs := (fun xj => smul (smul s2 xi) xj) <$> take (Z.to_nat i) x).
    assert (length vs = Z.to_nat i) as Hvs
      by (unfold vs; rewrite length_fmap, length_take; lia).
    assert (Z.of_nat (length old) = triangular (Z.of_nat (length x)) - triangular i)
      as Hold by (unfold old; rewrite length_drop; lia).
    eexists. split; [|reflexivity].
    unfold pairRowStep. rewrite load_lookup, Hxi by lia. simpl.
    pose proof (fill_loop (fun j => (fun xj => smul (smul s2 xi) xj) <$> load x j)
                  (pairValueStep x xi) vs done old) as Hfill.
    rewrite Hvs, Hdone, Z2Nat.id in Hfill by lia.
    rewrite Hfill; [| | |lia|lia].
    + simpl.
      destruct (lookup_lt_is_Some_2 old (Z.to_nat i)) as [o Ho]; [lia|].
      replace (triangular i + i) with (Z.of_nat (length done + Z.to_nat i)) by lia.
      rewrite store_Some
        by (rewrite !length_app, length_drop; lia).
      simpl. rewrite (insert_next done vs old (Z.to_nat i) _ o Hvs Ho).
      rewrite wrap_small by lia.
      replace (Z.to_nat (i + 1)) with (S (Z.to_nat i)) by lia.
      rewrite seq_S, flat_map_app. simpl. rewrite app_nil_r.
      unfold packedRow at 2. rewrite Hxi. simpl. fold vs. fold done.
      unfold old. rewrite drop_drop, <- !app_assoc.
      rewrite Hsucc.
      replace (Z.to_nat (triangular i) + S (Z.to_nat i))%nat
        with (Z.to_nat (triangular i + i + 1)) by lia.
      do 2 f_equal. lia.
    + intros j p k. unfold pairValueStep. by destruct (load x j).
    + intros k v Hv. unfold vs in Hv. rewrite list_lookup_fmap in Hv.
      destruct (take (Z.to_nat i) x !! k) as [xj|] eqn:Hxj; [|done].
      simpl in Hv. injection Hv as <-.
      apply lookup_take_Some in Hxj as [Hxj _].
      by rewrite (load_Some _ _ _ Hxj).
  - rewrite Hrun, Hfin. rewrite Nat2Z.id.
    rewrite drop_ge by lia. by rewrite app_nil_r.
Qed.

(** X10.  With the buffers sized by [resize] and every shell non-null at the
    point, [shellPairValues] returns the packed lower triangle of the outer
    product of the basis values: entry [i*(i+1)/2 + j] is [2*x_i*x_j] for
    [j < i] and [x_i*x_i] for [j = i]. *)
Theorem shellPairValues_packed sl (gridPoint : Vec R)
    (Hfit : basisTotal (shells sl) * (basisTotal (shells sl) + 1) < 2 ^ 32)
    (Hn : m_nBasis sl = nBasis sl)
    (Hsized : length (m_basisValues sl) = Z.to_nat (nBasis sl))
    (Hpairs : Z.of_nat (length (m_basisPairValues sl)) = triangular (nBasis sl))
    (Hev : evaluateAtWellFormed evaluateAt (shells sl) gridPoint)
    (Hsig : Forall (fun s => is_Some (evaluateAt s gridPoint)) (shells sl)) :
  let x := pointVector evaluateAt (shells sl) gridPoint in
  (∃ sl', shellPairValues evaluateAt sl gridPoint
          = Some (sl', packedOuterProduct x) ∧
          m_basisValues sl' = x ∧ m_basisPairValues sl' = packedOuterProduct x) ∧
  Z.of_nat (length (packedOuterProduct x)) = triangular (nBasis sl) ∧
  ∀ (i j : nat) xi xj,
    x !! i = Some xi → x !! j = Some xj → (j ≤ i)%nat →
    packedOuterProduct x !! Z.to_nat (triangular (Z.of_nat i) + Z.of_nat j)
    = Some (if decide (j < i)%nat then smul (smul s2 xi) xj else smul xi xi).
Proof.
  intros x. pose proof (basisTotal_nonneg (shells sl)) as Hn0.
  assert (basisTotal (shells sl) < 2 ^ 32) as Hfit' by nia.
  pose proof (shellValuesAt_run evaluateAt sl gridPoint Hfit' Hsized Hev Hsig)
    as Hrun.
  pose proof (length_pointVector evaluateAt (shells sl) gridPoint Hev Hsig) as Hlen.
  fold x in Hrun, Hlen. rewrite nBasis_exact in * by done.
  assert (Z.of_nat (length x) = basisTotal (shells sl)) as Hx by lia.
  split; [|split].
  - eexists. unfold shellPairValues. rewrite Hrun. simpl. rewrite Hn, <- Hx.
    rewrite pairRowStep_loop; [|by rewrite Hx|by rewrite Hx]. simpl.
    split; [reflexivity|]. done.
  - unfold packedOuterProduct. rewrite length_packedRows by lia. by rewrite Hx.
  - apply packedOuterProduct_lookup.
Qed.

End PairValues.

Lemma shellValuesAt_null_witness :
  shellValuesAt sampleEvaluateAt sampleContainer (mkVec 1 0 0) = None.
Proof.
  apply (shellValuesAt_null sampleEvaluateAt sampleContainer (mkVec 1 0 0)
           (sampleShell Shell.P 20)).
  - apply list_elem_of_further, list_elem_of_here.
  - reflexivity.
Defined.

Lemma sampleTwoAtoms_significant :
  Forall (fun s => is_Some (sampleEvaluateAt s (mkVec 1 0 0)))
         (shells sampleTwoAtoms).
Proof. repeat (apply Forall_cons_2; [by eexists|]). apply Forall_nil_2. Qed.

Lemma sampleTwoAtoms_evaluateAt :
  evaluateAtWellFormed sampleEvaluateAt (shells sampleTwoAtoms) (mkVec 1 0 0).
Proof.
  repeat (apply Forall_cons_2; [by intros v [= <-]|]). apply Forall_nil_2.
Qed.

Lemma shellValuesAt_shellValues_witness :
  shellValues sampleEvaluate sampleTwoAtoms 1 0 0
  = Some (withBasisValues [1; 1; 1; 2; 3; 1; 1; 2; 3] sampleTwoAtoms,
          [1; 1; 1; 2; 3; 1; 1; 2; 3]).
Proof.
  apply (shellValuesAt_shellValues sampleEvaluate sampleEvaluateAt
           sampleTwoAtoms (mkVec 1 0 0)).
  - intros s _. reflexivity.
  - reflexivity.
Defined.

Lemma shellValuesAt_values_witness :
  shellValuesAt sampleEvaluateAt sampleTwoAtoms (mkVec 1 0 0)
  = Some (withBasisValues [1; 1; 1; 2; 3; 1; 1; 2; 3] sampleTwoAtoms,
          [1; 1; 1; 2; 3; 1; 1; 2; 3]).
Proof.
  exact (proj1 (shellValuesAt_values sampleEvaluateAt sampleTwoAtoms (mkVec 1 0 0)
                  ltac:(vm_compute; reflexivity) ltac:(reflexivity)
                  sampleTwoAtoms_evaluateAt sampleTwoAtoms_significant)).
Defined.

Lemma shellPairValues_packed_witness :
  ∃ sl', shellPairValues sampleEvaluateAt sampleTwoAtoms (mkVec 1 0 0)
         = Some (sl', packedOuterProduct [1; 1; 1; 2; 3; 1; 1; 2; 3]) ∧
         packedOuterProduct [1; 1; 1; 2; 3; 1; 1; 2; 3] !! 4%nat = Some 2.
Proof.
  destruct (shellPairValues_packed sampleEvaluateAt sampleTwoAtoms (mkVec 1 0 0)
              ltac:(vm_compute; reflexivity) ltac:(reflexivity)
              ltac:(reflexivity) ltac:(reflexivity)
              sampleTwoAtoms_evaluateAt sampleTwoAtoms_significant)
    as [(sl' & Hrun & _) [_ Hlookup]].
  exists sl'. split; [exact Hrun|].
  exact (Hlookup 2%nat 1%nat 1 1 eq_refl eq_refl ltac:(lia)).
Defined.

(** ** Evaluation and the state it leaves *)

Section DensityState.
Context {R : Type} `{Scalar R}.
Variable evaluate : Shell.t R → R → R → R → option (list R).
Implicit Types (sl : ShellList R) (l : list (Shell.t R)).

(** The preconditions of [densityValues]: what [resize] and
    [setDensityVectors] establish, plus matrices that hold a packed
    triangle of dimension [nBasis]. *)
Lemma densityValues_run sl (sb : list Z) x y z :
  basisTotal (shells sl) * (basisTotal (shells sl) + 1) < 2 ^ 32 →
  length (m_basisValues sl) = Z.to_nat (nBasis sl) →
  m_sigBasis sl = Some sb → length sb = Z.to_nat (nBasis sl) →
  evaluateWellFormed evaluate (shells sl) x y z →
  Forall (fun D => triangular (nBasis sl) ≤ Z.of_nat (length D))
         (m_densityVectors sl) →
  length (m_densityValues sl) = length (m_densityVectors sl) →
  Z.of_nat (length (m_densityVectors sl)) < 2 ^ 32 →
  let entries := significantEntries evaluate (shells sl) x y z 0 in
  let result := (fun D => quadraticForm D entries) <$> m_densityVectors sl in
  densityValues evaluate sl x y z
  = Some (withDensityScratch
            (entries.*2 ++ drop (length entries) (m_basisValues sl))
            (entries.*1 ++ drop (length entries) sb) result sl,
          result).
Proof.
  intros Hfit Hbv Hsb Hsblen Hev Hdens Hdv Hnden entries result.
  pose proof (basisTotal_nonneg (shells sl)) as Hn0.
  assert (basisTotal (shells sl) < 2 ^ 32) as Hfit' by nia.
  pose proof (significanceScan_run evaluate sl sb x y z Hfit' Hbv Hsblen Hev)
    as Hscan.
  destruct (significantEntries_indices evaluate (shells sl) x y z 0)
    as [Hsorted Hrange].
  rewrite nBasis_exact in Hdens by done.
  unfold densityValues. rewrite Hsb. simpl.
  rewrite Hscan. unfold scanned. simpl. fold entries.
  assert (usize (m_densityVectors sl) = Z.of_nat (length (m_densityValues sl)))
    as Hsize by (unfold usize; rewrite Hdv; apply wrap_small; lia).
  rewrite Hsize at 1. rewrite zeroEntry_loop by lia. simpl. rewrite Hdv.
  rewrite (rowStep_loop (m_densityVectors sl) entries _ _ (basisTotal (shells sl)));
    [| done | | done | done | done].
  - done.
  - eapply Forall_impl; [exact Hrange|]. simpl. lia.
Qed.


(** X12.  [densityValues] keeps its own preconditions and its result does not
    depend on what earlier calls left in the buffers: after a call at one
    point, a call at another point returns what it returns on the original
    object. *)
Theorem densityValues_repeat sl x y z x' y' z'
    (Hfit : basisTotal (shells sl) * (basisTotal (shells sl) + 1) < 2 ^ 32)
    (Hsized : buffersSized sl)
    (Hev : evaluateWellFormed evaluate (shells sl) x y z)
    (Hev' : evaluateWellFormed evaluate (shells sl) x' y' z')
    (Hdens : Forall (fun D => triangular (nBasis sl) ≤ Z.of_nat (length D))
                    (m_densityVectors sl))
    (Hdv : length (m_densityValues sl) = length (m_densityVectors sl))
    (Hnden : Z.of_nat (length (m_densityVectors sl)) < 2 ^ 32) :
  ∃ sl1 r1 sl2 sl2' r2,
    densityValues evaluate sl x y z = Some (sl1, r1) ∧
    buffersSized sl1 ∧ shells sl1 = shells sl ∧
    m_densityVectors sl1 = m_densityVectors sl ∧
    length (m_densityValues sl1) = length (m_densityVectors sl1) ∧
    densityValues evaluate sl x' y' z' = Some (sl2, r2) ∧
    densityValues evaluate sl1 x' y' z' = Some (sl2', r2).
Proof.
  destruct Hsized as (Hbv & sb & Hsb & Hsblen).
  pose proof (densityValues_run sl sb x y z Hfit Hbv Hsb Hsblen Hev Hdens Hdv Hnden)
    as Hrun1.
  pose proof (densityValues_run sl sb x' y' z' Hfit Hbv Hsb Hsblen Hev' Hdens Hdv Hnden)
    as Hrun2.
  cbv zeta in Hrun1, Hrun2.
  pose proof (length_significantEntries evaluate (shells sl) x y z 0 Hev) as Hlen.
  pose proof (basisTotal_nonneg (shells sl)) as Hn0.
  assert (nBasis sl = basisTotal (shells sl)) as HnB by (apply nBasis_exact; nia).
  set (E := significantEntries evaluate (shells sl) x y z 0) in *.
  set (sl1 := withDensityScratch (E.*2 ++ drop (length E) (m_basisValues sl))
                (E.*1 ++ drop (length E) sb)
                ((fun D => quadraticForm D E) <$> m_densityVectors sl) sl) in *.
  assert (length (E.*2 ++ drop (length E) (m_basisValues sl)) = Z.to_nat (nBasis sl))
    as Hbv1 by (rewrite length_app, length_fmap, length_drop; lia).
  assert (length (E.*1 ++ drop (length E) sb) = Z.to_nat (nBasis sl))
    as Hsb1 by (rewrite length_app, length_fmap, length_drop; lia).
  pose proof (densityValues_run sl1 (E.*1 ++ drop (length E) sb) x' y' z'
                Hfit Hbv1 eq_refl Hsb1 Hev' Hdens
                ltac:(simpl; by rewrite length_fmap) Hnden) as Hrun3.
  cbv zeta in Hrun3.
  eexists sl1, _, _, _, _. split; [exact Hrun1|].
  split; [split; [exact Hbv1|]; eexists; split; [reflexivity|exact Hsb1]|].
  split; [done|]. split; [done|].
  split; [simpl; by rewrite length_fmap|].
  split; [exact Hrun2 | exact Hrun3].
Qed.

Lemma significantEntries_all_null l x y z offset :
  Forall (fun s => evaluate s x y z = None) l →
  significantEntries evaluate l x y z offset = [].
Proof.
  intros Hnull. revert offset.
  induction Hnull as [|s l Hs _ IH]; intros offset; simpl; [done|].
  by rewrite Hs, IH.
Qed.

(** X13.  Where every shell evaluates null, each density value is [0.0]; no
    matrix element is read, so the matrices may have any size. *)
Theorem densityValues_all_null sl x y z
    (Hfit : basisTotal (shells sl) < 2 ^ 32)
    (Hsized : buffersSized sl)
    (Hnull : Forall (fun s => evaluate s x y z = None) (shells sl))
    (Hdv : length (m_densityValues sl) = length (m_densityVectors sl))
    (Hnden : Z.of_nat (length (m_densityVectors sl)) < 2 ^ 32) :
  ∃ sl', densityValues evaluate sl x y z
         = Some (sl', replicate (length (m_densityVectors sl)) s0).
Proof.
  destruct Hsized as (Hbv & sb & Hsb & Hsblen).
  assert (evaluateWellFormed evaluate (shells sl) x y z) as Hev.
  { eapply Forall_impl; [exact Hnull|]. simpl. intros s Hs v Hv. congruence. }
  pose proof (significantEntries_all_null (shells sl) x y z 0 Hnull) as HE.
  pose proof (significanceScan_run evaluate sl sb x y z Hfit Hbv Hsblen Hev) as Hscan.
  unfold scanned in Hscan. rewrite HE in Hscan. simpl in Hscan.
  eexists. unfold densityValues. rewrite Hsb. simpl. rewrite Hscan. simpl.
  assert (usize (m_densityVectors sl) = Z.of_nat (length (m_densityValues sl)))
    as Hsize by (unfold usize; rewrite Hdv; apply wrap_small; lia).
  rewrite Hsize. rewrite zeroEntry_loop by lia. simpl. by rewrite Hdv.
Qed.

End DensityState.

Lemma forLoop_unchanged {St} (n : nat) (i : Z) (body : Z → St → option St) (st : St) :
  (∀ k, body k st = Some st) → forLoop n i body st = Some st.
Proof.
  intros Hbody. revert i. induction n as [|n IH]; intros i; simpl; [done|].
  rewrite Hbody. simpl. apply IH.
Qed.

Section OrbitalState.
Context {R : Type} `{Scalar R}.
Variable evaluate : Shell.t R → R → R → R → option (list R).
Implicit Types (sl : ShellList R) (l : list (Shell.t R)).

Lemma orbitalShellStep_no_orbitals (coefficients : option (Matrix R)) l x y z
    (ov : list R) (basoff : Z) :
  ∃ basoff',
    forEach l (orbitalShellStep evaluate coefficients [] 0 x y z) (ov, basoff)
    = Some (ov, basoff').
Proof.
  revert basoff. induction l as [|s l IH]; intros basoff; simpl; [by eexists|].
  unfold orbitalShellStep at 1.
  assert (match evaluate s x y z with
          | Some values =>
              forUnsigned (Shell.nBasis s)
                (orbitalBasisStep coefficients [] 0 values basoff) ov
          | None => Some ov
          end = Some ov) as ->.
  { destruct (evaluate s x y z); [|done]. by apply forLoop_unchanged. }
  simpl. apply IH.
Qed.

(** X14.  With no orbital requested (as on a freshly constructed object, whose
    coefficient pointer is null), [orbitalValues] returns the output buffer
    as it is, for any shells and any point: the coefficient matrix is never
    read. *)
Theorem orbitalValues_no_orbitals sl x y z
    (Hnone : m_orbitalIndices sl = []) :
  orbitalValues evaluate sl x y z
  = Some (withOrbitalValues (m_orbitalValues sl) sl, m_orbitalValues sl).
Proof.
  unfold orbitalValues. rewrite Hnone.
  change (usize (@nil Z)) with 0. change (forUnsigned 0 zeroEntry (m_orbitalValues sl))
    with (Some (m_orbitalValues sl)). simpl.
  destruct (orbitalShellStep_no_orbitals (m_orbitalCoefficients sl) (shells sl)
              x y z (m_orbitalValues sl) 0) as [basoff' ->].
  done.
Qed.

Lemma orbitalShellStep_all_null (coefficients : option (Matrix R))
    (indices : list Z) (norb : Z) l x y z (ov : list R) (basoff : Z) :
  Forall (fun s => evaluate s x y z = None) l →
  ∃ basoff',
    forEach l (orbitalShellStep evaluate coefficients indices norb x y z)
      (ov, basoff)
    = Some (ov, basoff').
Proof.
  intros Hnull. revert basoff.
  induction Hnull as [|s l Hs _ IH]; intros basoff; simpl; [by eexists|].
  unfold orbitalShellStep at 1. rewrite Hs. simpl. apply IH.
Qed.

(** X15.  Where every shell evaluates null, each orbital value is [0.0]; neither
    the coefficient matrix nor the index list is read. *)
Theorem orbitalValues_all_null sl x y z
    (Hnull : Forall (fun s => evaluate s x y z = None) (shells sl))
    (Hov : length (m_orbitalValues sl) = length (m_orbitalIndices sl))
    (Hnorb : Z.of_nat (length (m_orbitalIndices sl)) < 2 ^ 32) :
  orbitalValues evaluate sl x y z
  = Some (withOrbitalValues (replicate (length (m_orbitalIndices sl)) s0) sl,
          replicate (length (m_orbitalIndices sl)) s0).
Proof.
  unfold orbitalValues.
  assert (usize (m_orbitalIndices sl) = Z.of_nat (length (m_orbitalValues sl)))
    as Hsize by (unfold usize; rewrite Hov; apply wrap_small; lia).
  rewrite Hsize at 1. rewrite zeroEntry_loop by lia. simpl. rewrite Hov.
  destruct (orbitalShellStep_all_null (m_orbitalCoefficients sl)
              (m_orbitalIndices sl) (usize (m_orbitalIndices sl)) (shells sl)
              x y z (replicate (length (m_orbitalIndices sl)) s0) 0 Hnull)
    as [basoff' ->].
  done.
Qed.

Lemma orbitalValues_run sl x y z (C : Matrix R) :
  basisTotal (shells sl) < 2 ^ 32 →
  evaluateWellFormed evaluate (shells sl) x y z →
  m_orbitalCoefficients sl = Some C →
  rowsAvailable C (m_orbitalIndices sl) (basisTotal (shells sl)) →
  length (m_orbitalValues sl) = length (m_orbitalIndices sl) →
  Z.of_nat (length (m_orbitalIndices sl)) < 2 ^ 32 →
  let result :=
    (fun index => orbitalProjection (coefficientRow C index)
                    (significantEntries evaluate (shells sl) x y z 0))
    <$> m_orbitalIndices sl in
  orbitalValues evaluate sl x y z = Some (withOrbitalValues result sl, result).
Proof.
  intros Hfit Hev HC Hrows Hov Hnorb result.
  unfold orbitalValues. rewrite HC.
  assert (usize (m_orbitalIndices sl) = Z.of_nat (length (m_orbitalValues sl)))
    as Hsize by (unfold usize; rewrite Hov; apply wrap_small; lia).
  rewrite Hsize at 1. rewrite zeroEntry_loop by lia. simpl. rewrite Hov.
  rewrite (orbitalShellStep_loop evaluate C (m_orbitalIndices sl)
             (basisTotal (shells sl))) by done.
  done.
Qed.

End OrbitalState.

Lemma orbitalValues_no_orbitals_witness :
  orbitalValues sampleEvaluate sampleContainer 1 0 0
  = Some (withOrbitalValues [] sampleContainer, []).
Proof.
  exact (orbitalValues_no_orbitals sampleEvaluate sampleContainer 1 0 0 eq_refl).
Defined.

Lemma sampleContainer_far :
  Forall (fun s => sampleEvaluate s 100 0 0 = None) (shells sampleContainer).
Proof. repeat (apply Forall_cons_2; [reflexivity|]). apply Forall_nil_2. Qed.

Lemma orbitalValues_all_null_witness :
  orbitalValues sampleEvaluate sampleOrbitals 100 0 0
  = Some (withOrbitalValues [0; 0; 0] sampleOrbitals, [0; 0; 0]).
Proof.
  exact (orbitalValues_all_null sampleEvaluate sampleOrbitals 100 0 0
           sampleContainer_far ltac:(reflexivity) ltac:(vm_compute; reflexivity)).
Defined.

Lemma densityValues_all_null_witness :
  ∃ sl', densityValues sampleEvaluate sampleDensity 100 0 0 = Some (sl', [0; 0]).
Proof.
  exact (densityValues_all_null sampleEvaluate sampleDensity 100 0 0
           ltac:(vm_compute; reflexivity)
           ltac:(split; [reflexivity | eexists; split; reflexivity])
           sampleContainer_far ltac:(reflexivity) ltac:(vm_compute; reflexivity)).
Defined.

Lemma sampleDensity_matrices :
  Forall (fun D => triangular (nBasis sampleDensity) ≤ Z.of_nat (length D))
         (m_densityVectors sampleDensity).
Proof.
  repeat (apply Forall_cons_2; [vm_compute; discriminate|]). apply Forall_nil_2.
Qed.


Lemma densityValues_repeat_witness :
  ∃ sl1 r1 sl2 r2,
    densityValues sampleEvaluate sampleDensity 100 0 0 = Some (sl1, r1) ∧
    densityValues sampleEvaluate sl1 1 0 0 = Some (sl2, r2) ∧
    r2 = [16709; 456].
Proof.
  destruct (densityValues_repeat sampleEvaluate sampleDensity 100 0 0 1 0 0
              ltac:(vm_compute; reflexivity)
              ltac:(split; [reflexivity | eexists; split; reflexivity])
              (sampleContainer_evaluate 100 0 0) (sampleContainer_evaluate 1 0 0)
              sampleDensity_matrices
              ltac:(reflexivity) ltac:(vm_compute; reflexivity))
    as (sl1 & r1 & sl2 & sl2' & r2 & Hrun1 & _ & _ & _ & _ & Hrun2 & Hrun3).
  exists sl1, r1, sl2', r2. split; [exact Hrun1|]. split; [exact Hrun3|].
  vm_compute in Hrun2. by injection Hrun2 as _ <-.
Defined.

(** ** What the constructor leaves *)

Section Constructed.
Context {R : Type} `{Scalar R}.
Variable evaluate : Shell.t R → R → R → R → option (list R).
Variable convExponents : R.
Implicit Types (d : ShellData R) (geometry : Z → Vec R).

Lemma shellsOfType_log type shell atom (pos : Vec R) expts coefs coefsSP :
  Forall (fun e => isWarning e = false)
         (shellsOfType type shell atom pos expts coefs coefsSP).2.
Proof.
  destruct type as [|p|p]; simpl; [constructor| |];
    repeat (destruct p as [p|p|]; simpl;
            try (constructor; [done|constructor]); try constructor).
Qed.

Lemma recordLog_no_warning d geometry :
  Forall (fun e => isWarning e = false) (recordLog convExponents d geometry).
Proof.
  unfold recordLog. generalize (seq 0 (length (shellTypes d))).
  induction l as [|e l IH]; simpl; [constructor|].
  apply Forall_app. split; [apply shellsOfType_log | done].
Qed.

(** X16.  On a well-formed record the constructor leaves an object ready for
    evaluation: the cached basis count is [nBasis()], the scratch buffers
    have [nBasis] cells and the basis-pair buffer the triangular size, no
    density or orbital is bound, and the log holds the diagnostics of the
    unknown type codes followed by the two offset lists, without any
    warning. *)
Theorem ShellList_ctor_ready d geometry (Hwf : wellFormedShellData d) :
  ∃ sl log,
    ShellList_ctor convExponents d geometry = Some (sl, log) ∧
    m_nBasis sl = nBasis sl ∧
    buffersSized sl ∧
    Z.of_nat (length (m_basisPairValues sl)) = triangularSize (nBasis sl) ∧
    m_densityVectors sl = [] ∧ m_densityValues sl = [] ∧
    m_orbitalIndices sl = [] ∧ m_orbitalCoefficients sl = None ∧
    m_orbitalValues sl = [] ∧
    log = recordLog convExponents d geometry
          ++ [qDebugList (shellAtomOffsets sl); qDebugList (basisAtomOffsets sl)] ∧
    existsb isWarning log = false.
Proof.
  eexists _, _. split; [by apply ShellList_ctor_eq|].
  pose proof (triangularSize_range (nBasis (beforeResize convExponents d geometry))).
  split; [by rewrite resize_eq|].
  split; [apply resize_buffersSized|].
  split; [rewrite resize_nBasis, resize_eq; cbv zeta; simpl;
          rewrite length_resizeVector; lia|].
  assert (∀ sl : ShellList R,
            sl = beforeResize convExponents d geometry →
            m_densityVectors sl = [] ∧ m_densityValues sl = [] ∧
            m_orbitalIndices sl = [] ∧ m_orbitalCoefficients sl = None ∧
            m_orbitalValues sl = []) as Hfresh.
  { intros sl ->. unfold beforeResize. by destruct (decide _). }
  destruct (Hfresh _ eq_refl) as (H1 & H2 & H3 & H4 & H5).
  rewrite resize_eq. cbv zeta. simpl.
  split; [done|]. split; [done|]. split; [done|]. split; [done|]. split; [done|].
  split; [done|].
  rewrite existsb_app. simpl. rewrite orb_false_r.
  pose proof (recordLog_no_warning d geometry) as Hlog.
  induction Hlog as [|e l He _ IH]; simpl; [done|]. by rewrite He.
Qed.

Lemma basisTotal_shellsOfType type shell atom (pos : Vec R) expts coefs coefsSP :
  basisTotal (shellsOfType type shell atom pos expts coefs coefsSP).1
  = basisOfCode type ∧
  (length (shellsOfType type shell atom pos expts coefs coefsSP).1 ≤ 2)%nat.
Proof.
  destruct type as [|p|p]; simpl; [split; [done|lia]| |];
    repeat (destruct p as [p|p|]; simpl; try (split; [done|lia])).
Qed.

Lemma lookups_seq {A} (l : list A) (a : A) :
  (fun e => default a (l !! e)) <$> seq 0 (length l) = l.
Proof.
  apply list_eq. intros i. rewrite list_lookup_fmap.
  destruct (decide (i < length l)%nat) as [Hlt|Hge].
  - rewrite lookup_seq_lt by done. simpl.
    destruct (lookup_lt_is_Some_2 l i Hlt) as [x Hx]. by rewrite Hx.
  - rewrite lookup_seq_ge by lia. simpl. symmetry. apply lookup_ge_None. lia.
Qed.

Lemma entriesShells_basisTotal d geometry (es : list nat) :
  basisTotal (flat_map (fun e => (entryShells convExponents d geometry e).1) es)
  = foldr Z.add 0 ((fun e => basisOfCode (entryType d e)) <$> es) ∧
  (length (flat_map (fun e => (entryShells convExponents d geometry e).1) es)
   ≤ 2 * length es)%nat.
Proof.
  induction es as [|e es [IH1 IH2]]; simpl; [split; [done|lia]|].
  rewrite basisTotal_app, length_app, IH1.
  destruct (basisTotal_shellsOfType (entryType d e) (Z.of_nat e) (entryAtom d e)
              (geometry (entryAtom d e)) (entryExponents convExponents d e)
              (entryCoefficients d e) (entryCoefficientsSP d e)) as [Hb Hl].
  unfold entryShells in *. rewrite Hb. split; [done|lia].
Qed.

Lemma recordShells_basisTotal d geometry :
  basisTotal (recordShells convExponents d geometry)
  = foldr Z.add 0 (basisOfCode <$> shellTypes d) ∧
  (length (recordShells convExponents d geometry) ≤ 2 * length (shellTypes d))%nat.
Proof.
  destruct (entriesShells_basisTotal d geometry (seq 0 (length (shellTypes d))))
    as [Hb Hl].
  rewrite length_seq in Hl. split; [|done].
  unfold recordShells. rewrite Hb.
  rewrite <- (lookups_seq (shellTypes d) 0) at 2.
  by rewrite <- list_fmap_compose.
Qed.

(** X17.  The basis count of the constructed object is fixed by the type codes
    alone: 1, 4, 3, 5, 6, 7, 10, 9, 15 for the codes 0, -1, 1, -2, 2, -3, 3,
    -4, 4 and nothing for any other code; there are at most two shells per
    raw entry. *)
Theorem ShellList_ctor_basis_count d geometry (Hwf : wellFormedShellData d) :
  ∃ sl log,
    ShellList_ctor convExponents d geometry = Some (sl, log) ∧
    basisTotal (shells sl) = foldr Z.add 0 (basisOfCode <$> shellTypes d) ∧
    m_nBasis sl = wrap (foldr Z.add 0 (basisOfCode <$> shellTypes d)) ∧
    (length (shells sl) ≤ 2 * length (shellTypes d))%nat.
Proof.
  eexists _, _. split; [by apply ShellList_ctor_eq|].
  destruct (recordShells_basisTotal d geometry) as [Hb Hl].
  rewrite ShellList_ctor_shells. split; [done|]. split; [|done].
  rewrite resize_eq. cbv zeta. simpl. rewrite nBasis_wrap_total.
  assert (shells (beforeResize convExponents d geometry)
          = recordShells convExponents d geometry) as ->
    by (unfold beforeResize; by destruct (decide _)).
  by rewrite Hb.
Qed.

End Constructed.

Lemma forLoop_fails {St} (n : nat) (i k : Z) (body : Z → St → option St) (st : St) :
  (∀ s, body k s = None) → i ≤ k < i + Z.of_nat n → forLoop n i body st = None.
Proof.
  intros Hfail. revert i st. induction n as [|n IH]; intros i st Hk; simpl; [lia|].
  destruct (decide (i = k)) as [->|Hne]; [by rewrite Hfail|].
  destruct (body i st) as [st'|]; simpl; [|done]. apply IH. lia.
Qed.

Lemma load_past_end {A} (buf : list A) : load buf (Z.of_nat (length buf)) = None.
Proof.
  rewrite load_lookup, Nat2Z.id by lia. apply lookup_ge_None_2. lia.
Qed.

Section ConstructedShells.
Context {R : Type} `{Scalar R}.
Variable convExponents : R.
Implicit Types (d : ShellData R) (geometry : Z → Vec R).

Lemma shellsOfType_fields type shell atom (pos : Vec R) expts coefs coefsSP s :
  s ∈ (shellsOfType type shell atom pos expts coefs coefsSP).1 →
  Shell.atomIndex s = atom ∧ Shell.position s = pos ∧
  Shell.exponents s = expts ∧
  (Shell.coefficients s = coefs ∨
   type = -1 ∧ Shell.angularMomentum s = Shell.P ∧
   Shell.coefficients s = coefsSP).
Proof.
  intros Hin.
  destruct type as [|p|p]; simpl in Hin;
    [|repeat (destruct p as [p|p|]; simpl in Hin;
              try (by apply elem_of_nil in Hin))..];
    repeat (apply elem_of_cons in Hin as [-> | Hin]; [simpl; auto 10|]);
    by apply elem_of_nil in Hin.
Qed.

Lemma length_slice {A} (l : list A) (offset count : Z) :
  0 ≤ offset → 0 ≤ count → offset + count ≤ Z.of_nat (length l) →
  length (slice l offset count) = Z.to_nat count.
Proof. intros. unfold slice. rewrite length_take, length_drop. lia. Qed.

(** X18.  Every shell of the constructed object comes from a raw entry: it sits
    on that entry's atom index minus one (in unsigned arithmetic), at the
    position the geometry gives for it, and carries the entry's converted
    exponents, one per primitive.  It carries as many coefficients, except
    the [P] shell of a combined entry when the record has no SP
    coefficients at all: that shell has none. *)
Theorem ShellList_ctor_shell_origin d geometry (Hwf : wellFormedShellData d) :
  ∃ sl log,
    ShellList_ctor convExponents d geometry = Some (sl, log) ∧
    ∀ s, s ∈ shells sl →
      ∃ (e : nat) (type a p : Z),
        shellTypes d !! e = Some type ∧
        shellToAtom d !! e = Some a ∧
        shellPrimitives d !! e = Some p ∧
        Shell.atomIndex s = wrap (a - 1) ∧
        Shell.position s = geometry (wrap (a - 1)) ∧
        Shell.exponents s = entryExponents convExponents d e ∧
        length (Shell.exponents s) = Z.to_nat p ∧
        (length (Shell.coefficients s) = Z.to_nat p ∨
         type = -1 ∧ Shell.angularMomentum s = Shell.P ∧
         contractionCoefficientsSP d = [] ∧ Shell.coefficients s = []).
Proof.
  eexists _, _. split; [by apply ShellList_ctor_eq|].
  rewrite ShellList_ctor_shells. intros s Hin.
  pose proof Hwf as (Hn & Hatoms & Hprims & Hpos & Hfit & Hex & Hcc & Hsp).
  unfold recordShells in Hin.
  apply list_elem_of_In, in_flat_map in Hin as (e & He & Hin).
  apply in_seq in He. apply list_elem_of_In in Hin.
  destruct (lookup_lt_is_Some_2 (shellTypes d) e) as [type Htype]; [lia|].
  destruct (lookup_lt_is_Some_2 (shellToAtom d) e) as [a Hatom]; [lia|].
  destruct (lookup_lt_is_Some_2 (shellPrimitives d) e) as [p Hp]; [lia|].
  pose proof (primitiveOffset_S d e p Hp) as HS.
  pose proof (primitiveOffset_bounds d e (S e) Hpos ltac:(lia)) as Hb1.
  pose proof (primitiveOffset_bounds d (S e) (length (shellTypes d)) Hpos ltac:(lia))
    as Hb2.
  assert (0 ≤ p) as Hp0.
  { rewrite Forall_forall in Hpos. apply Hpos. by eapply list_elem_of_lookup_2. }
  unfold entryShells in Hin.
  apply shellsOfType_fields in Hin as (Ha & Hposn & Hexp & Hcoef).
  assert (entryType d e = type) as Het by (unfold entryType; by rewrite Htype).
  assert (entryAtom d e = wrap (a - 1)) as Hea by (unfold entryAtom; by rewrite Hatom).
  assert (entryPrimitives d e = p) as Hep by (unfold entryPrimitives; by rewrite Hp).
  rewrite Hea in Ha, Hposn.
  exists e, type, a, p. do 6 (split; [done|]).
  split.
  - rewrite Hexp. unfold entryExponents. rewrite length_fmap, Hep.
    apply length_slice; lia.
  - destruct Hcoef as [Hc | (Htm & Hk & Hc)].
    + left. rewrite Hc. unfold entryCoefficients. rewrite Hep.
      apply length_slice; lia.
    + rewrite Hc. unfold entryCoefficientsSP. rewrite Hep.
      destruct Hsp as [Hnil | Hlen].
      * right. rewrite Hnil, slice_nil. rewrite <- Het. done.
      * left. apply length_slice; lia.
Qed.

(** X19.  A record with fewer atom indices or fewer primitive counts than type
    codes is indexed past its end: the constructor has no defined result. *)
Theorem ShellList_ctor_short_record d geometry
    (Hn : Z.of_nat (length (shellTypes d)) < 2 ^ 32)
    (Hshort : (length (shellToAtom d) < length (shellTypes d))%nat ∨
              (length (shellPrimitives d) < length (shellTypes d))%nat) :
  ShellList_ctor convExponents d geometry = None.
Proof.
  unfold ShellList_ctor.
  assert (usize (shellTypes d) = Z.of_nat (length (shellTypes d))) as ->
    by (unfold usize; apply wrap_small; lia).
  assert (∃ k : nat, (k < length (shellTypes d))%nat ∧
                     ∀ st, entryStep convExponents d geometry (Z.of_nat k) st = None)
    as (k & Hk & Hfail).
  { destruct Hshort as [Hs | Hs].
    - exists (length (shellToAtom d)). split; [done|].
      intros [[cnt built] log]. unfold entryStep.
      by rewrite load_past_end.
    - exists (length (shellPrimitives d)). split; [done|].
      intros [[cnt built] log]. unfold entryStep.
      destruct (load (shellToAtom d) _); [simpl|done].
      by rewrite load_past_end. }
  unfold forUnsigned.
  rewrite (forLoop_fails _ 0 (Z.of_nat k)); [done | done | lia].
Qed.

End ConstructedShells.

(** ** From the raw record to evaluation *)

Section EndToEnd.
Context {R : Type} `{Scalar R}.
Variable evaluate : Shell.t R → R → R → R → option (list R).
Variable convExponents : R.
Implicit Types (d : ShellData R) (geometry : Z → Vec R).

Lemma usize_length {A} (l : list A) :
  Z.of_nat (length l) < 2 ^ 32 → Z.to_nat (usize l) = length l.
Proof. intros. unfold usize. rewrite wrap_small by lia. lia. Qed.

(** X20.  Constructing from a well-formed record, binding density matrices that
    hold a packed triangle of the record's basis count, and evaluating
    needs nothing else: [densityValues] returns the quadratic forms over
    the significant entries of the record's shells. *)
Theorem constructed_densityValues d geometry (dens : list (list R)) x y z
    (Hwf : wellFormedShellData d)
    (Hfit : basisTotal (recordShells convExponents d geometry)
            * (basisTotal (recordShells convExponents d geometry) + 1) < 2 ^ 32)
    (Hev : evaluateWellFormed evaluate (recordShells convExponents d geometry) x y z)
    (Hdens : Forall (fun D => triangular (basisTotal
                                            (recordShells convExponents d geometry))
                              ≤ Z.of_nat (length D)) dens)
    (Hnden : Z.of_nat (length dens) < 2 ^ 32) :
  ∃ sl log sl',
    ShellList_ctor convExponents d geometry = Some (sl, log) ∧
    densityValues evaluate (setDensityVectors dens sl) x y z
    = Some (sl',
            (fun D => quadraticForm D
                        (significantEntries evaluate
                           (recordShells convExponents d geometry) x y z 0))
            <$> dens).
Proof.
  set (sl := (resize (beforeResize convExponents d geometry)).1).
  pose proof (ShellList_ctor_shells convExponents d geometry) as Hshells.
  fold sl in Hshells.
  destruct (resize_buffersSized (beforeResize convExponents d geometry))
    as (Hbv & sb & Hsb & Hsblen). fold sl in Hbv, Hsb, Hsblen.
  pose proof (basisTotal_nonneg (recordShells convExponents d geometry)) as Hn0.
  assert (nBasis (setDensityVectors dens sl) = nBasis sl) as HnB by done.
  assert (nBasis sl = basisTotal (recordShells convExponents d geometry)) as HnB'
    by (rewrite nBasis_exact; rewrite Hshells; [done|nia]).
  pose proof (densityValues_run evaluate (setDensityVectors dens sl) sb x y z) as Hrun.
  cbv zeta in Hrun. simpl in Hrun. rewrite Hshells, HnB in Hrun.
  eexists sl, _, _. split; [by apply ShellList_ctor_eq|].
  apply Hrun; try done.
  - by rewrite HnB'.
  - by rewrite length_resizeVector, usize_length.
Qed.

(** X21.  The same for orbitals: after construction and [setOrbitalVectors] with
    a matrix whose requested rows have a column per basis function,
    [orbitalValues] returns the projections of the significant entries. *)
Theorem constructed_orbitalValues d geometry (C : Matrix R) (indices : list Z)
    x y z
    (Hwf : wellFormedShellData d)
    (Hfit : basisTotal (recordShells convExponents d geometry) < 2 ^ 32)
    (Hev : evaluateWellFormed evaluate (recordShells convExponents d geometry) x y z)
    (Hrows : rowsAvailable C indices
               (basisTotal (recordShells convExponents d geometry)))
    (Hnorb : Z.of_nat (length indices) < 2 ^ 32) :
  ∃ sl log sl',
    ShellList_ctor convExponents d geometry = Some (sl, log) ∧
    orbitalValues evaluate (setOrbitalVectors C indices sl) x y z
    = Some (sl',
            (fun index =>
               orbitalProjection (coefficientRow C index)
                 (significantEntries evaluate
                    (recordShells convExponents d geometry) x y z 0))
            <$> indices).
Proof.
  set (sl := (resize (beforeResize convExponents d geometry)).1).
  pose proof (ShellList_ctor_shells convExponents d geometry) as Hshells.
  fold sl in Hshells.
  pose proof (orbitalValues_run evaluate (setOrbitalVectors C indices sl) x y z C)
    as Hrun.
  cbv zeta in Hrun. simpl in Hrun. rewrite Hshells in Hrun.
  eexists sl, _, _. split; [by apply ShellList_ctor_eq|].
  apply Hrun; try done.
  by rewrite length_resizeVector, usize_length.
Qed.

End EndToEnd.

(** ** Bounding boxes of one shell and of one more shell *)

Section BoxGrowth.
Context {R : Type} `{Scalar R}.
Variable shellBoundingBox : Shell.t R → R → Vec R * Vec R.
Implicit Types (sl : ShellList R).

Lemma smin_same (a : R) : smin a a = a.
Proof. unfold smin. by destruct (sltb a a). Qed.

Lemma smax_same (a : R) : smax a a = a.
Proof. unfold smax. by destruct (sltb a a). Qed.

(** X22.  The box of a container with a single shell is that shell's box,
    whatever [operator<] does and whatever [min] and [max] held. *)
Theorem boundingBox_single sl (s : Shell.t R) (min max : Vec R) (thresh : R)
    (Hone : shells sl = [s]) :
  boundingBox shellBoundingBox sl min max thresh = shellBoundingBox s thresh.
Proof.
  unfold boundingBox. rewrite Hone. simpl. unfold boundingBoxStep.
  destruct (shellBoundingBox s thresh) as [[a b c] [a' b' c']]. simpl.
  by rewrite !smin_same, !smax_same.
Qed.

End BoxGrowth.

Section BoxGrowthOrdered.
Context {R : Type} `{ScalarOrder R}.
Variable shellBoundingBox : Shell.t R → R → Vec R * Vec R.
Implicit Types (sl : ShellList R).

(** The box [inner] lies within the box [outer]. *)
Lemma boundingBoxStep_contains (thresh : R) (acc : Vec R * Vec R) (s : Shell.t R) :
  let new := boundingBoxStep shellBoundingBox thresh acc s in
  sle (vx new.1) (vx acc.1) ∧ sle (vy new.1) (vy acc.1) ∧
  sle (vz new.1) (vz acc.1) ∧
  sle (vx acc.2) (vx new.2) ∧ sle (vy acc.2) (vy new.2) ∧
  sle (vz acc.2) (vz new.2).
Proof.
  unfold boundingBoxStep. destruct acc as [mn mx].
  destruct (shellBoundingBox s thresh) as [tmin tmax]. simpl.
  repeat split; first [apply smin_le_r | apply smax_ge_r].
Qed.

(** X23.  Appending a shell to a non-empty container folds its box into the box
    of the container; with a strict total [operator<] the box never
    shrinks. *)
Theorem boundingBox_append sl (s : Shell.t R) (min max : Vec R) (thresh : R)
    (Hnonempty : shells sl ≠ []) :
  let old := boundingBox shellBoundingBox sl min max thresh in
  let new := boundingBox shellBoundingBox (append s sl) min max thresh in
  new = boundingBoxStep shellBoundingBox thresh old s ∧
  sle (vx new.1) (vx old.1) ∧ sle (vy new.1) (vy old.1) ∧
  sle (vz new.1) (vz old.1) ∧
  sle (vx old.2) (vx new.2) ∧ sle (vy old.2) (vy new.2) ∧
  sle (vz old.2) (vz new.2).
Proof.
  intros old new.
  assert (new = boundingBoxStep shellBoundingBox thresh old s) as Hnew.
  { unfold new, old, boundingBox. simpl.
    destruct (shells sl) as [|first rest]; [done|].
    change ((first :: rest) ++ [s]) with (first :: (rest ++ [s])).
    cbv iota. rewrite app_comm_cons, fold_left_app. done. }
  split; [done|]. rewrite Hnew. apply boundingBoxStep_contains.
Qed.

End BoxGrowthOrdered.

(** ** The further properties on the sample data *)

Lemma ShellList_ctor_ready_witness :
  ∃ sl log,
    ShellList_ctor 7 sampleData sampleGeometry = Some (sl, log) ∧
    buffersSized sl ∧ m_orbitalCoefficients sl = None ∧
    existsb isWarning log = false.
Proof.
  destruct (ShellList_ctor_ready 7 sampleData sampleGeometry sampleData_wellFormed)
    as (sl & log & Hrun & _ & Hsized & _ & _ & _ & _ & Hnull & _ & _ & Hwarn).
  exists sl, log. split; [exact Hrun|]. split; [exact Hsized|].
  split; [exact Hnull | exact Hwarn].
Defined.

Lemma ShellList_ctor_basis_count_witness :
  ∃ sl log,
    ShellList_ctor 7 sampleData sampleGeometry = Some (sl, log) ∧
    basisTotal (shells sl) = 8 ∧ m_nBasis sl = 8.
Proof.
  destruct (ShellList_ctor_basis_count 7 sampleData sampleGeometry
              sampleData_wellFormed)
    as (sl & log & Hrun & Htotal & Hn & _).
  exists sl, log. split; [exact Hrun|]. split; [exact Htotal | exact Hn].
Defined.

Lemma ShellList_ctor_shell_origin_witness :
  ∃ sl log,
    ShellList_ctor 7 sampleData sampleGeometry = Some (sl, log) ∧
    ∀ s, s ∈ shells sl →
         ∃ (e : nat) (a : Z),
           shellToAtom sampleData !! e = Some a ∧
           Shell.atomIndex s = wrap (a - 1) ∧
           Shell.position s = sampleGeometry (wrap (a - 1)).
Proof.
  destruct (ShellList_ctor_shell_origin 7 sampleData sampleGeometry
              sampleData_wellFormed)
    as (sl & log & Hrun & Horigin).
  exists sl, log. split; [exact Hrun|]. intros s Hs.
  destruct (Horigin s Hs) as (e & type & a & p & _ & Ha & _ & Hatom & Hpos & _).
  exists e, a. split; [exact Ha|]. split; [exact Hatom | exact Hpos].
Defined.

Lemma ShellList_ctor_short_record_witness :
  ShellList_ctor 7 sampleShortData sampleGeometry = None.
Proof.
  apply ShellList_ctor_short_record.
  - vm_compute. reflexivity.
  - left. simpl. lia.
Defined.

Lemma sampleData_shells :
  recordShells 7 sampleData sampleGeometry
  = [Shell.new Shell.S 0 (mkVec 0 0 0) [70] [1];
     Shell.new Shell.S 0 (mkVec 0 0 0) [140; 210] [2; 3];
     Shell.new Shell.P 0 (mkVec 0 0 0) [140; 210] [7; 8];
     Shell.new Shell.P 1 (mkVec 1 0 0) [350] [5]].
Proof. reflexivity. Qed.

Lemma sampleData_evaluate :
  evaluateWellFormed sampleEvaluate (recordShells 7 sampleData sampleGeometry) 1 0 0.
Proof.
  rewrite sampleData_shells.
  repeat (apply Forall_cons_2; [by intros v [= <-]|]). apply Forall_nil_2.
Qed.

Lemma constructed_densityValues_witness :
  ∃ sl log sl',
    ShellList_ctor 7 sampleData sampleGeometry = Some (sl, log) ∧
    densityValues sampleEvaluate (setDensityVectors [replicate 36 1] sl) 1 0 0
    = Some (sl', [362]).
Proof.
  exact (constructed_densityValues sampleEvaluate 7 sampleData sampleGeometry
           [replicate 36 1] 1 0 0 sampleData_wellFormed
           ltac:(vm_compute; reflexivity) sampleData_evaluate
           ltac:(apply Forall_cons_2; [vm_compute; discriminate | apply Forall_nil_2])
           ltac:(vm_compute; reflexivity)).
Defined.

Lemma sampleIdentity_available_8 : rowsAvailable sampleIdentity [5; 2; 0] 8.
Proof.
  eapply Forall_impl; [exact sampleIdentity_available|].
  intros index (row & Hrow & Hlen). exists row. split; [done|]. lia.
Qed.

Lemma constructed_orbitalValues_witness :
  ∃ sl log sl',
    ShellList_ctor 7 sampleData sampleGeometry = Some (sl, log) ∧
    orbitalValues sampleEvaluate (setOrbitalVectors sampleIdentity [5; 2; 0] sl)
      1 0 0
    = Some (sl', [1; 1; 1]).
Proof.
  exact (constructed_orbitalValues sampleEvaluate 7 sampleData sampleGeometry
           sampleIdentity [5; 2; 0] 1 0 0 sampleData_wellFormed
           ltac:(vm_compute; reflexivity) sampleData_evaluate
           sampleIdentity_available_8 ltac:(vm_compute; reflexivity)).
Defined.

Lemma boundingBox_single_witness :
  boundingBox sampleBox (sampleList [sampleShell Shell.P 4])
    (mkVec 9 9 9) (mkVec 9 9 9) 1
  = (mkVec 0 0 0, mkVec 8 8 8).
Proof.
  exact (boundingBox_single sampleBox (sampleList [sampleShell Shell.P 4])
           (sampleShell Shell.P 4) (mkVec 9 9 9) (mkVec 9 9 9) 1 eq_refl).
Defined.

Lemma boundingBox_append_witness :
  boundingBox sampleBox
    (append (sampleShell Shell.P 4) (sampleList [sampleShell Shell.S 0]))
    (mkVec 9 9 9) (mkVec 9 9 9) 1
  = (mkVec (-2) (-2) (-2), mkVec 8 8 8).
Proof.
  exact (proj1 (boundingBox_append sampleBox (sampleList [sampleShell Shell.S 0])
                  (sampleShell Shell.P 4) (mkVec 9 9 9) (mkVec 9 9 9) 1
                  ltac:(discriminate))).
Defined.
